(** * Puerro: virtual DOM reconciliation and observables

    A shallow embedding of the [vdom] module ([vNode], [render], [diff],
    [changed]) and of the [observable] module ([Observable],
    [ObservableObject], [ObservableList]) of the Puerro teaching project,
    together with the properties stated about them. *)

From Stdlib Require Import List String Ascii ZArith Bool Arith Lia DecimalString Permutation.
Import ListNotations.
Local Open Scope string_scope.
Local Open Scope list_scope.

(** ** JavaScript values *)

(** The objects every plain object inherits from: [Object.prototype]
    itself, which the accessor [__proto__] answers, and the functions it
    holds under the other names. *)
Inductive Builtin : Type :=
| Object_prototype
| Object_prototype_member (name : string).

(** The values the two modules handle.  Numbers are the integer-valued
    ones and [NaN], the one number that is not [===] to itself
    (infinities and fractions are outside the model).  Functions, plain
    objects and arrays are reference values: [ref] is their identity,
    which is all that [===] looks at.  A function carries the text
    [Function.prototype.toString] returns for it; a plain object carries
    its own enumerable properties in the order they were added, and its
    prototype is [Object.prototype]. *)
#[warnings="-register-all"]
Inductive Val : Type :=
| VUndefined
| VNull
| VBool (b : bool)
| VNum (n : Z)
| VNaN
| VStr (s : string)
| VFun (ref : nat) (source : string)
| VBuiltin (b : Builtin)
| VObj (ref : nat) (props : list (string * Val))
| VArr (ref : nat) (elems : list Val).

Definition Props := list (string * Val).

(** The option monad stands for a computation that may throw (a
    [TypeError] of the host): [None] is the thrown exception. *)
Definition bind {A B : Type} (m : option A) (k : A -> option B) : option B :=
  match m with
  | Some a => k a
  | None => None
  end.

Notation "x <- m ;; k" := (bind m (fun x => k))
  (at level 61, m at next level, right associativity).

Section Traversals.
Context {A B : Type} (f : A -> option B).

(** [xs.map(f)] for an [f] that may throw: left to right, stopping at
    the first exception. *)
Fixpoint mapM (xs : list A) : option (list B) :=
  match xs with
  | [] => Some []
  | x :: rest =>
      y <- f x ;;
      ys <- mapM rest ;;
      Some (y :: ys)
  end.
End Traversals.

Section ForEach.
Context {A S : Type} (f : A -> nat -> S -> option S).

(** [xs.forEach((x, i) => ...)] threading a state, the index starting
    at [i]. *)
Fixpoint forEach_from (i : nat) (xs : list A) (s : S) : option S :=
  match xs with
  | [] => Some s
  | x :: rest =>
      s' <- f x i s ;;
      forEach_from (Datatypes.S i) rest s'
  end.
End ForEach.

Section Lookup.
Context {A : Type} (f : Val -> A) (d : A).

(** Own-property lookup, continued by [f] on the value found and
    answering [d] when the key is absent. *)
Fixpoint lookup_with (k : string) (props : Props) : A :=
  match props with
  | [] => d
  | (k', v) :: rest => if String.eqb k' k then f v else lookup_with k rest
  end.
End Lookup.

Definition string_of_nat (n : nat) : string :=
  NilEmpty.string_of_uint (Nat.to_uint n).

Definition string_of_Z (n : Z) : string :=
  NilZero.string_of_int (Z.to_int n).

(** [typeof v] *)
Definition typeof (v : Val) : string :=
  match v with
  | VUndefined => "undefined"
  | VNull => "object"
  | VBool _ => "boolean"
  | VNum _ | VNaN => "number"
  | VStr _ => "string"
  | VFun _ _ => "function"
  | VBuiltin Object_prototype => "object"
  | VBuiltin (Object_prototype_member _) => "function"
  | VObj _ _ => "object"
  | VArr _ _ => "object"
  end.

(** [null == v] *)
Definition nullish (v : Val) : bool :=
  match v with
  | VUndefined | VNull => true
  | _ => false
  end.

(** [!!v] *)
Definition truthy (v : Val) : bool :=
  match v with
  | VUndefined | VNull => false
  | VBool b => b
  | VNum n => negb (Z.eqb n 0)
  | VNaN => false
  | VStr s => negb (String.eqb s "")
  | VFun _ _ | VBuiltin _ | VObj _ _ | VArr _ _ => true
  end.

Definition Builtin_eqb (a b : Builtin) : bool :=
  match a, b with
  | Object_prototype, Object_prototype => true
  | Object_prototype_member x, Object_prototype_member y => String.eqb x y
  | _, _ => false
  end.

(** [a === b]: primitives by value, reference values by identity;
    [NaN] is [===] to nothing, itself included. *)
Definition strict_eq (a b : Val) : bool :=
  match a, b with
  | VUndefined, VUndefined => true
  | VNull, VNull => true
  | VBool x, VBool y => Bool.eqb x y
  | VNum x, VNum y => Z.eqb x y
  | VStr x, VStr y => String.eqb x y
  | VFun r _, VFun r' _ => Nat.eqb r r'
  | VBuiltin x, VBuiltin y => Builtin_eqb x y
  | VObj r _, VObj r' _ => Nat.eqb r r'
  | VArr r _, VArr r' _ => Nat.eqb r r'
  | _, _ => false
  end.

Definition join (sep : string) (parts : list string) : string :=
  match parts with
  | [] => ""
  | p :: rest => fold_left (fun acc q => String.append acc (String.append sep q)) rest p
  end.

(** [v.toString()] for a [v] that is neither [null] nor [undefined]
    (on those two the model answers the text [String(v)] gives). *)
Fixpoint toString (v : Val) : string :=
  match v with
  | VUndefined => "undefined"
  | VNull => "null"
  | VBool true => "true"
  | VBool false => "false"
  | VNum n => string_of_Z n
  | VNaN => "NaN"
  | VStr s => s
  | VFun _ source => source
  | VBuiltin Object_prototype => "[object Object]"
  | VBuiltin (Object_prototype_member name) =>
      String.append "function " (String.append name "() { [native code] }")
  | VObj _ _ => "[object Object]"
  | VArr _ elems =>
      join "," (map (fun e => if nullish e then "" else toString e) elems)
  end.

(** The array index a property key denotes, if it denotes one: the key
    is the decimal text, without leading zeros, of a number below
    [2^32 - 1]. *)
Definition array_index (k : string) : option N :=
  match NilEmpty.uint_of_string k with
  | Some u =>
      let n := N.of_uint u in
      if String.eqb (NilEmpty.string_of_uint (N.to_uint n)) k && N.ltb n 4294967295
      then Some n
      else None
  | None => None
  end.

Definition is_array_index (k : string) : bool :=
  match array_index k with
  | Some _ => true
  | None => false
  end.

(** Puts the key [k], which denotes the index [n], in its place among
    index keys in ascending order. *)
Fixpoint insert_index (n : N) (k : string) (ks : list string) : list string :=
  match ks with
  | [] => [k]
  | k' :: rest =>
      match array_index k' with
      | Some n' => if N.leb n n' then k :: ks else k' :: insert_index n k rest
      | None => k :: ks
      end
  end.

(** The order in which an object lists its own keys, given the order
    in which they were added: the array indices first, ascending, then
    the other keys as they were added. *)
Definition key_order (ks : list string) : list string :=
  fold_right (fun k acc => match array_index k with
                           | Some n => insert_index n k acc
                           | None => acc
                           end) [] ks
  ++ filter (fun k => negb (is_array_index k)) ks.

(** [Object.keys(v)], throwing on [null] and [undefined]. *)
Definition keys (v : Val) : option (list string) :=
  match v with
  | VUndefined | VNull => None
  | VObj _ props => Some (key_order (map fst props))
  | VArr _ elems => Some (map string_of_nat (seq 0 (List.length elems)))
  | VStr s => Some (map string_of_nat (seq 0 (String.length s)))
  | VBool _ | VNum _ | VNaN | VFun _ _ | VBuiltin _ => Some []
  end.

(** The index a property key denotes among [n] elements, if any. *)
Definition index_of_key (k : string) (n : nat) : option nat :=
  find (fun i => String.eqb (string_of_nat i) k) (seq 0 n).

Definition char_at (s : string) (i : nat) : Val :=
  match String.get i s with
  | Some c => VStr (String c EmptyString)
  | None => VUndefined
  end.

(** The names a plain object inherits from [Object.prototype]. *)
Definition Object_prototype_names : list string :=
  [ "constructor"; "hasOwnProperty"; "isPrototypeOf"; "propertyIsEnumerable";
    "toLocaleString"; "toString"; "valueOf"; "__proto__";
    "__defineGetter__"; "__defineSetter__"; "__lookupGetter__"; "__lookupSetter__" ].

Definition inherited (k : string) : bool :=
  existsb (String.eqb k) Object_prototype_names.

(** What reading an inherited name gives on a plain object that has no
    own property of that name. *)
Definition Object_prototype_get (k : string) : Val :=
  if String.eqb k "__proto__" then VBuiltin Object_prototype
  else VBuiltin (Object_prototype_member k).

(** [o[k]] on a plain object with the own properties [props]: the own
    property, else what [Object.prototype] holds under the name, else
    [undefined]. *)
Definition read (props : Props) (k : string) : Val :=
  lookup_with (fun x => x)
    (if inherited k then Object_prototype_get k else VUndefined) k props.

(** [v[k]] and [v.k] for a string key, throwing on [null] and
    [undefined].  Of what arrays, strings and functions inherit only
    [length] is modelled. *)
Definition get_prop (v : Val) (k : string) : option Val :=
  match v with
  | VUndefined | VNull => None
  | VObj _ props => Some (read props k)
  | VArr _ elems =>
      if String.eqb k "length" then Some (VNum (Z.of_nat (List.length elems)))
      else match index_of_key k (List.length elems) with
           | Some i => Some (nth i elems VUndefined)
           | None => Some VUndefined
           end
  | VStr s =>
      if String.eqb k "length" then Some (VNum (Z.of_nat (String.length s)))
      else match index_of_key k (String.length s) with
           | Some i => Some (char_at s i)
           | None => Some VUndefined
           end
  | VBool _ | VNum _ | VNaN | VFun _ _ | VBuiltin _ => Some VUndefined
  end.

(** [v[i]] for a numeric index. *)
Definition get_index (v : Val) (i : nat) : option Val :=
  match v with
  | VArr _ elems => Some (nth i elems VUndefined)
  | VStr s => Some (char_at s i)
  | _ => get_prop v (string_of_nat i)
  end.

(** ** The vdom module *)

(** [[].concat(...nodes)]: an argument that is an array contributes its
    elements, any other argument contributes itself. *)
Definition concat_spread (nodes : list Val) : list Val :=
  flat_map (fun n => match n with
                     | VArr _ elems => elems
                     | _ => [n]
                     end) nodes.

(** [vNode(tagName, attributes = {}, ...nodes)].  An omitted
    [attributes] argument is [VUndefined].  The object literal, the
    default attribute object and the children array are allocated at the
    references [r], [r + 1] and [r + 2].  The rest parameter [nodes] is
    always an array, so the test [null == nodes] is never true. *)
Definition vNode (r : nat) (tagName attributes : Val) (nodes : list Val) : Val :=
  VObj r
    [ ("tagName", tagName);
      ("attributes", if nullish attributes then VObj (r + 1) [] else attributes);
      ("children", VArr (r + 2) (concat_spread nodes)) ].

Definition h := vNode.

(** [a !== b] *)
Definition strict_neq (a b : Val) : bool := negb (strict_eq a b).

(** [(null == v ? '' : v).toString()] *)
Definition attr_text (v : Val) : string :=
  toString (if nullish v then VStr "" else v).

(** The callback of [some] in [changed], for attribute objects [a1] and
    [a2] that are neither [null] nor [undefined]. *)
Definition attribute_differs (a1 a2 : Val) (a : string) : bool :=
  match get_prop a1 a, get_prop a2 a with
  | Some v1, Some v2 =>
      strict_neq v1 v2 && negb (String.eqb (attr_text v1) (attr_text v2))
  | _, _ => false
  end.

(** [changed(node1, node2)] *)
Definition changed (node1 node2 : Val) : option bool :=
  nodeChanged <-
    (if negb (String.eqb (typeof node1) (typeof node2)) then Some true
     else if (String.eqb (typeof node1) "string" || String.eqb (typeof node1) "number")
              && strict_neq node1 node2 then Some true
     else
       t1 <- get_prop node1 "type" ;;
       t2 <- get_prop node2 "type" ;;
       Some (strict_neq t1 t2)) ;;
  attributesChanged <-
    (a1 <- get_prop node1 "attributes" ;;
     if negb (truthy a1) then Some false
     else
       a2 <- get_prop node2 "attributes" ;;
       if negb (truthy a2) then Some false
       else
         k1 <- keys a1 ;;
         k2 <- keys a2 ;;
         Some (negb (Nat.eqb (List.length k1) (List.length k2))
               || existsb (attribute_differs a1 a2) k1)) ;;
  Some (nodeChanged || attributesChanged).

(** ** The live display tree *)

(** The part of the host's document the module touches: text nodes, and
    elements with their attributes (name and text, in the order set),
    their event listeners and their child nodes.  What the host does to
    element and attribute names (checking them, folding their case) is
    not modelled. *)
#[warnings="-register-all"]
Inductive Dom : Type :=
| Text (data : string)
| Element (tagName : string) (attributes : list (string * string))
          (listeners : list (string * Val)) (childNodes : list Dom).

(** [String(v)] *)
Definition String_of (v : Val) : string := toString v.

(** [$element.setAttribute(key, text)] *)
Fixpoint setAttribute (attrs : list (string * string)) (key text : string)
  : list (string * string) :=
  match attrs with
  | [] => [(key, text)]
  | (k, t) :: rest =>
      if String.eqb k key then (k, text) :: rest
      else (k, t) :: setAttribute rest key text
  end.

(** One step of the [forEach] of [createDomElement] over the keys that
    passed the filter [null != attributes[key]]. *)
Definition apply_attribute (attributes : Val) (element : Dom) (key : string)
  : option Dom :=
  v <- get_prop attributes key ;;
  match element with
  | Element t attrs ls cs =>
      if String.eqb (typeof v) "function"
      then Some (Element t attrs (ls ++ [(key, v)]) cs)
      else Some (Element t (setAttribute attrs key (String_of v)) ls cs)
  | Text _ => None
  end.

Fixpoint apply_attributes (attributes : Val) (element : Dom) (ks : list string)
  : option Dom :=
  match ks with
  | [] => Some element
  | key :: rest =>
      e <- apply_attribute attributes element key ;;
      apply_attributes attributes e rest
  end.

(** [createDomElement(tagName, attributes = {}, innerHTML = '')], called
    with its first two arguments only: the new element has no child.
    The host is taken to accept the tag name and every attribute name;
    where it rejects one, [createElement] or [setAttribute] throws. *)
Definition createDomElement (tagName attributes : Val) : option Dom :=
  let attributes :=
    match attributes with
    | VUndefined => VObj 0 []
    | _ => attributes
    end in
  ks <- keys attributes ;;
  apply_attributes attributes (Element (String_of tagName) [] [] [])
    (filter (fun key => match get_prop attributes key with
                        | Some v => negb (nullish v)
                        | None => false
                        end) ks).

Definition appendChildren (element : Dom) (cs : list Dom) : option Dom :=
  match element with
  | Element t attrs ls cs0 => Some (Element t attrs ls (cs0 ++ cs))
  | Text _ => None
  end.

(** [render(node)].  A value without a [children] array makes
    [node.children.forEach] throw. *)
Fixpoint render (node : Val) : option Dom :=
  if nullish node then Some (Text "")
  else if String.eqb (typeof node) "string" || String.eqb (typeof node) "number"
  then Some (Text (String_of node))
  else
    tagName <- get_prop node "tagName" ;;
    attributes <- get_prop node "attributes" ;;
    element <- createDomElement tagName attributes ;;
    match node with
    | VObj _ props =>
        lookup_with
          (fun children =>
             match children with
             | VArr _ elems =>
                 cs <- mapM render elems ;;
                 appendChildren element cs
             | _ => None
             end)
          None "children" props
    | _ => None
    end.

(** *** References into the live tree

    A live node is mutable and is passed by reference.  The tree is
    modelled as a value and a reference to one of its nodes as the path of
    child indices that leads to it from the root.  [diff] changes only
    nodes below the parent it is given, so the path of that parent stays
    valid for the whole call. *)
Definition NodeRef := list nat.

Fixpoint lookup (root : Dom) (path : NodeRef) : option Dom :=
  match path with
  | [] => Some root
  | i :: rest =>
      match root with
      | Element _ _ _ cs => c <- nth_error cs i ;; lookup c rest
      | Text _ => None
      end
  end.

Fixpoint set_nth {A : Type} (i : nat) (x : A) (xs : list A) : list A :=
  match xs, i with
  | [], _ => []
  | _ :: rest, O => x :: rest
  | y :: rest, S j => y :: set_nth j x rest
  end.

Fixpoint remove_nth {A : Type} (i : nat) (xs : list A) : list A :=
  match xs, i with
  | [], _ => []
  | _ :: rest, O => rest
  | y :: rest, S j => y :: remove_nth j rest
  end.

(** Runs the mutation [f] on the node at [path]; throws when there is no
    such node (the reference is [undefined]) or when [f] throws. *)
Fixpoint update (root : Dom) (path : NodeRef) (f : Dom -> option Dom)
  : option Dom :=
  match path with
  | [] => f root
  | i :: rest =>
      match root with
      | Element t attrs ls cs =>
          c <- nth_error cs i ;;
          c' <- update c rest f ;;
          Some (Element t attrs ls (set_nth i c' cs))
      | Text _ => None
      end
  end.

(** [$parent.appendChild(child)] *)
Definition appendChild (root : Dom) (parent : NodeRef) (child : Dom) : option Dom :=
  update root parent (fun p => appendChildren p [child]).

(** [$parent.removeChild($parent.childNodes[index])] *)
Definition removeChild (root : Dom) (parent : NodeRef) (index : nat) : option Dom :=
  update root parent
    (fun p => match p with
              | Element t attrs ls cs =>
                  _ <- nth_error cs index ;;
                  Some (Element t attrs ls (remove_nth index cs))
              | Text _ => None
              end).

(** [$parent.replaceChild(newChild, $parent.childNodes[index])] *)
Definition replaceChild (root : Dom) (parent : NodeRef) (newChild : Dom) (index : nat)
  : option Dom :=
  update root parent
    (fun p => match p with
              | Element t attrs ls cs =>
                  _ <- nth_error cs index ;;
                  Some (Element t attrs ls (set_nth index newChild cs))
              | Text _ => None
              end).

(** The mutations [diff] performs on the live tree, in order. *)
Inductive DomOp : Type :=
| OpAppend (parent : NodeRef) (child : Dom)
| OpRemove (parent : NodeRef) (index : nat)
| OpReplace (parent : NodeRef) (newChild : Dom) (index : nat).

(** The live tree together with the mutations performed so far. *)
Definition Live : Type := Dom * list DomOp.

(** The reference [$parent.childNodes[index]].  Evaluating it throws
    when [$parent] is [undefined]; the reference itself may well point to
    no node. *)
Definition childNodes_at (root : Dom) (parent : NodeRef) (index : nat)
  : option NodeRef :=
  _ <- lookup root parent ;; Some (parent ++ [index]).

(** [oldNode.children[i]] *)
Definition old_child (oldNode : Val) (i : nat) : option Val :=
  children <- get_prop oldNode "children" ;;
  get_index children i.

(** [newNode.children.forEach((newNode, i) => body)] *)
Definition forEach_children (body : Val -> nat -> Live -> option Live)
  (newNode : Val) (s : Live) : option Live :=
  match newNode with
  | VObj _ props =>
      lookup_with
        (fun children =>
           match children with
           | VArr _ elems => forEach_from body 0 elems s
           | _ => None
           end)
        None "children" props
  | _ => None
  end.

(** [diff($parent, newNode, oldNode, index = 0)], run on the live tree
    and the operations logged so far.  (One copy of the module takes the
    old node before the new one; its body is the same.) *)
Fixpoint diff (parent : NodeRef) (newNode oldNode : Val) (index : nat)
  (s : Live) {struct newNode} : option Live :=
  let '(root, ops) := s in
  if nullish oldNode then
    child <- render newNode ;;
    root' <- appendChild root parent child ;;
    Some (root', ops ++ [OpAppend parent child])
  else if nullish newNode then
    root' <- removeChild root parent index ;;
    Some (root', ops ++ [OpRemove parent index])
  else
    c <- changed oldNode newNode ;;
    if c then
      child <- render newNode ;;
      root' <- replaceChild root parent child index ;;
      Some (root', ops ++ [OpReplace parent child index])
    else
      tagName <- get_prop newNode "tagName" ;;
      if truthy tagName then
        forEach_children
          (fun newNode i s =>
             child <- childNodes_at (fst s) parent index ;;
             oldChild <- old_child oldNode i ;;
             diff child newNode oldChild i s)
          newNode s
      else Some s.

(** ** The observable module *)

(** A callback is a function value of the caller.  The model names it by
    a number and records each invocation with the arguments passed, in
    the order the invocations happen.  A callback that calls back into
    the container it listens to, or that throws, is outside the model.
    An operation that ends by throwing a [TypeError] of its own records
    [Throw] as its last event. *)
Inductive Call : Type :=
| Invoke (callback : nat) (args : list Val)
| Throw.

Definition Trace := list Call.

Definition is_throw (c : Call) : bool :=
  match c with
  | Throw => true
  | Invoke _ _ => false
  end.

(** The operation has thrown. *)
Definition throws (t : Trace) : bool := existsb is_throw t.

Section ForEachTrace.
Context {A : Type} (f : A -> Trace).

(** [xs.forEach(f)] for an [f] that calls back and may throw: in
    order, up to and including the first step that throws. *)
Fixpoint forEach_trace (xs : list A) : Trace :=
  match xs with
  | [] => []
  | x :: rest =>
      let t := f x in
      if throws t then t else t ++ forEach_trace rest
  end.
End ForEachTrace.

(** [callbacks.forEach(cb => cb(...args))] *)
Definition notify_all (callbacks : list nat) (args : list Val) : Trace :=
  map (fun cb => Invoke cb args) callbacks.

Module Observable.

(** The variables the closure captures: [item] and [listeners]. *)
Record t : Type := mk { item : Val; listeners : list nat }.

Definition Observable (item : Val) : t := mk item [].

Definition get (o : t) : Val := item o.

Definition set (newItem : Val) (o : t) : t * Trace :=
  if strict_eq (item o) newItem then (o, [])
  else
    let oldItem := item o in
    (mk newItem (listeners o), notify_all (listeners o) [newItem; oldItem]).

Definition onChange (callback : nat) (o : t) : t * Trace :=
  (mk (item o) (listeners o ++ [callback]), [Invoke callback [item o; item o]]).

End Observable.

(** A plain object held by reference. *)
Record JSObject : Type := mkObject { ref : nat; props : Props }.

Definition object_val (o : JSObject) : Val := VObj (ref o) (props o).

(** Defines the own property [k] with the value [v], as an object
    literal and a spread do for each of their properties: an existing
    key keeps its place. *)
Fixpoint assign (ps : Props) (k : string) (v : Val) : Props :=
  match ps with
  | [] => [(k, v)]
  | (k', v') :: rest =>
      if String.eqb k' k then (k', v) :: rest
      else (k', v') :: assign rest k v
  end.

(** [k in o] on own properties. *)
Definition has_key (ps : Props) (k : string) : bool :=
  existsb (String.eqb k) (map fst ps).

(** The assignment [o[k] = v] on a plain object.  It defines the own
    property, except under the name [__proto__] where the object has no
    such own property: there the setter of [Object.prototype] runs,
    which adds no property. *)
Definition put (ps : Props) (k : string) (v : Val) : Props :=
  if String.eqb k "__proto__" && negb (has_key ps k) then ps
  else assign ps k v.

(** The own enumerable properties a spread [...v] copies.  A spread
    takes them in the order of [Object.keys]; taking them in the order
    they were added gives the same object, up to the order in which its
    own properties were added among the array indices, which nothing
    observes. *)
Definition own_props (v : Val) : Props :=
  match v with
  | VObj _ ps => ps
  | VArr _ elems => combine (map string_of_nat (seq 0 (List.length elems))) elems
  | VStr s =>
      map (fun i => (string_of_nat i, char_at s i)) (seq 0 (String.length s))
  | _ => []
  end.

(** [...source] inside an object literal whose properties so far are
    [target]. *)
Definition spread (target : Props) (source : Val) : Props :=
  fold_left (fun acc kv => assign acc (fst kv) (snd kv)) (own_props source) target.

(** The value of the own property [k], [undefined] when there is
    none. *)
Definition prop (ps : Props) (k : string) : Val :=
  lookup_with (fun x => x) VUndefined k ps.

Module ObservableObject.

(** The variables the closure captures: the current snapshot [object]
    (a plain object), [listeners] and [subscribers], and the next free
    reference of the allocator, from which the object literals of
    [set], [push] and [remove] take their identity. *)
Record t : Type := mk {
  object : JSObject;
  listeners : list nat;
  subscribers : list (string * list nat);
  next_ref : nat
}.

(** The allocator hands out references that are not in use. *)
Definition fresh (o : t) : Prop := ref (object o) < next_ref o.

Definition ObservableObject (object : JSObject) : t :=
  mk object [] [] (S (ref object)).

(** The callbacks registered under [key]: the array that [subscribers]
    holds as its own property [key], none when it holds no such
    property. *)
Fixpoint subscribers_of (subs : list (string * list nat)) (key : string) : list nat :=
  match subs with
  | [] => []
  | (k, cbs) :: rest => if String.eqb k key then cbs else subscribers_of rest key
  end.

(** [subscribers] holds an array as its own property [key]. *)
Definition registered (subs : list (string * list nat)) (key : string) : bool :=
  existsb (fun kc => String.eqb (fst kc) key) subs.

(** [subscribers[key] || []] where that is an array.  [subscribers] is
    a plain object: under a name of [Object.prototype] that it does not
    hold itself it answers the inherited member, which is truthy and is
    no array, so that calling its [forEach], [push] or [filter] throws;
    [None] stands for that member. *)
Definition subscribers_or_empty (subs : list (string * list nat)) (key : string)
  : option (list nat) :=
  if registered subs key then Some (subscribers_of subs key)
  else if inherited key then None
  else Some [].

(** The body of [Object.keys(newObject).forEach(key => ...)]. *)
Definition notify_key (subs : list (string * list nat)) (newObject oldObject : JSObject)
  (key : string) : Trace :=
  let newValue := read (props newObject) key in
  let oldValue := read (props oldObject) key in
  if strict_eq oldValue newValue then []
  else
    match subscribers_or_empty subs key with
    | Some callbacks => notify_all callbacks [newValue; oldValue]
    | None => [Throw]
    end.

(** [notify(newObject)]; [object == newObject] on two objects compares
    their identity.  The snapshot is assigned before the subscribers are
    looked up, so it stays when the lookup throws; the listeners are
    then not reached. *)
Definition notify (newObject : JSObject) (o : t) : t * Trace :=
  if Nat.eqb (ref (object o)) (ref newObject) then (o, [])
  else
    let oldObject := object o in
    let calls :=
      forEach_trace (notify_key (subscribers o) newObject oldObject)
        (key_order (map fst (props newObject))) in
    (mk newObject (listeners o) (subscribers o) (Nat.max (next_ref o) (S (ref newObject))),
     if throws calls then calls
     else calls ++ notify_all (listeners o) [object_val newObject; object_val oldObject]).

(** The object literal [{ ...object, ...source }], allocated at the
    next free reference. *)
Definition merged (o : t) (source : Val) : JSObject :=
  mkObject (next_ref o) (spread (spread [] (object_val (object o))) source).

Definition get (o : t) : JSObject := object o.

Definition set (newObject : Val) (o : t) : t * Trace :=
  notify (merged o newObject) o.

(** [{ [key]: value }] is a fresh object too; its identity is never
    observed. *)
Definition push (key : string) (value : Val) (o : t) : t * Trace :=
  notify (merged o (VObj (S (next_ref o)) [(key, value)])) o.

Definition remove (key : string) (o : t) : t * Trace :=
  notify (merged o (VObj (S (next_ref o)) [(key, VUndefined)])) o.

Definition replace (newObject : JSObject) (o : t) : t * Trace :=
  notify newObject o.

Definition onChange (callback : nat) (o : t) : t * Trace :=
  (mk (object o) (listeners o ++ [callback]) (subscribers o) (next_ref o),
   [Invoke callback [object_val (object o); object_val (object o)]]).

(** [subscribers[key] = subscribers[key] || []; subscribers[key].push(callback)]
    where [subscribers[key] || []] is an array. *)
Fixpoint add_subscriber (subs : list (string * list nat)) (key : string) (callback : nat)
  : list (string * list nat) :=
  match subs with
  | [] => [(key, [callback])]
  | (k, cbs) :: rest =>
      if String.eqb k key then (k, cbs ++ [callback]) :: rest
      else (k, cbs) :: add_subscriber rest key callback
  end.

(** [subscribe(key, callback)].  Under an inherited name the first
    statement makes the inherited member an own property of
    [subscribers] and [push] throws; that property is not recorded, since
    every later lookup answers the same member as before. *)
Definition subscribe (key : string) (callback : nat) (o : t) : t * Trace :=
  match subscribers_or_empty (subscribers o) key with
  | Some _ =>
      (mk (object o) (listeners o) (add_subscriber (subscribers o) key callback)
          (next_ref o),
       [Invoke callback [read (props (object o)) key; read (props (object o)) key]])
  | None => (o, [Throw])
  end.

End ObservableObject.

Module ObservableList.

(** The backing array [list], which the caller supplies and the
    container mutates in place, and the three groups of listeners. *)
Record t : Type := mk {
  list : Datatypes.list Val;
  addListeners : Datatypes.list nat;
  removeListeners : Datatypes.list nat;
  replaceListeners : Datatypes.list nat
}.

Definition ObservableList (list : Datatypes.list Val) : t := mk list [] [] [].

Definition onAdd (listener : nat) (o : t) : t :=
  mk (list o) (addListeners o ++ [listener]) (removeListeners o) (replaceListeners o).

Definition onRemove (listener : nat) (o : t) : t :=
  mk (list o) (addListeners o) (removeListeners o ++ [listener]) (replaceListeners o).

Definition onReplace (listener : nat) (o : t) : t :=
  mk (list o) (addListeners o) (removeListeners o) (replaceListeners o ++ [listener]).

(** [xs.indexOf(item)]: the first index whose element is [===] to
    [item]; [None] stands for [-1]. *)
Fixpoint index_of (xs : Datatypes.list Val) (item : Val) : option nat :=
  match xs with
  | [] => None
  | x :: rest =>
      if strict_eq x item then Some 0
      else match index_of rest item with
           | Some i => Some (S i)
           | None => None
           end
  end.

Definition add (item : Val) (o : t) : t * Trace :=
  (mk (list o ++ [item]) (addListeners o) (removeListeners o) (replaceListeners o),
   notify_all (addListeners o) [item]).

Definition remove (item : Val) (o : t) : t * Trace :=
  let list' :=
    match index_of (list o) item with
    | Some i => remove_nth i (list o)
    | None => list o
    end in
  (mk list' (addListeners o) (removeListeners o) (replaceListeners o),
   notify_all (removeListeners o) [item]).

Definition replace (item newItem : Val) (o : t) : t * Trace :=
  let list' :=
    match index_of (list o) item with
    | Some i => set_nth i newItem (list o)
    | None => list o
    end in
  (mk list' (addListeners o) (removeListeners o) (replaceListeners o),
   notify_all (replaceListeners o) [newItem; item]).

Definition count (o : t) : nat := List.length (list o).

Definition countIf (pred : Val -> bool) (o : t) : nat :=
  fold_left (fun sum item => if pred item then sum + 1 else sum) (list o) 0.

Definition indexOf (item : Val) (o : t) : option nat := index_of (list o) item.

Definition get (index : nat) (o : t) : Val := nth index (list o) VUndefined.

Definition getAll (o : t) : Datatypes.list Val := list o.

End ObservableList.

(** * Vocabulary of the properties *)

(** The own property stored under a key, if any. *)
Definition find_prop (k : string) (ps : Props) : option Val :=
  lookup_with Some None k ps.

(** The elements of [node.children]. *)
Definition children_of (node : Val) : list Val :=
  match get_prop node "children" with
  | Some (VArr _ elems) => elems
  | _ => []
  end.

(** What the specification asks of [children]: flattened by one level
    and without [null] and [undefined]. *)
Definition flattened_pruned (nodes : list Val) : list Val :=
  filter (fun c => negb (nullish c)) (concat_spread nodes).

Definition is_array (v : Val) : bool :=
  match v with
  | VArr _ _ => true
  | _ => false
  end.

(** A node representation as the data model has it: a string or a
    number (a text node), or an object whose [tagName] is a string, whose
    [attributes] are a plain object and whose [children] are an array of
    node representations. *)
Fixpoint is_NodeRep (v : Val) : bool :=
  match v with
  | VStr _ | VNum _ | VNaN => true
  | VObj _ ps =>
      match find_prop "tagName" ps, find_prop "attributes" ps with
      | Some (VStr _), Some (VObj _ _) =>
          lookup_with
            (fun children =>
               match children with
               | VArr _ elems => forallb is_NodeRep elems
               | _ => false
               end)
            false "children" ps
      | _, _ => false
      end
  | _ => false
  end.

(** No [NaN] occurs in the value, neither as the value itself nor
    inside its properties or elements. *)
Fixpoint NaN_free (v : Val) : bool :=
  match v with
  | VNaN => false
  | VObj _ ps => forallb (fun kv => NaN_free (snd kv)) ps
  | VArr _ elems => forallb NaN_free elems
  | _ => true
  end.

Section ValInduction.
Variable P : Val -> Prop.
Hypothesis P_undefined : P VUndefined.
Hypothesis P_null : P VNull.
Hypothesis P_bool : forall b, P (VBool b).
Hypothesis P_num : forall n, P (VNum n).
Hypothesis P_nan : P VNaN.
Hypothesis P_str : forall s, P (VStr s).
Hypothesis P_fun : forall r source, P (VFun r source).
Hypothesis P_builtin : forall b, P (VBuiltin b).
Hypothesis P_obj : forall r ps, Forall (fun kv => P (snd kv)) ps -> P (VObj r ps).
Hypothesis P_arr : forall r elems, Forall P elems -> P (VArr r elems).

(** Induction on values that reaches into property lists and
    arrays. *)
Fixpoint Val_nested_ind (v : Val) : P v :=
  match v with
  | VUndefined => P_undefined
  | VNull => P_null
  | VBool b => P_bool b
  | VNum n => P_num n
  | VNaN => P_nan
  | VStr s => P_str s
  | VFun r source => P_fun r source
  | VBuiltin b => P_builtin b
  | VObj r ps =>
      P_obj r ps
        ((fix props_ind (ps : list (string * Val)) : Forall (fun kv => P (snd kv)) ps :=
            match ps with
            | [] => Forall_nil _
            | kv :: rest => Forall_cons kv (Val_nested_ind (snd kv)) (props_ind rest)
            end) ps)
  | VArr r elems =>
      P_arr r elems
        ((fix elems_ind (es : list Val) : Forall P es :=
            match es with
            | [] => Forall_nil _
            | e :: rest => Forall_cons e (Val_nested_ind e) (elems_ind rest)
            end) elems)
  end.
End ValInduction.

Definition is_digit (c : ascii) : bool :=
  existsb (Ascii.eqb c) ["0"; "1"; "2"; "3"; "4"; "5"; "6"; "7"; "8"; "9"]%char.

(** Puts [d] where the reference [path] points. *)
Definition replace_at (root : Dom) (path : NodeRef) (d : Dom) : option Dom :=
  update root path (fun _ => Some d).

Definition is_remove (op : DomOp) : bool :=
  match op with
  | OpRemove _ _ => true
  | _ => false
  end.

(** [diff] of the node representation [e] against any old node
    representation whose rendering is the live child at [index]: it
    succeeds, removes nothing, replaces that one child only and, when
    the two nodes are not [changed], keeps the grandchildren past the
    children of [e]. *)
Definition diff_local (e : Val) : Prop :=
  forall (old : Val) (root : Dom) (q : NodeRef) (i : nat) (ops : list DomOp) (d : Dom),
    is_NodeRep old = true ->
    render old = Some d ->
    lookup root (q ++ [i]) = Some d ->
    exists root' d' log,
      diff q e old i (root, ops) = Some (root', ops ++ log)
      /\ replace_at root (q ++ [i]) d' = Some root'
      /\ Forall (fun op => is_remove op = false) log
      /\ (changed old e = Some false ->
          forall j, List.length (children_of e) <= j -> lookup d' [j] = lookup d [j]).

Definition list_eqb {A : Type} (eqb : A -> A -> bool) : list A -> list A -> bool :=
  fix go xs ys :=
    match xs, ys with
    | [], [] => true
    | x :: xs', y :: ys' => eqb x y && go xs' ys'
    | _, _ => false
    end.

(** Shallow equality of two snapshots: the same keys, each with a value
    that is [===] in both. *)
Definition shallow_equal (a b : Props) : bool :=
  list_eqb String.eqb (map fst a) (map fst b)
  && forallb (fun k => strict_eq (prop a k) (prop b k)) (map fst a).

(** The calls a sequence of operations makes, the operations run from
    left to right on [o] as the statements of a script: an operation that
    throws ends it. *)
Fixpoint run (ops : list (ObservableObject.t -> ObservableObject.t * Trace))
  (o : ObservableObject.t) : ObservableObject.t * Trace :=
  match ops with
  | [] => (o, [])
  | op :: rest =>
      let '(o1, t1) := op o in
      if throws t1 then (o1, t1)
      else
        let '(o2, t2) := run rest o1 in
        (o2, t1 ++ t2)
  end.

(** * Further parts of the modules *)

(** An object holds each of its keys once. *)
Definition unique_keys (ps : Props) : Prop := NoDup (map fst ps).

Module Bundled.

(** [Object.assign({}, source)]: the own properties of [source] are
    assigned one by one. *)
Definition Object_assign (source : Val) : Props :=
  fold_left (fun acc kv => put acc (fst kv) (snd kv)) (own_props source) [].

(** The [replace] of the copy of [ObservableObject] that the test bundle
    carries: every key of the snapshot is reset to [undefined] in a copy
    ([Object.assign({}, object)], allocated first) before the new object
    is spread over it. *)
Definition emptyObject (o : ObservableObject.t) : Props :=
  let copy := Object_assign (object_val (ObservableObject.object o)) in
  fold_left (fun acc key => put acc key VUndefined) (key_order (map fst copy)) copy.

Definition replace (newObject : Val) (o : ObservableObject.t)
  : ObservableObject.t * Trace :=
  ObservableObject.notify
    (mkObject (S (ObservableObject.next_ref o))
       (spread (spread [] (VObj (ObservableObject.next_ref o) (emptyObject o)))
          newObject))
    o.

End Bundled.

Module EventManager.

(** The variable the closure captures: [subscribers], the callbacks
    registered under each name. *)
Record t : Type := mk { subscribers : list (string * list nat) }.

Definition EventManager : t := mk [].

(** [subscribers[name] = callbacks] *)
Fixpoint set_subscribers (subs : list (string * list nat)) (name : string)
  (callbacks : list nat) : list (string * list nat) :=
  match subs with
  | [] => [(name, callbacks)]
  | (k, cbs) :: rest =>
      if String.eqb k name then (k, callbacks) :: rest
      else (k, cbs) :: set_subscribers rest name callbacks
  end.

(** [publish(name, data)].  [subscribers] is a plain object here too:
    under a name of [Object.prototype] that it does not hold itself,
    [subscribers[name] || []] is the inherited member and the call of its
    [forEach] throws. *)
Definition publish (name : string) (data : Val) (m : t) : Trace :=
  match ObservableObject.subscribers_or_empty (subscribers m) name with
  | Some callbacks => notify_all callbacks [data]
  | None => [Throw]
  end.

(** [subscribe(name, subscriber)]; under such a name [push] throws. *)
Definition subscribe (name : string) (subscriber : nat) (m : t) : t * Trace :=
  match ObservableObject.subscribers_or_empty (subscribers m) name with
  | Some _ => (mk (ObservableObject.add_subscriber (subscribers m) name subscriber), [])
  | None => (m, [Throw])
  end.

(** [unsubscribe(name, subscriber)]; [s !== subscriber] on two callbacks
    compares their identity.  Under such a name [filter] throws before
    anything is assigned. *)
Definition unsubscribe (name : string) (subscriber : nat) (m : t) : t * Trace :=
  match ObservableObject.subscribers_or_empty (subscribers m) name with
  | Some callbacks =>
      (mk (set_subscribers (subscribers m) name
             (filter (fun s => negb (Nat.eqb s subscriber)) callbacks)), [])
  | None => (m, [Throw])
  end.

End EventManager.

Module Controller.

(** The getter [model] of the class [Controller]:
    [{ ...store.get(), ...this.state.get() }]. *)
Definition model (store state : ObservableObject.t) : Props :=
  spread (spread [] (object_val (ObservableObject.get store)))
    (object_val (ObservableObject.get state)).

End Controller.

(** [typeof v === 'function'] *)
Definition is_function (v : Val) : bool := String.eqb (typeof v) "function".

(** [typeof v === 'string' || typeof v === 'number'] *)
Definition is_text (v : Val) : bool :=
  String.eqb (typeof v) "string" || String.eqb (typeof v) "number".

(** The own properties of an object in the order [Object.keys] lists
    their keys. *)
Definition own_entries (ps : Props) : Props :=
  map (fun k => (k, prop ps k)) (key_order (map fst ps)).

(** The attributes an attribute object leaves on a new element: its
    properties that are neither [null], [undefined] nor functions, as
    text, in the order of [Object.keys]. *)
Definition rendered_attributes (attrs : Props) : list (string * string) :=
  map (fun kv => (fst kv, String_of (snd kv)))
    (filter (fun kv => negb (nullish (snd kv)) && negb (is_function (snd kv)))
       (own_entries attrs)).

(** The event listeners it leaves: its properties that are functions. *)
Definition rendered_listeners (attrs : Props) : list (string * Val) :=
  filter (fun kv => is_function (snd kv)) (own_entries attrs).

Section AllPairs.
Context {A B : Type} (f : A -> B -> bool).

(** [f] holds of the elements at the same positions of two lists, as
    far as both reach. *)
Fixpoint all_pairs (xs : list A) (ys : list B) : bool :=
  match xs, ys with
  | x :: xs', y :: ys' => f x y && all_pairs xs' ys'
  | _, _ => true
  end.
End AllPairs.

(** Two values are the same value: the same primitive, or reference
    values of the same identity and content. *)
Fixpoint Val_eqb (a b : Val) : bool :=
  match a, b with
  | VUndefined, VUndefined => true
  | VNull, VNull => true
  | VBool x, VBool y => Bool.eqb x y
  | VNum x, VNum y => Z.eqb x y
  | VNaN, VNaN => true
  | VStr x, VStr y => String.eqb x y
  | VFun r s, VFun r' s' => Nat.eqb r r' && String.eqb s s'
  | VBuiltin x, VBuiltin y => Builtin_eqb x y
  | VObj r ps, VObj r' ps' =>
      Nat.eqb r r'
      && list_eqb (fun kv kv' => String.eqb (fst kv) (fst kv') && Val_eqb (snd kv) (snd kv'))
           ps ps'
  | VArr r es, VArr r' es' => Nat.eqb r r' && list_eqb Val_eqb es es'
  | _, _ => false
  end.

(** Two objects have the same properties in the same order. *)
Definition props_eqb (ps ps' : Props) : bool :=
  list_eqb (fun kv kv' => String.eqb (fst kv) (fst kv') && Val_eqb (snd kv) (snd kv'))
    ps ps'.

(** An update [diff] can carry out in place.  Where [changed] answers
    true the live node is replaced as a whole and nothing more is asked.
    Where it answers false the two nodes are texts, or elements of the
    same non-empty tag name and with the same attribute properties, the
    new one with at least as many children as the old one, and the
    children at the same positions are again such a pair. *)
Fixpoint patchable (newNode oldNode : Val) : bool :=
  match changed oldNode newNode with
  | Some true => true
  | Some false =>
      is_text newNode
      || match newNode, oldNode with
         | VObj _ ps, VObj _ ps' =>
             match find_prop "tagName" ps, find_prop "tagName" ps',
                   find_prop "attributes" ps, find_prop "attributes" ps' with
             | Some (VStr t), Some (VStr t'), Some (VObj _ attrs), Some (VObj _ attrs') =>
                 String.eqb t t' && negb (String.eqb t "") && props_eqb attrs attrs'
                 && lookup_with
                      (fun children =>
                         match children with
                         | VArr _ elems =>
                             Nat.leb (List.length (children_of oldNode)) (List.length elems)
                             && all_pairs patchable elems (children_of oldNode)
                         | _ => false
                         end)
                      false "children" ps
             | _, _, _, _ => false
             end
         | _, _ => false
         end
  | None => false
  end.

(** What [diff] is shown to do for a pair of nodes. *)
Definition patches (newNode oldNode : Val) : Prop :=
  forall (root : Dom) (q : NodeRef) (i : nat) (ops : list DomOp) (d : Dom),
    render oldNode = Some d ->
    lookup root (q ++ [i]) = Some d ->
    exists root' child log,
      render newNode = Some child
      /\ diff q newNode oldNode i (root, ops) = Some (root', ops ++ log)
      /\ replace_at root (q ++ [i]) child = Some root'.

(** *** toVNode *)

(** [toVNode] comes with its own copies of [vNode] and [render].  The
    [vNode] is the same text; the [render] calls
    [createElement(node.tagName, node.attributes)('')], which sets no
    content for [''] and then treats the attributes as
    [createDomElement] does, so [vNode] and [render] above stand for
    them. *)

Definition is_element (d : Dom) : bool :=
  match d with
  | Element _ _ _ _ => true
  | Text _ => false
  end.

(** [$node.textContent] *)
Fixpoint textContent (d : Dom) : string :=
  match d with
  | Text data => data
  | Element _ _ _ cs => String.concat "" (map textContent cs)
  end.

Section MapElements.
Context (f : Dom -> nat -> option (Val * nat)).

(** [Array.from($node.children).map(f)]: [children] holds the child
    nodes that are elements, in order.  [f] takes and returns the next
    free reference of the allocator. *)
Fixpoint map_elements (cs : list Dom) (r : nat) : option (list Val * nat) :=
  match cs with
  | [] => Some ([], r)
  | c :: rest =>
      if is_element c then
        vr <- f c r ;;
        vsr <- map_elements rest (snd vr) ;;
        Some (fst vr :: fst vsr, snd vsr)
      else map_elements rest r
  end.
End MapElements.

(** The object the [reduce] over [$node.attributes] builds. *)
Definition attributes_object (attrs : list (string * string)) : Props :=
  fold_left (fun attributes attribute =>
               put attributes (fst attribute) (VStr (snd attribute)))
    attrs [].

(** [toVNode($node)], with the next free reference [r] of the allocator
    taken and returned: the attribute object is allocated first, then
    the arrays of [Array.from] and of [map], then what the calls for the
    children allocate, then the node.  A text node has no [attributes],
    of which [Object.values] throws.  The tag name is the one the
    element carries (the host reports it in upper case for HTML). *)
Fixpoint toVNode (node : Dom) (r : nat) : option (Val * nat) :=
  match node with
  | Text _ => None
  | Element tagName attrs _ cs =>
      let attributes := VObj r (attributes_object attrs) in
      if existsb is_element cs then
        vsr <- map_elements toVNode cs (r + 3) ;;
        Some (vNode (snd vsr) (VStr tagName) attributes [VArr (r + 2) (fst vsr)],
              snd vsr + 3)
      else
        Some (vNode (r + 1) (VStr tagName) attributes [VStr (textContent node)], r + 4)
  end.

Fixpoint distinct (ks : list string) : bool :=
  match ks with
  | [] => true
  | k :: rest => negb (existsb (String.eqb k) rest) && distinct rest
  end.

(** An attribute name that an attribute object gives back in its
    place: [toVNode] loses the name [__proto__], which its assignment
    hands to the setter of [Object.prototype], and [Object.keys] moves
    the names that are array indices to the front. *)
Definition plain_name (k : string) : bool :=
  negb (is_array_index k) && negb (String.eqb k "__proto__").

(** The live trees [toVNode] and [render] take to each other: elements
    without listeners and with distinct, plain attribute names, each
    with one text node as its only child or with elements of that kind,
    at least one, as its children. *)
Fixpoint simple (d : Dom) : bool :=
  match d with
  | Text _ => false
  | Element _ attrs ls cs =>
      match ls with [] => true | _ => false end
      && distinct (map fst attrs)
      && forallb plain_name (map fst attrs)
      && match cs with
         | [] => false
         | [Text _] => true
         | _ => forallb simple cs
         end
  end.

Section DomInduction.
Variable P : Dom -> Prop.
Hypothesis P_text : forall data, P (Text data).
Hypothesis P_element : forall t a l cs, Forall P cs -> P (Element t a l cs).

(** Induction on live trees that reaches into the child nodes. *)
Fixpoint Dom_nested_ind (d : Dom) : P d :=
  match d with
  | Text data => P_text data
  | Element t a l cs =>
      P_element t a l cs
        ((fix children_ind (cs : list Dom) : Forall P cs :=
            match cs with
            | [] => Forall_nil _
            | c :: rest => Forall_cons c (Dom_nested_ind c) (children_ind rest)
            end) cs)
  end.
End DomInduction.

(** *** mountMVC *)

(** [$parent.prepend(child)] *)
Definition prepend (root : Dom) (parent : NodeRef) (child : Dom) : option Dom :=
  update root parent
    (fun p => match p with
              | Element t a l cs => Some (Element t a l (child :: cs))
              | Text _ => None
              end).

Module MountMVC.

(** What the closure of [mountMVC] holds after the first rendering: the
    variable [vDom], and the live tree whose root is [$root]. *)
Record t : Type := mk { vDom : Val; root : Dom }.

Section View.
(** The node [view(controller(model, refresh))] as a function of the
    model. *)
Variable view : Val -> Val.

(** The body of [mountMVC($root, model, view, controller, diffing)] up
    to the declaration of [refresh]. *)
Definition mountMVC (root : Dom) (model : Val) : option t :=
  let vDom := view model in
  child <- render vDom ;;
  root' <- prepend root [] child ;;
  Some (mk vDom root').

(** [refresh(model)] *)
Definition refresh (diffing : bool) (model : Val) (app : t) : option t :=
  let newVDom := view model in
  root' <-
    (if diffing then
       s <- diff [] newVDom (vDom app) 0 (root app, []) ;;
       Some (fst s)
     else
       child <- render newVDom ;;
       replaceChild (root app) [] child 0) ;;
  Some (mk newVDom root').
End View.

End MountMVC.

(** * Properties *)

(** ** Values *)

Lemma Builtin_eqb_refl (b : Builtin) : Builtin_eqb b b = true.
Proof. destruct b; simpl; auto using String.eqb_refl. Qed.

(** Every value but [NaN] is [===] to itself. *)
Lemma strict_eq_refl (v : Val) : v <> VNaN -> strict_eq v v = true.
Proof.
  destruct v; simpl; intros H;
    auto using Nat.eqb_refl, Z.eqb_refl, String.eqb_refl, Builtin_eqb_refl,
      Bool.eqb_reflx.
Qed.

Lemma strict_eq_irrefl (v : Val) : strict_eq v v = false -> v = VNaN.
Proof.
  destruct v; auto; intros H; rewrite strict_eq_refl in H; discriminate.
Qed.

Lemma strict_eq_self (v : Val) : strict_eq v v = true -> v <> VNaN.
Proof. intros H ->. discriminate H. Qed.

(** Nothing is [===] to a value that is not [===] to itself. *)
Lemma strict_eq_NaN (x v : Val) : strict_eq v v = false -> strict_eq x v = false.
Proof. intros H. apply strict_eq_irrefl in H as ->. now destruct x. Qed.

Lemma strict_neq_refl (v : Val) : v <> VNaN -> strict_neq v v = false.
Proof. intros H. unfold strict_neq. now rewrite strict_eq_refl. Qed.

Lemma inherited_read (ps : Props) (k : string) :
  inherited k = false -> read ps k = prop ps k.
Proof. intros H. unfold read, prop. now rewrite H. Qed.

Lemma has_key_read (ps : Props) (k : string) :
  has_key ps k = true -> read ps k = prop ps k.
Proof.
  unfold read, prop, has_key.
  induction ps as [|[k' v] ps IH]; simpl; [discriminate|].
  rewrite (String.eqb_sym k k').
  destruct (String.eqb k' k); auto.
Qed.

(** ** Observable *)

Lemma Observable_onChange_registers_last (callback : nat) (o : Observable.t) :
  Observable.listeners (fst (Observable.onChange callback o))
  = Observable.listeners o ++ [callback].
Proof. reflexivity. Qed.

(** C4.  On an [Observable] whose value is [x], [set(x')] with
    [x === x'] calls no listener and leaves the container as it was;
    [set(y)] with [x !== y] makes [y] the value and then calls each
    registered listener once, with [(y, x)], in the order of
    registration. *)
Theorem Observable_set_spec (o : Observable.t) (y : Val) :
  (strict_eq (Observable.item o) y = true ->
     Observable.set y o = (o, [])) /\
  (strict_eq (Observable.item o) y = false ->
     Observable.get (fst (Observable.set y o)) = y /\
     Observable.listeners (fst (Observable.set y o)) = Observable.listeners o /\
     snd (Observable.set y o)
     = map (fun listener => Invoke listener [y; Observable.item o])
           (Observable.listeners o)).
Proof.
  unfold Observable.set; split; intros E; rewrite E; simpl; auto.
Qed.

Lemma Observable_set_spec_witness :
  Observable.set (VStr "Puerro") (Observable.mk (VStr "Puerro") [1; 2])
  = (Observable.mk (VStr "Puerro") [1; 2], [])
  /\ snd (Observable.set (VStr "Huerto") (Observable.mk (VStr "Puerro") [1; 2]))
     = [Invoke 1 [VStr "Huerto"; VStr "Puerro"];
        Invoke 2 [VStr "Huerto"; VStr "Puerro"]].
Proof.
  split.
  - apply (proj1 (Observable_set_spec (Observable.mk (VStr "Puerro") [1; 2])
                    (VStr "Puerro"))).
    reflexivity.
  - apply (proj2 (Observable_set_spec (Observable.mk (VStr "Puerro") [1; 2])
                    (VStr "Huerto"))).
    reflexivity.
Defined.

(** ** ObservableList *)

Lemma length_remove_nth {A : Type} (i : nat) (xs : list A) :
  i < List.length xs -> List.length (remove_nth i xs) = pred (List.length xs).
Proof.
  revert i; induction xs as [|x xs IH]; intros [|i] H; simpl in *; try lia.
  rewrite IH by lia. destruct xs; simpl in *; lia.
Qed.

Lemma remove_nth_last {A : Type} (xs : list A) (x : A) :
  remove_nth (List.length xs) (xs ++ [x]) = xs.
Proof. induction xs; simpl; congruence. Qed.

Lemma remove_nth_app {A : Type} (i : nat) (xs ys : list A) :
  i < List.length xs -> remove_nth i (xs ++ ys) = remove_nth i xs ++ ys.
Proof.
  revert i; induction xs as [|x xs IH]; intros [|i] H; simpl in *; try lia; auto.
  now rewrite IH by lia.
Qed.

Lemma index_of_bound (xs : list Val) (item : Val) (i : nat) :
  ObservableList.index_of xs item = Some i -> i < List.length xs.
Proof.
  revert i; induction xs as [|x xs IH]; simpl; intros i H; [discriminate|].
  destruct (strict_eq x item); [injection H as <-; lia|].
  destruct (ObservableList.index_of xs item); [|discriminate].
  injection H as <-. specialize (IH _ eq_refl). lia.
Qed.

Lemma index_of_app_found (xs ys : list Val) (item : Val) (i : nat) :
  ObservableList.index_of xs item = Some i ->
  ObservableList.index_of (xs ++ ys) item = Some i.
Proof.
  revert i; induction xs as [|x xs IH]; simpl; intros i H; [discriminate|].
  destruct (strict_eq x item); auto.
  destruct (ObservableList.index_of xs item); [|discriminate].
  now rewrite (IH _ eq_refl).
Qed.

Lemma index_of_pushed (xs : list Val) (item : Val) :
  strict_eq item item = true ->
  ObservableList.index_of xs item = None ->
  ObservableList.index_of (xs ++ [item]) item = Some (List.length xs).
Proof.
  intros E. induction xs as [|x xs IH]; simpl; intros H.
  - now rewrite E.
  - destruct (strict_eq x item); [discriminate|].
    destruct (ObservableList.index_of xs item); [discriminate|].
    now rewrite IH.
Qed.

(** [indexOf] never finds a value that is not [===] to itself. *)
Lemma index_of_NaN (xs : list Val) (item : Val) :
  strict_eq item item = false -> ObservableList.index_of xs item = None.
Proof.
  intros E. induction xs as [|x xs IH]; simpl; auto.
  now rewrite (strict_eq_NaN x item E), IH.
Qed.

(** What [add(item)] followed by [remove(item)] leaves in the backing
    array. *)
Lemma add_remove_list (o : ObservableList.t) (item : Val) :
  strict_eq item item = true ->
  ObservableList.list (fst (ObservableList.remove item (fst (ObservableList.add item o))))
  = match ObservableList.index_of (ObservableList.list o) item with
    | None => ObservableList.list o
    | Some i => remove_nth i (ObservableList.list o) ++ [item]
    end.
Proof.
  intros S. unfold ObservableList.remove, ObservableList.add; simpl.
  destruct (ObservableList.index_of (ObservableList.list o) item) as [i|] eqn:E.
  - rewrite (index_of_app_found _ [item] _ _ E).
    apply remove_nth_app. eapply index_of_bound; eauto.
  - rewrite (index_of_pushed _ _ S E). apply remove_nth_last.
Qed.

(** The claim C8 as it is stated fails when the item is already in the
    array: [remove] deletes its first occurrence, not the added one. *)
Lemma ObservableList_add_remove_counterexample :
  ~ (forall (o : ObservableList.t) (item : Val),
       let added := ObservableList.add item o in
       let removed := ObservableList.remove item (fst added) in
       ObservableList.count (fst removed) = ObservableList.count o
       /\ ObservableList.list (fst removed) = ObservableList.list o
       /\ snd added
          = map (fun listener => Invoke listener [item]) (ObservableList.addListeners o)
       /\ snd removed
          = map (fun listener => Invoke listener [item])
                (ObservableList.removeListeners o)).
Proof.
  intros H.
  destruct (H (ObservableList.ObservableList [VNum 1; VNum 2]) (VNum 1))
    as (_ & L & _).
  discriminate L.
Qed.

(** C8, amended.  After [add(item)] and then [remove(item)] every
    [onAdd] listener and every [onRemove] listener has been called once
    with the item.  For an item that is [===] to itself, [count()] is
    what it was, and the backing array is what it was when the item did
    not occur in it; when it did occur, its first occurrence is gone and
    the added one is last.  For [NaN], which [indexOf] never finds,
    [remove] takes nothing out: the added item stays and [count()] is one
    more than it was. *)
Theorem ObservableList_add_remove (o : ObservableList.t) (item : Val) :
  let added := ObservableList.add item o in
  let removed := ObservableList.remove item (fst added) in
  snd added = map (fun listener => Invoke listener [item]) (ObservableList.addListeners o)
  /\ snd removed
     = map (fun listener => Invoke listener [item]) (ObservableList.removeListeners o)
  /\ (strict_eq item item = true ->
      ObservableList.count (fst removed) = ObservableList.count o
      /\ ObservableList.list (fst removed)
         = match ObservableList.indexOf item o with
           | None => ObservableList.list o
           | Some i => remove_nth i (ObservableList.list o) ++ [item]
           end)
  /\ (strict_eq item item = false ->
      ObservableList.count (fst removed) = S (ObservableList.count o)
      /\ ObservableList.list (fst removed) = ObservableList.list o ++ [item]).
Proof.
  intros added removed. split; [reflexivity|]. split; [reflexivity|]. split.
  - intros S. assert (L := add_remove_list o item S). fold added removed in L.
    split; auto.
    unfold ObservableList.count, ObservableList.indexOf. rewrite L.
    destruct (ObservableList.index_of (ObservableList.list o) item) as [i|] eqn:E; auto.
    apply index_of_bound in E.
    rewrite length_app, length_remove_nth by auto. simpl. lia.
  - intros S.
    assert (L : ObservableList.list (fst removed) = ObservableList.list o ++ [item]).
    { unfold removed, added, ObservableList.remove, ObservableList.add. simpl.
      now rewrite (index_of_NaN _ _ S). }
    split; auto. unfold ObservableList.count. rewrite L, length_app. simpl. lia.
Qed.

Lemma ObservableList_add_remove_witness :
  let o := ObservableList.mk [VNum 1; VNum 2] [4] [5] [] in
  (ObservableList.count
     (fst (ObservableList.remove (VNum 1) (fst (ObservableList.add (VNum 1) o))))
   = ObservableList.count o
   /\ ObservableList.list
        (fst (ObservableList.remove (VNum 1) (fst (ObservableList.add (VNum 1) o))))
      = [VNum 2; VNum 1])
  /\ ObservableList.count
       (fst (ObservableList.remove VNaN (fst (ObservableList.add VNaN o))))
     = S (ObservableList.count o).
Proof.
  intros o. split.
  - apply (proj1 (proj2 (proj2 (ObservableList_add_remove o (VNum 1))))). reflexivity.
  - apply (proj2 (proj2 (proj2 (ObservableList_add_remove o VNaN)))). reflexivity.
Defined.

(** ** ObservableObject *)

Lemma list_eqb_string_eq (xs ys : list string) :
  list_eqb String.eqb xs ys = true -> xs = ys.
Proof.
  revert ys; induction xs as [|x xs IH]; intros [|y ys]; simpl; try discriminate; auto.
  intros H. apply andb_true_iff in H as [H1 H2].
  apply String.eqb_eq in H1. f_equal; auto.
Qed.

Lemma notify_unguarded (newObject : JSObject) (o : ObservableObject.t) :
  ref (ObservableObject.object o) <> ref newObject ->
  ObservableObject.notify newObject o
  = (ObservableObject.mk newObject (ObservableObject.listeners o)
       (ObservableObject.subscribers o)
       (Nat.max (ObservableObject.next_ref o) (S (ref newObject))),
     let calls :=
       forEach_trace
         (ObservableObject.notify_key (ObservableObject.subscribers o) newObject
            (ObservableObject.object o))
         (key_order (map fst (props newObject))) in
     if throws calls then calls
     else calls ++ notify_all (ObservableObject.listeners o)
                     [object_val newObject; object_val (ObservableObject.object o)]).
Proof.
  intros H. unfold ObservableObject.notify.
  now apply Nat.eqb_neq in H as ->.
Qed.

Lemma forEach_trace_nil {A : Type} (f : A -> Trace) (xs : list A) :
  (forall x, In x xs -> f x = []) -> forEach_trace f xs = [].
Proof.
  induction xs as [|x xs IH]; simpl; intros H; auto.
  rewrite (H x), IH; auto.
Qed.

Lemma forEach_trace_ext {A : Type} (f g : A -> Trace) (xs : list A) :
  (forall x, In x xs -> f x = g x) -> forEach_trace f xs = forEach_trace g xs.
Proof.
  induction xs as [|x xs IH]; simpl; intros H; auto.
  rewrite (H x), IH; auto.
Qed.

Lemma throws_app (t u : Trace) : throws (t ++ u) = throws t || throws u.
Proof. apply existsb_app. Qed.

Lemma throws_notify_all (callbacks : list nat) (args : list Val) :
  throws (notify_all callbacks args) = false.
Proof. induction callbacks; simpl; auto. Qed.

(** A [forEach] throws exactly when one of its steps does. *)
Lemma throws_forEach_trace {A : Type} (f : A -> Trace) (xs : list A) :
  throws (forEach_trace f xs) = existsb (fun x => throws (f x)) xs.
Proof.
  induction xs as [|x xs IH]; simpl; auto.
  destruct (throws (f x)) eqn:E; simpl; [exact E|].
  now rewrite throws_app, E, IH.
Qed.

Lemma In_insert_index (n : N) (k x : string) (ks : list string) :
  In x (insert_index n k ks) <-> x = k \/ In x ks.
Proof.
  induction ks as [|k' ks IH]; simpl.
  - intuition.
  - destruct (array_index k') as [n'|]; [destruct (N.leb n n')|]; simpl;
      rewrite ?IH; intuition.
Qed.

(** [Object.keys] lists the keys the object has. *)
Lemma In_key_order (ks : list string) (x : string) :
  In x (key_order ks) <-> In x ks.
Proof.
  unfold key_order, is_array_index. rewrite in_app_iff, filter_In.
  induction ks as [|k ks IH]; simpl; [tauto|].
  destruct (array_index k) as [n|] eqn:E.
  - rewrite In_insert_index. split.
    + intuition (subst; auto).
    + intros [->|H]; [now left; left|]. apply IH in H. intuition.
  - split.
    + intuition (subst; auto).
    + intros [->|H]; [right; rewrite E; auto|]. apply IH in H. intuition.
Qed.

Lemma In_has_key (ps : Props) (k : string) :
  In k (map fst ps) -> has_key ps k = true.
Proof.
  intros H. unfold has_key. apply existsb_exists. exists k.
  split; auto using String.eqb_refl.
Qed.

(** The claim C2 as it is stated fails: a [set] that changes nothing
    still calls the whole-object listeners. *)
Lemma ObservableObject_set_counterexample :
  ~ (forall (o : ObservableObject.t) (p : Val),
       ObservableObject.fresh o ->
       shallow_equal (props (ObservableObject.object o))
                     (props (ObservableObject.merged o p)) = true ->
       snd (ObservableObject.set p o) = []).
Proof.
  intros H.
  specialize (H (ObservableObject.mk (mkObject 0 [("value", VNum 1)]) [7] [] 1)
                (VObj 1 [("value", VNum 1)])).
  unfold ObservableObject.fresh in H; simpl in H.
  specialize (H (Nat.lt_succ_diag_r 0) eq_refl).
  discriminate H.
Qed.

(** C2, amended.  [set(p)] on a snapshot [s] always makes the new
    object [{...s, ...p}] the snapshot.  It then goes through the keys
    of the new snapshot in the order of [Object.keys]; for a key whose
    value changed ([s[key] !== s'[key]]) it calls the subscribers of the
    key with the new and the old value, and it throws when such a key is
    a name of [Object.prototype] without subscribers of its own.  When
    nothing was thrown it calls each whole-object listener once with
    [(newSnapshot, oldSnapshot)], also when the new snapshot is shallowly
    equal to [s]: then no subscriber is called and nothing is thrown.
    Nothing is thrown either when no key of the new snapshot is a name of
    [Object.prototype]. *)
Theorem ObservableObject_set_spec (o : ObservableObject.t) (p : Val) :
  ObservableObject.fresh o ->
  let s := ObservableObject.object o in
  let s' := ObservableObject.merged o p in
  let listener_calls :=
    map (fun listener => Invoke listener [object_val s'; object_val s])
        (ObservableObject.listeners o) in
  let subscriber_calls :=
    forEach_trace
      (fun key =>
         if strict_eq (read (props s) key) (read (props s') key) then []
         else
           match ObservableObject.subscribers_or_empty (ObservableObject.subscribers o) key
           with
           | Some subscribers =>
               map (fun subscriber =>
                      Invoke subscriber [read (props s') key; read (props s) key])
                   subscribers
           | None => [Throw]
           end)
      (key_order (map fst (props s'))) in
  ObservableObject.get (fst (ObservableObject.set p o)) = s'
  /\ snd (ObservableObject.set p o)
     = (if throws subscriber_calls then subscriber_calls
        else subscriber_calls ++ listener_calls)
  /\ (shallow_equal (props s) (props s') = true ->
      snd (ObservableObject.set p o) = listener_calls)
  /\ ((forall key, In key (map fst (props s')) -> inherited key = false) ->
      snd (ObservableObject.set p o) = subscriber_calls ++ listener_calls).
Proof.
  intros F s s' listener_calls subscriber_calls. unfold ObservableObject.fresh in F.
  assert (E : ObservableObject.set p o = ObservableObject.notify s' o) by reflexivity.
  assert (N : ref (ObservableObject.object o) <> ref s').
  { subst s'. simpl. lia. }
  rewrite E, notify_unguarded by exact N. cbn [fst snd ObservableObject.get
    ObservableObject.object].
  assert (C : forEach_trace
                (ObservableObject.notify_key (ObservableObject.subscribers o) s'
                   (ObservableObject.object o))
                (key_order (map fst (props s')))
              = subscriber_calls) by reflexivity.
  cbv zeta. rewrite C. fold s. split; [reflexivity|]. split; [reflexivity|]. split.
  - intros SE. apply andb_true_iff in SE as [K V].
    apply list_eqb_string_eq in K. rewrite forallb_forall in V.
    assert (Z : subscriber_calls = []).
    { apply forEach_trace_nil. intros k Hk. apply (proj1 (In_key_order _ _)) in Hk.
      assert (Hs : In k (map fst (props s))) by now rewrite K.
      rewrite (has_key_read (props s) k), (has_key_read (props s') k)
        by auto using In_has_key.
      now rewrite V. }
    now rewrite Z.
  - intros I.
    assert (T : throws subscriber_calls = false).
    { unfold subscriber_calls. rewrite throws_forEach_trace.
      apply not_true_is_false. intros X. apply existsb_exists in X as (k & Hk & X).
      apply (proj1 (In_key_order _ _)) in Hk.
      destruct (strict_eq (read (props s) k) (read (props s') k)); [discriminate|].
      unfold ObservableObject.subscribers_or_empty in X.
      rewrite (I k Hk) in X.
      destruct (ObservableObject.registered (ObservableObject.subscribers o) k);
        [|discriminate].
      change (throws (notify_all
                        (ObservableObject.subscribers_of (ObservableObject.subscribers o) k)
                        [read (props s') k; read (props s) k]) = true) in X.
      now rewrite throws_notify_all in X. }
    now rewrite T.
Qed.

Lemma ObservableObject_set_spec_witness :
  let o := ObservableObject.mk (mkObject 0 [("value", VNum 1)]) [7] [("value", [3])] 1 in
  snd (ObservableObject.set (VObj 5 [("value", VNum 1)]) o)
  = [Invoke 7 [VObj 1 [("value", VNum 1)]; VObj 0 [("value", VNum 1)]]].
Proof.
  intros o.
  apply (proj1 (proj2 (proj2 (ObservableObject_set_spec o (VObj 5 [("value", VNum 1)])
                                (Nat.lt_succ_diag_r 0))))).
  reflexivity.
Defined.

(** A [set] that changes a key named as a member of [Object.prototype]
    throws before it reaches the whole-object listeners. *)
Lemma ObservableObject_set_inherited_key :
  snd (ObservableObject.set (VObj 5 [("constructor", VNum 1)])
         (ObservableObject.mk (mkObject 0 []) [7] [] 1))
  = [Throw].
Proof. reflexivity. Qed.

(** The keys that look like array indices come first. *)
Lemma ObservableObject_set_index_keys :
  snd (ObservableObject.set (VObj 5 [("b", VNum 1); ("1", VNum 2); ("0", VNum 3)])
         (ObservableObject.mk (mkObject 0 []) [] [("b", [1]); ("1", [2]); ("0", [3])] 1))
  = [ Invoke 3 [VNum 3; VUndefined];
      Invoke 2 [VNum 2; VUndefined];
      Invoke 1 [VNum 1; VUndefined] ].
Proof. reflexivity. Qed.

(** The claim C10 as it is stated fails for a key that names a member
    of [Object.prototype]: [subscribe] throws and the callback is not
    called. *)
Lemma ObservableObject_register_counterexample :
  ~ (forall (o : ObservableObject.t) (k : string) (cb : nat),
       snd (ObservableObject.subscribe k cb o)
       = [Invoke cb [read (props (ObservableObject.get o)) k;
                     read (props (ObservableObject.get o)) k]]).
Proof.
  intros H.
  specialize (H (ObservableObject.ObservableObject (mkObject 0 [])) "toString" 1).
  discriminate H.
Qed.

(** C10, amended.  [onChange(cb)] calls [cb] at once, once, with
    [(s, s)] for the current snapshot [s].  [subscribe(k, cb)] calls
    [cb] at once, once, with [(s[k], s[k])] when [k] is not a name of
    [Object.prototype]; when it is one (and nothing is registered under
    it) [subscribe] throws and calls nothing.  None of them changes the
    snapshot. *)
Theorem ObservableObject_register_spec (o : ObservableObject.t) (k : string) (cb : nat) :
  let s := ObservableObject.get o in
  snd (ObservableObject.onChange cb o) = [Invoke cb [object_val s; object_val s]]
  /\ ObservableObject.get (fst (ObservableObject.onChange cb o)) = s
  /\ ObservableObject.get (fst (ObservableObject.subscribe k cb o)) = s
  /\ (inherited k = false ->
      snd (ObservableObject.subscribe k cb o)
      = [Invoke cb [read (props s) k; read (props s) k]]
      /\ read (props s) k = prop (props s) k)
  /\ (inherited k = true ->
      ObservableObject.registered (ObservableObject.subscribers o) k = false ->
      ObservableObject.subscribe k cb o = (o, [Throw])).
Proof.
  intros s. unfold ObservableObject.subscribe, ObservableObject.subscribers_or_empty.
  split; [reflexivity|]. split; [reflexivity|]. split; [|split].
  - destruct (ObservableObject.registered (ObservableObject.subscribers o) k);
      [|destruct (inherited k)]; reflexivity.
  - intros I. rewrite I. split; [|now apply inherited_read].
    now destruct (ObservableObject.registered (ObservableObject.subscribers o) k).
  - intros I R. now rewrite I, R.
Qed.

Lemma ObservableObject_register_spec_witness :
  let o := ObservableObject.mk (mkObject 0 [("value", VNum 1)]) [] [] 1 in
  (snd (ObservableObject.subscribe "value" 3 o) = [Invoke 3 [VNum 1; VNum 1]])
  /\ ObservableObject.subscribe "toString" 3 o = (o, [Throw]).
Proof.
  intros o. split.
  - apply (proj1 (proj2 (proj2 (proj2 (ObservableObject_register_spec o "value" 3))))).
    reflexivity.
  - apply (proj2 (proj2 (proj2 (proj2 (ObservableObject_register_spec o "toString" 3)))));
      reflexivity.
Defined.

(** C7.  From [ObservableObject({})] with a subscriber for ['value']:
    after [set({value: 1})], [push('text', 'Puerro')] and
    [remove('value')], [get()] is [{value: undefined, text: 'Puerro'}]
    and the last call of the subscriber was with [(undefined, 1)]. *)
Theorem ObservableObject_scenario (cb : nat) :
  let result :=
    run [ ObservableObject.subscribe "value" cb;
          ObservableObject.set (VObj 50 [("value", VNum 1)]);
          ObservableObject.push "text" (VStr "Puerro");
          ObservableObject.remove "value" ]
        (ObservableObject.ObservableObject (mkObject 0 [])) in
  props (ObservableObject.get (fst result))
  = [("value", VUndefined); ("text", VStr "Puerro")]
  /\ last (snd result) (Invoke 0 []) = Invoke cb [VUndefined; VNum 1]
  /\ snd result
     = [ Invoke cb [VUndefined; VUndefined];
         Invoke cb [VNum 1; VUndefined];
         Invoke cb [VUndefined; VNum 1] ].
Proof. repeat split. Qed.

(** ** vNode *)

(** The claim C3 as it is stated fails: [vNode] keeps a [null] child. *)
Lemma vNode_children_counterexample :
  ~ (forall (r : nat) (tagName attributes : Val) (nodes : list Val),
       children_of (vNode r tagName attributes nodes) = flattened_pruned nodes).
Proof.
  intros H. specialize (H 0 (VStr "div") VUndefined [VNull; VStr "a"]).
  discriminate H.
Qed.

(** C3, amended.  The [children] of [vNode(tagName, attributes,
    ...nodes)] are the passed values in order, an array among them
    replaced by its elements (one level only); [null] and [undefined]
    entries are kept.  Pruning them afterwards gives the sequence the
    specification describes. *)
Theorem vNode_children (r : nat) (tagName attributes : Val) (nodes : list Val) :
  let children := children_of (vNode r tagName attributes nodes) in
  children = List.concat (map (fun n => match n with
                                   | VArr _ elems => elems
                                   | _ => [n]
                                   end) nodes)
  /\ (forall c, In c children <->
                exists n, In n nodes /\
                          ((is_array n = false /\ c = n)
                           \/ exists r' elems, n = VArr r' elems /\ In c elems))
  /\ filter (fun c => negb (nullish c)) children = flattened_pruned nodes.
Proof.
  simpl. unfold children_of. simpl. split; [|split].
  - unfold concat_spread. apply flat_map_concat_map.
  - intros c. unfold concat_spread. rewrite in_flat_map. split.
    + intros (n & Hn & Hc). exists n. split; auto.
      destruct n; simpl in Hc;
        try (left; split; [reflexivity | destruct Hc as [Hc|[]]; now symmetry]).
      right; eauto.
    + intros (n & Hn & [[Ha Hc] | (r' & elems & Hr & Hc)]); exists n; split; auto.
      * destruct n; simpl; auto; discriminate.
      * now rewrite Hr.
  - reflexivity.
Qed.

(** ** changed *)

Lemma lookup_with_find {A : Type} (f : Val -> A) (d : A) (k : string) (ps : Props) :
  lookup_with f d k ps
  = match find_prop k ps with
    | Some v => f v
    | None => d
    end.
Proof.
  unfold find_prop. induction ps as [|[k' v] ps IH]; simpl; auto.
  destruct (String.eqb k' k); auto.
Qed.

(** Reading finds the own property. *)
Lemma read_find (k : string) (ps : Props) (v : Val) :
  find_prop k ps = Some v -> read ps k = v.
Proof.
  unfold read. rewrite lookup_with_find. now intros ->.
Qed.


Lemma get_prop_total (v : Val) (k : string) :
  nullish v = false -> exists x, get_prop v k = Some x.
Proof.
  destruct v; simpl; try discriminate; intros _; eauto.
  - destruct (String.eqb k "length"); eauto.
    destruct (index_of_key k (String.length s)); eauto.
  - destruct (String.eqb k "length"); eauto.
    destruct (index_of_key k (List.length elems)); eauto.
Qed.

Lemma truthy_not_nullish (v : Val) : truthy v = true -> nullish v = false.
Proof. destruct v; simpl; auto; discriminate. Qed.

Lemma keys_total (v : Val) : nullish v = false -> exists ks, keys v = Some ks.
Proof. destruct v; simpl; try discriminate; eauto. Qed.

Lemma attribute_differs_same (a : Val) (ks : list string) :
  existsb (attribute_differs a a) ks = false.
Proof.
  induction ks as [|k ks IH]; simpl; auto.
  rewrite IH, orb_false_r. unfold attribute_differs.
  destruct (get_prop a k); auto. now rewrite String.eqb_refl, andb_false_r.
Qed.

(** The attribute half of [changed] on one and the same attribute
    value. *)
Lemma attributes_unchanged (a : Val) :
  (if negb (truthy a) then Some false
   else if negb (truthy a) then Some false
   else k1 <- keys a ;; k2 <- keys a ;;
        Some (negb (Nat.eqb (List.length k1) (List.length k2))
              || existsb (attribute_differs a a) k1))
  = Some false.
Proof.
  destruct (truthy a) eqn:T; simpl; auto.
  destruct (keys_total a (truthy_not_nullish a T)) as [ks ->]. simpl.
  now rewrite Nat.eqb_refl, attribute_differs_same.
Qed.

Lemma NaN_free_read (ps : Props) (k : string) :
  forallb (fun kv => NaN_free (snd kv)) ps = true -> NaN_free (read ps k) = true.
Proof.
  unfold read. induction ps as [|[k' v] ps IH]; simpl.
  - intros _. unfold Object_prototype_get.
    destruct (inherited k); auto. now destruct (String.eqb k "__proto__").
  - intros H. apply andb_true_iff in H as [H1 H2].
    destruct (String.eqb k' k); auto.
Qed.

Lemma NaN_free_nth (elems : list Val) (i : nat) :
  forallb NaN_free elems = true -> NaN_free (nth i elems VUndefined) = true.
Proof.
  revert i. induction elems as [|e elems IH]; intros [|i]; simpl; auto;
    intros H; apply andb_true_iff in H as [H1 H2]; auto.
Qed.

(** What is read from a value without [NaN] is without [NaN]. *)
Lemma NaN_free_get_prop (v x : Val) (k : string) :
  NaN_free v = true -> get_prop v k = Some x -> NaN_free x = true.
Proof.
  destruct v as [| |b|n| |s|r src|b|r ps|r elems]; simpl; try discriminate; intros F G;
    try (now injection G as <-).
  - destruct (String.eqb k "length"); [now injection G as <-|].
    destruct (index_of_key k (String.length s)) as [i|]; injection G as <-; auto.
    unfold char_at. now destruct (String.get i s).
  - injection G as <-. now apply NaN_free_read.
  - destruct (String.eqb k "length"); [now injection G as <-|].
    destruct (index_of_key k (List.length elems)); injection G as <-; auto.
    now apply NaN_free_nth.
Qed.

Lemma NaN_free_not_NaN (v : Val) : NaN_free v = true -> v <> VNaN.
Proof. intros H ->. discriminate H. Qed.

(** Without [NaN] in it, a node is not [changed] against itself. *)
Lemma changed_same (node : Val) :
  nullish node = false -> NaN_free node = true -> changed node node = Some false.
Proof.
  intros N F. unfold changed.
  rewrite String.eqb_refl, strict_neq_refl, andb_false_r
    by now apply NaN_free_not_NaN.
  simpl.
  destruct (get_prop_total node "type" N) as [t Gt]. rewrite Gt.
  destruct (get_prop_total node "attributes" N) as [a ->]. simpl.
  rewrite strict_neq_refl, attributes_unchanged; [reflexivity|].
  apply NaN_free_not_NaN. eapply NaN_free_get_prop; eauto.
Qed.

(** With [NaN] it is: [NaN !== NaN]. *)
Lemma changed_NaN : changed VNaN VNaN = Some true.
Proof. reflexivity. Qed.

Lemma changed_total (node1 node2 : Val) :
  nullish node1 = false -> nullish node2 = false ->
  exists c, changed node1 node2 = Some c.
Proof.
  intros N1 N2. unfold changed.
  destruct (get_prop_total node1 "type" N1) as [t1 ->].
  destruct (get_prop_total node2 "type" N2) as [t2 ->].
  destruct (get_prop_total node1 "attributes" N1) as [a1 ->].
  destruct (get_prop_total node2 "attributes" N2) as [a2 ->].
  simpl.
  assert (exists n, (if negb (String.eqb (typeof node1) (typeof node2)) then Some true
     else if (String.eqb (typeof node1) "string" || String.eqb (typeof node1) "number")
              && strict_neq node1 node2 then Some true
     else Some (strict_neq t1 t2)) = Some n) as [n ->].
  { destruct (negb _); eauto. destruct (_ && _); eauto. }
  simpl.
  destruct (truthy a1) eqn:T1; simpl; eauto.
  destruct (truthy a2) eqn:T2; simpl; eauto.
  destruct (keys_total a1 (truthy_not_nullish _ T1)) as [k1 ->].
  destruct (keys_total a2 (truthy_not_nullish _ T2)) as [k2 ->].
  simpl. eauto.
Qed.

(** C1: the code does not do what the claim says.  [changed] compares
    the property [type], which no node has, where the claim (and the
    [VNode] type of the module) has [tagName]: two element nodes with
    the same attributes are reported unchanged whatever their tag names
    are. *)
Theorem changed_ignores_tagName (r1 r2 : nat) (tag1 tag2 attributes children1 children2 : Val) :
  changed
    (VObj r1 [("tagName", tag1); ("attributes", attributes); ("children", children1)])
    (VObj r2 [("tagName", tag2); ("attributes", attributes); ("children", children2)])
  = Some false.
Proof.
  unfold changed. simpl.
  rewrite attributes_unchanged. reflexivity.
Qed.

Example changed_p_div :
  changed (vNode 1 (VStr "p") VUndefined []) (vNode 4 (VStr "div") VUndefined [])
  = Some false.
Proof. reflexivity. Qed.

(** ** Node representations *)

Lemma find_prop_In (k : string) (ps : Props) (v : Val) :
  find_prop k ps = Some v -> exists k', In (k', v) ps.
Proof.
  unfold find_prop. induction ps as [|[k' v'] ps IH]; simpl; [discriminate|].
  destruct (String.eqb k' k).
  - intros [= ->]. eauto.
  - intros H. destruct (IH H) as [k'' ?]. eauto.
Qed.

(** The shape of an element node representation. *)
Lemma is_NodeRep_obj (r : nat) (ps : Props) :
  is_NodeRep (VObj r ps) = true ->
  exists t ra attrs rc elems,
    find_prop "tagName" ps = Some (VStr t)
    /\ find_prop "attributes" ps = Some (VObj ra attrs)
    /\ find_prop "children" ps = Some (VArr rc elems)
    /\ forallb is_NodeRep elems = true.
Proof.
  simpl. destruct (find_prop "tagName" ps) as [[]|]; try discriminate.
  destruct (find_prop "attributes" ps) as [[]|]; try discriminate.
  rewrite lookup_with_find.
  destruct (find_prop "children" ps) as [[]|]; try discriminate.
  intros H. repeat eexists. exact H.
Qed.

(** Induction on node representations. *)
Lemma NodeRep_ind (P : Val -> Prop) :
  (forall s, P (VStr s)) ->
  (forall n, P (VNum n)) ->
  P VNaN ->
  (forall r ps t ra attrs rc elems,
      find_prop "tagName" ps = Some (VStr t) ->
      find_prop "attributes" ps = Some (VObj ra attrs) ->
      find_prop "children" ps = Some (VArr rc elems) ->
      forallb is_NodeRep elems = true ->
      Forall P elems ->
      P (VObj r ps)) ->
  forall v, is_NodeRep v = true -> P v.
Proof.
  intros Hs Hn Hnan Ho v.
  enough (H : (is_NodeRep v = true -> P v)
              /\ match v with
                 | VArr _ elems => Forall (fun e => is_NodeRep e = true -> P e) elems
                 | _ => True
                 end) by apply H.
  induction v using Val_nested_ind; try (split; [discriminate | exact I]);
    try (split; auto; fail).
  - split; auto. intros N.
    destruct (is_NodeRep_obj _ _ N) as (t & ra & attrs & rc & elems & Ht & Ha & Hc & He).
    apply (Ho r ps t ra attrs rc elems); auto.
    destruct (find_prop_In _ _ _ Hc) as [k' Hin].
    rewrite Forall_forall in H. destruct (H _ Hin) as [_ F]. simpl in F.
    rewrite forallb_forall in He. rewrite Forall_forall in F |- *.
    intros e He'. apply F; auto.
  - split; [discriminate|].
    rewrite Forall_forall in H |- *. intros e He. apply H; auto.
Qed.

(** ** Property names and indices *)

Lemma string_of_uint_head (u : Decimal.uint) (c : ascii) (s : string) :
  is_digit c = false -> String.eqb (NilEmpty.string_of_uint u) (String c s) = false.
Proof.
  unfold is_digit. cbn [existsb]. intros H.
  repeat (apply orb_false_iff in H as [? H]).
  destruct u; cbn [NilEmpty.string_of_uint String.eqb]; auto;
    match goal with
    | |- (if Ascii.eqb ?d c then _ else _) = false =>
        rewrite (Ascii.eqb_sym d c);
        match goal with E : Ascii.eqb c d = false |- _ => now rewrite E end
    end.
Qed.

(** A name that does not start with a digit is no index. *)
Lemma index_of_key_name (c : ascii) (s : string) (n : nat) :
  is_digit c = false -> index_of_key (String c s) n = None.
Proof.
  intros H. unfold index_of_key.
  generalize (seq 0 n) as l. induction l as [|i l IH]; simpl; auto.
  unfold string_of_nat at 1. now rewrite string_of_uint_head.
Qed.

Lemma get_prop_text (v : Val) (c : ascii) (s : string) :
  String.eqb (String c s) "length" = false -> is_digit c = false ->
  (exists x, v = VStr x) \/ (exists n, v = VNum n) \/ v = VNaN ->
  get_prop v (String c s) = Some VUndefined.
Proof.
  intros L D [[x ->] | [[n ->] | ->]]; try reflexivity.
  unfold get_prop. now rewrite L, index_of_key_name.
Qed.

(** ** render *)

Lemma apply_attributes_element (ra : nat) (attrs : Props) (ks : list string)
  (t : string) (a : list (string * string)) (l : list (string * Val)) (cs : list Dom) :
  exists a' l',
    apply_attributes (VObj ra attrs) (Element t a l cs) ks = Some (Element t a' l' cs).
Proof.
  revert a l. induction ks as [|k ks IH]; simpl; intros a l; eauto.
  unfold apply_attribute. simpl.
  destruct (String.eqb (typeof _) "function"); simpl; apply IH.
Qed.

Lemma createDomElement_element (t : string) (ra : nat) (attrs : Props) :
  exists a l, createDomElement (VStr t) (VObj ra attrs) = Some (Element t a l []).
Proof.
  unfold createDomElement. simpl. apply apply_attributes_element.
Qed.

Lemma render_obj (r : nat) (ps : Props) (t : string) (ra : nat) (attrs : Props)
  (rc : nat) (elems : list Val) (cs : list Dom) :
  find_prop "tagName" ps = Some (VStr t) ->
  find_prop "attributes" ps = Some (VObj ra attrs) ->
  find_prop "children" ps = Some (VArr rc elems) ->
  mapM render elems = Some cs ->
  exists a l, render (VObj r ps) = Some (Element t a l cs).
Proof.
  intros Ht Ha Hc Hm.
  destruct (createDomElement_element t ra attrs) as (a & l & Hd).
  exists a, l. simpl.
  rewrite (read_find _ _ _ Ht), (read_find _ _ _ Ha), Hd. simpl.
  rewrite lookup_with_find, Hc, Hm. reflexivity.
Qed.

Lemma mapM_total {A B : Type} (f : A -> option B) (xs : list A) :
  Forall (fun x => exists y, f x = Some y) xs -> exists ys, mapM f xs = Some ys.
Proof.
  induction 1 as [|x xs [y Hy] _ [ys Hys]]; simpl; eauto.
  rewrite Hy, Hys. simpl. eauto.
Qed.

Lemma mapM_nth {A B : Type} (f : A -> option B) (xs : list A) (ys : list B) :
  mapM f xs = Some ys ->
  List.length ys = List.length xs
  /\ forall i x, nth_error xs i = Some x ->
                 exists y, f x = Some y /\ nth_error ys i = Some y.
Proof.
  revert ys. induction xs as [|x xs IH]; simpl; intros ys H.
  - injection H as <-. split; auto. intros [|i] x; discriminate.
  - destruct (f x) as [y|] eqn:Fx; [|discriminate]. simpl in H.
    destruct (mapM f xs) as [ys'|]; [|discriminate]. simpl in H.
    injection H as <-. destruct (IH _ eq_refl) as [L N].
    split; [simpl; congruence|].
    intros [|i] x'; simpl; intros E.
    + injection E as <-. eauto.
    + apply N; auto.
Qed.

(** A node representation renders, in a host that takes every tag
    name and every attribute name. *)
Lemma render_NodeRep (v : Val) : is_NodeRep v = true -> exists d, render v = Some d.
Proof.
  intros N. pattern v. revert v N. apply NodeRep_ind.
  - intros s. simpl. eauto.
  - intros n. simpl. eauto.
  - simpl. eauto.
  - intros r ps t ra attrs rc elems Ht Ha Hc _ F.
    destruct (mapM_total render elems F) as [cs Hm].
    destruct (render_obj r ps t ra attrs rc elems cs Ht Ha Hc Hm) as (a & l & R).
    eauto.
Qed.

Lemma is_NodeRep_not_nullish (v : Val) : is_NodeRep v = true -> nullish v = false.
Proof. destruct v; simpl; auto; discriminate. Qed.

(** ** References into the live tree *)

Lemma nth_error_set_nth {A : Type} (i j : nat) (x : A) (xs : list A) :
  nth_error (set_nth i x xs) j
  = if Nat.eqb i j then (match nth_error xs j with Some _ => Some x | None => None end)
    else nth_error xs j.
Proof.
  revert i j. induction xs as [|y xs IH]; intros [|i] [|j]; simpl; auto.
  now destruct (Nat.eqb i j).
Qed.

Lemma set_nth_twice {A : Type} (i : nat) (x y : A) (xs : list A) :
  set_nth i y (set_nth i x xs) = set_nth i y xs.
Proof.
  revert i. induction xs as [|z xs IH]; intros [|i]; simpl; auto. now rewrite IH.
Qed.

Lemma set_nth_same {A : Type} (i : nat) (x : A) (xs : list A) :
  nth_error xs i = Some x -> set_nth i x xs = xs.
Proof.
  revert i. induction xs as [|z xs IH]; intros [|i]; simpl; try discriminate.
  - now intros [= ->].
  - intros H. now rewrite IH.
Qed.

Lemma length_set_nth {A : Type} (i : nat) (x : A) (xs : list A) :
  List.length (set_nth i x xs) = List.length xs.
Proof.
  revert i. induction xs as [|z xs IH]; intros [|i]; simpl; auto.
Qed.

Lemma lookup_app (root : Dom) (p q : NodeRef) :
  lookup root (p ++ q) = (n <- lookup root p ;; lookup n q).
Proof.
  revert root. induction p as [|i p IH]; simpl; intros root; auto.
  destruct root as [|t a l cs]; auto.
  destruct (nth_error cs i); simpl; auto.
Qed.

Lemma lookup_child (root : Dom) (p : NodeRef) (k : nat)
  (t : string) (a : list (string * string)) (l : list (string * Val)) (cs : list Dom) :
  lookup root p = Some (Element t a l cs) ->
  lookup root (p ++ [k]) = nth_error cs k.
Proof.
  intros H. rewrite lookup_app, H. simpl. now destruct (nth_error cs k).
Qed.

Lemma lookup_child_inv (root : Dom) (p : NodeRef) (k : nat) (d : Dom) :
  lookup root (p ++ [k]) = Some d ->
  exists t a l cs, lookup root p = Some (Element t a l cs) /\ nth_error cs k = Some d.
Proof.
  rewrite lookup_app. destruct (lookup root p) as [[|t a l cs]|]; simpl; try discriminate.
  destruct (nth_error cs k) eqn:E; simpl; try discriminate.
  intros [= ->]. repeat eexists. exact E.
Qed.

Lemma childNodes_at_defined (root : Dom) (p : NodeRef) (k : nat) (d : Dom) :
  lookup root (p ++ [k]) = Some d -> childNodes_at root p k = Some (p ++ [k]).
Proof.
  intros H. destruct (lookup_child_inv _ _ _ _ H) as (t & a & l & cs & Hp & _).
  unfold childNodes_at. now rewrite Hp.
Qed.

Lemma update_as_replace (root : Dom) (p : NodeRef) (f : Dom -> option Dom) (n : Dom) :
  lookup root p = Some n ->
  update root p f = (n' <- f n ;; replace_at root p n').
Proof.
  unfold replace_at. revert root. induction p as [|i p IH]; simpl; intros root H.
  - injection H as ->. now destruct (f n).
  - destruct root as [|t a l cs]; [discriminate|].
    destruct (nth_error cs i) as [c|]; [|discriminate]. simpl in *.
    rewrite (IH _ H). destruct (f n); reflexivity.
Qed.

Lemma replace_at_same (root : Dom) (p : NodeRef) (d : Dom) :
  lookup root p = Some d -> replace_at root p d = Some root.
Proof.
  unfold replace_at. revert root. induction p as [|i p IH]; simpl; intros root H.
  - congruence.
  - destruct root as [|t a l cs]; [discriminate|].
    destruct (nth_error cs i) as [c|] eqn:E; [|discriminate]. simpl in *.
    rewrite (IH _ H). simpl. now rewrite set_nth_same.
Qed.

Lemma lookup_replace_at (root root' : Dom) (p : NodeRef) (d : Dom) :
  replace_at root p d = Some root' -> lookup root' p = Some d.
Proof.
  unfold replace_at. revert root root'. induction p as [|i p IH]; simpl; intros root root' H.
  - congruence.
  - destruct root as [|t a l cs]; [discriminate|].
    destruct (nth_error cs i) as [c|] eqn:E; [|discriminate]. simpl in H.
    destruct (update c p _) as [c'|] eqn:U; [|discriminate]. simpl in H.
    injection H as <-. rewrite nth_error_set_nth, Nat.eqb_refl, E. simpl.
    eapply IH; eauto.
Qed.

Lemma replace_at_defined (root : Dom) (p : NodeRef) (n d : Dom) :
  lookup root p = Some n -> exists root', replace_at root p d = Some root'.
Proof.
  unfold replace_at. revert root. induction p as [|i p IH]; simpl; intros root H; eauto.
  destruct root as [|t a l cs]; [discriminate|].
  destruct (nth_error cs i) as [c|]; [|discriminate]. simpl in *.
  destruct (IH _ H) as [c' ->]. simpl. eauto.
Qed.

Lemma replace_at_twice (root r1 : Dom) (p : NodeRef) (d1 d2 : Dom) :
  replace_at root p d1 = Some r1 -> replace_at r1 p d2 = replace_at root p d2.
Proof.
  unfold replace_at. revert root r1. induction p as [|i p IH]; simpl; intros root r1 H; auto.
  destruct root as [|t a l cs]; [discriminate|].
  destruct (nth_error cs i) as [c|] eqn:E; [|discriminate]. simpl in H.
  destruct (update c p _) as [c1|] eqn:U; [|discriminate]. simpl in H.
  injection H as <-. rewrite nth_error_set_nth, Nat.eqb_refl, E. simpl.
  rewrite (IH _ _ U). destruct (update c p (fun _ => Some d2)); simpl; auto.
  now rewrite set_nth_twice.
Qed.

Lemma replace_at_child (root r1 : Dom) (p : NodeRef) (k : nat) (c d' : Dom)
  (t : string) (a : list (string * string)) (l : list (string * Val)) (cs : list Dom) :
  replace_at root p (Element t a l cs) = Some r1 ->
  nth_error cs k = Some c ->
  replace_at r1 (p ++ [k]) d' = replace_at root p (Element t a l (set_nth k d' cs)).
Proof.
  unfold replace_at. revert root r1.
  induction p as [|i p IH]; simpl; intros root r1 H K.
  - injection H as <-. now rewrite K.
  - destruct root as [|t0 a0 l0 cs0]; [discriminate|].
    destruct (nth_error cs0 i) as [c0|] eqn:E; [|discriminate]. simpl in H.
    destruct (update c0 p _) as [c1|] eqn:U; [|discriminate]. simpl in H.
    injection H as <-. rewrite nth_error_set_nth, Nat.eqb_refl, E. simpl.
    rewrite (IH _ _ U K).
    destruct (update c0 p (fun _ => Some (Element t a l (set_nth k d' cs)))); simpl; auto.
    now rewrite set_nth_twice.
Qed.

Lemma appendChild_as_replace (root : Dom) (p : NodeRef) (child : Dom)
  (t : string) (a : list (string * string)) (l : list (string * Val)) (cs : list Dom) :
  lookup root p = Some (Element t a l cs) ->
  appendChild root p child = replace_at root p (Element t a l (cs ++ [child])).
Proof.
  intros H. unfold appendChild. now rewrite (update_as_replace _ _ _ _ H).
Qed.

Lemma replaceChild_as_replace (root : Dom) (p : NodeRef) (k : nat) (child d : Dom) :
  lookup root (p ++ [k]) = Some d ->
  replaceChild root p child k = replace_at root (p ++ [k]) child.
Proof.
  intros H. destruct (lookup_child_inv _ _ _ _ H) as (t & a & l & cs & Hp & Hk).
  unfold replaceChild. rewrite (update_as_replace _ _ _ _ Hp), Hk. simpl.
  symmetry. eapply replace_at_child; eauto. now apply replace_at_same.
Qed.

(** ** diff *)

Lemma diff_unfold (parent : NodeRef) (newNode oldNode : Val) (index : nat)
  (root : Dom) (ops : list DomOp) :
  diff parent newNode oldNode index (root, ops)
  = if nullish oldNode then
      child <- render newNode ;;
      root' <- appendChild root parent child ;;
      Some (root', ops ++ [OpAppend parent child])
    else if nullish newNode then
      root' <- removeChild root parent index ;;
      Some (root', ops ++ [OpRemove parent index])
    else
      c <- changed oldNode newNode ;;
      if c then
        child <- render newNode ;;
        root' <- replaceChild root parent child index ;;
        Some (root', ops ++ [OpReplace parent child index])
      else
        tagName <- get_prop newNode "tagName" ;;
        if truthy tagName then
          forEach_children
            (fun newNode i s =>
               child <- childNodes_at (fst s) parent index ;;
               oldChild <- old_child oldNode i ;;
               diff child newNode oldChild i s)
            newNode (root, ops)
        else Some (root, ops).
Proof. destruct newNode; reflexivity. Qed.

Lemma get_prop_obj (r : nat) (ps : Props) (k : string) (v : Val) :
  find_prop k ps = Some v -> get_prop (VObj r ps) k = Some v.
Proof. intros H. simpl. now rewrite (read_find _ _ _ H). Qed.

Lemma old_child_obj (r : nat) (ps : Props) (rc : nat) (elems : list Val) (i : nat) :
  find_prop "children" ps = Some (VArr rc elems) ->
  old_child (VObj r ps) i = Some (nth i elems VUndefined).
Proof. intros H. unfold old_child. now rewrite (get_prop_obj _ _ _ _ H). Qed.

Lemma forEach_children_obj (body : Val -> nat -> Live -> option Live) (r : nat)
  (ps : Props) (rc : nat) (elems : list Val) (s : Live) :
  find_prop "children" ps = Some (VArr rc elems) ->
  forEach_children body (VObj r ps) s = forEach_from body 0 elems s.
Proof. intros H. unfold forEach_children. now rewrite lookup_with_find, H. Qed.

Lemma get_tagName_text (v : Val) :
  (exists x, v = VStr x) \/ (exists n, v = VNum n) \/ v = VNaN ->
  get_prop v "tagName" = Some VUndefined.
Proof. apply get_prop_text; reflexivity. Qed.

Lemma diff_unchanged (parent : NodeRef) (newNode oldNode : Val) (index : nat)
  (root : Dom) (ops : list DomOp) (tagName : Val) :
  nullish oldNode = false -> nullish newNode = false ->
  changed oldNode newNode = Some false ->
  get_prop newNode "tagName" = Some tagName ->
  diff parent newNode oldNode index (root, ops)
  = if truthy tagName then
      forEach_children
        (fun newNode i s =>
           child <- childNodes_at (fst s) parent index ;;
           oldChild <- old_child oldNode i ;;
           diff child newNode oldChild i s)
        newNode (root, ops)
    else Some (root, ops).
Proof.
  intros O N C G. rewrite diff_unfold, O, N, C. cbn [bind]. rewrite G. reflexivity.
Qed.

(** C6.  When the old node is absent, [diff] renders the new node and
    appends the result to the parent as its last child, whatever the
    index: the children the parent had stay where they were, and nothing
    else in the live tree changes. *)
Theorem diff_absent_old_appends (root : Dom) (parent : NodeRef) (newNode oldNode : Val)
  (index : nat) (t : string) (a : list (string * string)) (l : list (string * Val))
  (cs : list Dom) :
  nullish oldNode = true ->
  is_NodeRep newNode = true ->
  lookup root parent = Some (Element t a l cs) ->
  exists child root',
    render newNode = Some child
    /\ diff parent newNode oldNode index (root, []) = Some (root', [OpAppend parent child])
    /\ replace_at root parent (Element t a l (cs ++ [child])) = Some root'
    /\ lookup root' parent = Some (Element t a l (cs ++ [child]))
    /\ forall i c, nth_error cs i = Some c -> lookup root' (parent ++ [i]) = Some c.
Proof.
  intros O N L.
  destruct (render_NodeRep _ N) as [child R].
  destruct (replace_at_defined root parent _ (Element t a l (cs ++ [child])) L)
    as [root' U].
  exists child, root'. assert (L' := lookup_replace_at _ _ _ _ U).
  repeat split; auto.
  - rewrite diff_unfold, O, R. simpl.
    now rewrite (appendChild_as_replace _ _ _ _ _ _ _ L), U.
  - intros i c Hc. rewrite (lookup_child _ _ _ _ _ _ _ L').
    rewrite nth_error_app1; auto. apply nth_error_Some. congruence.
Qed.

Lemma diff_absent_old_appends_witness :
  exists child root',
    render (VStr "b") = Some child
    /\ diff [] (VStr "b") VUndefined 1
         (Element "ul" [] [] [Element "li" [] [] [Text "a"]], [])
       = Some (root', [OpAppend [] child])
    /\ replace_at (Element "ul" [] [] [Element "li" [] [] [Text "a"]]) []
         (Element "ul" [] [] ([Element "li" [] [] [Text "a"]] ++ [child]))
       = Some root'
    /\ lookup root' [] = Some (Element "ul" [] [] ([Element "li" [] [] [Text "a"]] ++ [child]))
    /\ forall i c, nth_error [Element "li" [] [] [Text "a"]] i = Some c ->
                   lookup root' ([] ++ [i]) = Some c.
Proof.
  apply (diff_absent_old_appends
           (Element "ul" [] [] [Element "li" [] [] [Text "a"]]) [] (VStr "b") VUndefined 1
           "ul" [] [] [Element "li" [] [] [Text "a"]]); reflexivity.
Defined.

Lemma NaN_free_children (r : nat) (ps : Props) (rc : nat) (elems : list Val) :
  NaN_free (VObj r ps) = true ->
  find_prop "children" ps = Some (VArr rc elems) ->
  forall e, In e elems -> NaN_free e = true.
Proof.
  simpl. intros F Hc e He.
  destruct (find_prop_In _ _ _ Hc) as [k' Hin].
  rewrite forallb_forall in F. specialize (F _ Hin). simpl in F.
  rewrite forallb_forall in F. auto.
Qed.

(** [diff] of a node representation without [NaN] against itself
    changes nothing, whatever was done before. *)
Lemma diff_same (T : Val) :
  is_NodeRep T = true ->
  NaN_free T = true ->
  forall (root : Dom) (parent : NodeRef) (index : nat) (ops : list DomOp) (d : Dom),
    render T = Some d ->
    lookup root (parent ++ [index]) = Some d ->
    diff parent T T index (root, ops) = Some (root, ops).
Proof.
  intros N. pattern T. revert T N. apply NodeRep_ind.
  - intros s _ root parent index ops d _ _.
    rewrite (diff_unchanged _ _ _ _ _ _ VUndefined);
      eauto using changed_same, get_tagName_text.
  - intros n _ root parent index ops d _ _.
    rewrite (diff_unchanged _ _ _ _ _ _ VUndefined);
      eauto 6 using changed_same, get_tagName_text.
  - discriminate.
  - intros r ps t ra attrs rc elems Ht Ha Hc He IH NF root parent index ops d R L.
    rewrite (diff_unchanged _ _ _ _ _ _ (VStr t));
      auto using changed_same, get_prop_obj.
    destruct (truthy (VStr t)); [|reflexivity].
    rewrite (forEach_children_obj _ _ _ _ _ _ Hc).
    assert (exists cs, mapM render elems = Some cs) as [cs Hm].
    { apply mapM_total. rewrite forallb_forall in He. apply Forall_forall.
      intros e Hin. apply render_NodeRep; auto. }
    destruct (render_obj r ps t ra attrs rc elems cs Ht Ha Hc Hm) as (a & l & R').
    rewrite R' in R. injection R as <-.
    destruct (mapM_nth _ _ _ Hm) as [_ Hn].
    enough (G : forall es k,
               (forall j e, nth_error es j = Some e -> nth_error elems (k + j) = Some e) ->
               forEach_from
                 (fun newNode i s =>
                    child <- childNodes_at (fst s) parent index ;;
                    oldChild <- old_child (VObj r ps) i ;;
                    diff child newNode oldChild i s)
                 k es (root, ops) = Some (root, ops)).
    { apply G. auto. }
    induction es as [|e es IHes]; intros k Hk; [reflexivity|].
    cbn [forEach_from fst].
    rewrite (childNodes_at_defined _ _ _ _ L), (old_child_obj _ _ _ _ _ Hc). cbn [bind].
    assert (Ek : nth_error elems k = Some e).
    { rewrite <- (Nat.add_0_r k). apply Hk. reflexivity. }
    rewrite (nth_error_nth _ _ _ Ek).
    destruct (Hn _ _ Ek) as (y & Ry & Ny).
    rewrite Forall_forall in IH.
    rewrite (IH e (nth_error_In _ _ Ek)
               (NaN_free_children _ _ _ _ NF Hc e (nth_error_In _ _ Ek))
               root (parent ++ [index]) k ops y Ry).
    + cbn [bind]. apply IHes. intros j e' Hj.
      replace (S k + j) with (k + S j) by lia. apply Hk. exact Hj.
    + now rewrite (lookup_child _ _ _ _ _ _ _ L).
Qed.

(** The claim C5 as it is stated fails for the number [NaN], a text
    node like any other number: [NaN !== NaN] makes [changed] answer
    true, and [diff] replaces the live text node by a new one. *)
Lemma diff_identical_counterexample :
  ~ (forall (T : Val) (root : Dom) (parent : NodeRef) (index : nat),
       is_NodeRep T = true ->
       lookup root (parent ++ [index]) = render T ->
       diff parent T T index (root, []) = Some (root, [])).
Proof.
  intros H.
  specialize (H VNaN (Element "p" [] [] [Text "NaN"]) [] 0 eq_refl eq_refl).
  discriminate H.
Qed.

(** C5, amended.  For a node representation [T] in which no [NaN]
    occurs and a parent whose child at [index] was rendered from [T],
    [diff(parent, T, T, index)] performs no operation on the live tree
    and leaves it as it is. *)
Theorem diff_identical_is_noop (T : Val) (root : Dom) (parent : NodeRef) (index : nat) :
  is_NodeRep T = true ->
  NaN_free T = true ->
  lookup root (parent ++ [index]) = render T ->
  diff parent T T index (root, []) = Some (root, []).
Proof.
  intros N F L. destruct (render_NodeRep _ N) as [d R].
  apply (diff_same T N F root parent index [] d R). congruence.
Qed.

Lemma diff_identical_is_noop_witness :
  let T := vNode 1 (VStr "ul") VUndefined [vNode 4 (VStr "li") VUndefined [VStr "a"]] in
  let root :=
    Element "body" [] [] [Element "ul" [] [] [Element "li" [] [] [Text "a"]]] in
  diff [] T T 0 (root, []) = Some (root, []).
Proof.
  intros T root. apply (diff_identical_is_noop T root [] 0); reflexivity.
Defined.

(** What [diff] does to a [NaN] text node of an otherwise unchanged
    tree. *)
Example diff_identical_NaN_child :
  let T := vNode 1 (VStr "p") VUndefined [VStr "a"; VNaN] in
  diff [] T T 0 (Element "body" [] [] [Element "p" [] [] [Text "a"; Text "NaN"]], [])
  = Some (Element "body" [] [] [Element "p" [] [] [Text "a"; Text "NaN"]],
          [OpReplace [0] (Text "NaN") 1]).
Proof. reflexivity. Qed.

(** A [null] child, which [vNode] lets through, is outside C5: [diff]
    of such a tree against itself appends an empty text node. *)
Example diff_identical_null_child :
  let T := vNode 1 (VStr "div") VUndefined [VNull] in
  diff [] T T 0 (Element "body" [] [] [Element "div" [] [] [Text ""]], [])
  = Some (Element "body" [] [] [Element "div" [] [] [Text ""; Text ""]],
          [OpAppend [0] (Text "")]).
Proof. reflexivity. Qed.

(** *** What [diff] touches *)

Lemma children_of_obj (r : nat) (ps : Props) (rc : nat) (elems : list Val) :
  find_prop "children" ps = Some (VArr rc elems) ->
  children_of (VObj r ps) = elems.
Proof. intros H. unfold children_of. now rewrite (get_prop_obj _ _ _ _ H). Qed.

Lemma children_of_text (v : Val) :
  (exists x, v = VStr x) \/ (exists n, v = VNum n) \/ v = VNaN -> children_of v = [].
Proof.
  intros H. unfold children_of.
  rewrite (get_prop_text v "c" "hildren"); auto.
Qed.

Section ChildrenLoop.
Variables (old : Val) (q : NodeRef) (i : nat) (root0 : Dom).
Variables (t : string) (a : list (string * string)) (l : list (string * Val)).
Variables (esO : list Val) (cs0 : list Dom).
Hypothesis old_children : forall k, old_child old k = Some (nth k esO VUndefined).
Hypothesis old_NodeReps : forallb is_NodeRep esO = true.
Hypothesis old_rendered : mapM render esO = Some cs0.

(** The loop of [diff] over the new children from index [k] on, the
    live node at [q ++ [i]] having the children [cs_k] by then. *)
Lemma diff_children_loop (es : list Val) :
  Forall diff_local es ->
  forallb is_NodeRep es = true ->
  forall (k : nat) (cs_k : list Dom) (root_k : Dom) (ops : list DomOp),
    replace_at root0 (q ++ [i]) (Element t a l cs_k) = Some root_k ->
    List.length cs_k = Nat.max (List.length cs0) k ->
    (forall j, k <= j -> nth_error cs_k j = nth_error cs0 j) ->
    exists root' cs' log,
      forEach_from
        (fun newNode k s =>
           child <- childNodes_at (fst s) q i ;;
           oldChild <- old_child old k ;;
           diff child newNode oldChild k s)
        k es (root_k, ops) = Some (root', ops ++ log)
      /\ replace_at root0 (q ++ [i]) (Element t a l cs') = Some root'
      /\ List.length cs' = Nat.max (List.length cs0) (k + List.length es)
      /\ (forall j, k + List.length es <= j -> nth_error cs' j = nth_error cs0 j)
      /\ Forall (fun op => is_remove op = false) log.
Proof.
  destruct (mapM_nth _ _ _ old_rendered) as [Len Nth].
  induction es as [|e es IH]; intros F N k cs_k root_k ops R L K.
  - exists root_k, cs_k, []. simpl. rewrite app_nil_r, Nat.add_0_r. auto.
  - inversion F as [|? ? Fe Fes]; subst.
    simpl in N. apply andb_true_iff in N as [Ne Nes].
    assert (Lk : lookup root_k (q ++ [i]) = Some (Element t a l cs_k))
      by (eapply lookup_replace_at; eauto).
    cbn [forEach_from fst].
    rewrite (childNodes_at_defined _ _ _ _ Lk), old_children. cbn [bind].
    destruct (nth_error esO k) as [ok|] eqn:Ek.
    + (* the old node has a child at [k] *)
      rewrite (nth_error_nth _ _ _ Ek).
      destruct (Nth _ _ Ek) as (y & Ry & Ny).
      assert (Nok : is_NodeRep ok = true).
      { rewrite forallb_forall in old_NodeReps. apply old_NodeReps.
        eapply nth_error_In; eauto. }
      assert (Ck : nth_error cs_k k = Some y) by (rewrite K; auto).
      destruct (Fe ok root_k (q ++ [i]) k ops y Nok Ry) as (r1 & d' & log1 & D & U & NR & _).
      { now rewrite (lookup_child _ _ _ _ _ _ _ Lk). }
      rewrite D. cbn [bind].
      rewrite (replace_at_child _ _ _ _ _ _ _ _ _ _ R Ck) in U.
      assert (k < List.length esO) by (apply nth_error_Some; congruence).
      destruct (IH Fes Nes (S k) (set_nth k d' cs_k) r1 (ops ++ log1) U)
        as (root' & cs' & log2 & D2 & U2 & L2 & K2 & NR2).
      { rewrite length_set_nth, L. lia. }
      { intros j Hj. rewrite nth_error_set_nth.
        replace (Nat.eqb k j) with false by (symmetry; apply Nat.eqb_neq; lia).
        apply K. lia. }
      exists root', cs', (log1 ++ log2). rewrite app_assoc.
      repeat split; auto.
      * rewrite L2. simpl. f_equal. lia.
      * intros j Hj. apply K2. simpl in Hj. lia.
      * apply Forall_app; auto.
    + (* the old node has no child at [k]: the new one is appended *)
      apply nth_error_None in Ek.
      rewrite (nth_overflow _ _ Ek), diff_unfold. cbn [nullish].
      destruct (render_NodeRep _ Ne) as [child Rc]. rewrite Rc. cbn [bind].
      rewrite (appendChild_as_replace _ _ _ _ _ _ _ Lk).
      rewrite (replace_at_twice _ _ _ _ _ R).
      destruct (replace_at_defined root_k (q ++ [i]) _ (Element t a l (cs_k ++ [child])) Lk)
        as [r1 U].
      rewrite (replace_at_twice _ _ _ _ _ R) in U. rewrite U. cbn [bind].
      destruct (IH Fes Nes (S k) (cs_k ++ [child]) r1
                  (ops ++ [OpAppend (q ++ [i]) child]) U)
        as (root' & cs' & log2 & D2 & U2 & L2 & K2 & NR2).
      { rewrite length_app, L. simpl. lia. }
      { intros j Hj.
        assert (E1 : nth_error (cs_k ++ [child]) j = None).
        { apply nth_error_None. rewrite length_app, L. simpl. lia. }
        assert (E2 : nth_error cs0 j = None) by (apply nth_error_None; lia).
        congruence. }
      exists root', cs', ([OpAppend (q ++ [i]) child] ++ log2). rewrite app_assoc.
      repeat split; auto.
      * rewrite L2. simpl. f_equal. lia.
      * intros j Hj. apply K2. simpl in Hj. lia.
      * apply Forall_app; auto.
Qed.
End ChildrenLoop.

Lemma changed_typeof (node1 node2 : Val) :
  nullish node1 = false -> nullish node2 = false ->
  changed node1 node2 = Some false -> typeof node1 = typeof node2.
Proof.
  intros N1 N2. unfold changed.
  destruct (String.eqb (typeof node1) (typeof node2)) eqn:E.
  - intros _. now apply String.eqb_eq.
  - cbn [negb bind].
    destruct (get_prop_total node1 "attributes" N1) as [a1 ->].
    destruct (get_prop_total node2 "attributes" N2) as [a2 ->].
    cbn [bind].
    destruct (truthy a1) eqn:T1; cbn [negb bind orb]; [|discriminate].
    destruct (truthy a2) eqn:T2; cbn [negb bind orb]; [|discriminate].
    destruct (keys_total a1 (truthy_not_nullish _ T1)) as [k1 ->].
    destruct (keys_total a2 (truthy_not_nullish _ T2)) as [k2 ->].
    discriminate.
Qed.

Lemma diff_replaces (q : NodeRef) (e old : Val) (i : nat) (root : Dom)
  (ops : list DomOp) (d : Dom) :
  is_NodeRep e = true -> nullish old = false ->
  changed old e = Some true ->
  lookup root (q ++ [i]) = Some d ->
  exists root' child,
    diff q e old i (root, ops) = Some (root', ops ++ [OpReplace q child i])
    /\ replace_at root (q ++ [i]) child = Some root'.
Proof.
  intros N O C L.
  destruct (render_NodeRep _ N) as [child R].
  destruct (replace_at_defined _ _ _ child L) as [root' U].
  exists root', child. split; auto.
  rewrite diff_unfold, O, (is_NodeRep_not_nullish _ N), C. cbn [bind].
  rewrite R. cbn [bind].
  now rewrite (replaceChild_as_replace _ _ _ _ _ L), U.
Qed.

(** Every node representation is diffed locally. *)
Lemma diff_NodeRep_local (e : Val) : is_NodeRep e = true -> diff_local e.
Proof.
  intros N. pattern e. revert e N.
  assert (Replace : forall e old root q i ops d,
             is_NodeRep e = true -> is_NodeRep old = true ->
             changed old e = Some true -> lookup root (q ++ [i]) = Some d ->
             exists root' d' log,
               diff q e old i (root, ops) = Some (root', ops ++ log)
               /\ replace_at root (q ++ [i]) d' = Some root'
               /\ Forall (fun op => is_remove op = false) log
               /\ (changed old e = Some false ->
                   forall j, List.length (children_of e) <= j ->
                             lookup d' [j] = lookup d [j])).
  { intros e old root q i ops d Ne No C L.
    destruct (diff_replaces q e old i root ops d Ne (is_NodeRep_not_nullish _ No) C L)
      as (root' & child & D & U).
    exists root', child, [OpReplace q child i]. repeat split; auto.
    congruence. }
  assert (Keep : forall e old root q i ops d tagName,
             is_NodeRep e = true -> is_NodeRep old = true ->
             changed old e = Some false -> lookup root (q ++ [i]) = Some d ->
             get_prop e "tagName" = Some tagName -> truthy tagName = false ->
             exists root' d' log,
               diff q e old i (root, ops) = Some (root', ops ++ log)
               /\ replace_at root (q ++ [i]) d' = Some root'
               /\ Forall (fun op => is_remove op = false) log
               /\ (changed old e = Some false ->
                   forall j, List.length (children_of e) <= j ->
                             lookup d' [j] = lookup d [j])).
  { intros e old root q i ops d tagName Ne No C L G T.
    exists root, d, []. rewrite app_nil_r.
    rewrite (diff_unchanged _ _ _ _ _ _ tagName), T;
      auto using is_NodeRep_not_nullish, replace_at_same. }
  apply NodeRep_ind.
  - intros s old root q i ops d No Ro Lo.
    destruct (changed_total old (VStr s) (is_NodeRep_not_nullish _ No) eq_refl) as [[|] C].
    + eapply Replace; eauto.
    + eapply (Keep _ _ _ _ _ _ _ VUndefined); eauto using get_tagName_text.
  - intros n old root q i ops d No Ro Lo.
    destruct (changed_total old (VNum n) (is_NodeRep_not_nullish _ No) eq_refl) as [[|] C].
    + eapply Replace; eauto.
    + eapply (Keep _ _ _ _ _ _ _ VUndefined); eauto 6 using get_tagName_text.
  - intros old root q i ops d No Ro Lo.
    destruct (changed_total old VNaN (is_NodeRep_not_nullish _ No) eq_refl) as [[|] C].
    + eapply Replace; eauto.
    + eapply (Keep _ _ _ _ _ _ _ VUndefined); eauto 6 using get_tagName_text.
  - intros r ps t ra attrs rc elems Ht Ha Hc He IH old root q i ops d No Ro Lo.
    assert (Ne : is_NodeRep (VObj r ps) = true).
    { simpl. now rewrite Ht, Ha, lookup_with_find, Hc. }
    destruct (changed_total old (VObj r ps) (is_NodeRep_not_nullish _ No) eq_refl)
      as [[|] C].
    { eapply Replace; eauto. }
    destruct (truthy (VStr t)) eqn:T.
    2:{ eapply (Keep _ _ _ _ _ _ _ (VStr t)); eauto using get_prop_obj. }
    assert (Ty := changed_typeof old (VObj r ps) (is_NodeRep_not_nullish _ No) eq_refl C).
    destruct old as [| | | | | |ro so|bo|ro pso|ro eo]; try discriminate.
    destruct (is_NodeRep_obj _ _ No) as (to & rao & attrso & rco & esO & Hto & Hao & Hco & Heo).
    assert (exists cs0, mapM render esO = Some cs0) as [cs0 Hm].
    { apply mapM_total. rewrite forallb_forall in Heo. apply Forall_forall.
      intros x Hin. apply render_NodeRep; auto. }
    destruct (render_obj ro pso to rao attrso rco esO cs0 Hto Hao Hco Hm) as (ao & lo & R').
    rewrite R' in Ro. injection Ro as <-.
    destruct (diff_children_loop (VObj ro pso) q i root to ao lo esO cs0
                (fun k => old_child_obj ro pso rco esO k Hco) Heo Hm elems IH He
                0 cs0 root ops)
      as (root' & cs' & log & D & U & _ & K & NR).
    { now apply replace_at_same. }
    { now rewrite Nat.max_0_r. }
    { reflexivity. }
    exists root', (Element to ao lo cs'), log.
    rewrite (diff_unchanged _ _ _ _ _ _ (VStr t)), T;
      auto using get_prop_obj.
    rewrite (forEach_children_obj _ _ _ _ _ _ Hc).
    repeat split; auto.
    intros _ j Hj. rewrite (children_of_obj _ _ _ _ Hc) in Hj.
    simpl. now rewrite K.
Qed.

(** C9.  For two node representations that are not [changed], the new
    one with fewer children than the old one, and a parent whose child at
    [index] was rendered from the old one: [diff] succeeds, removes no
    live node at all, and the live children at the positions from the
    number of new children on, rendered from the surplus old children,
    are what they were. *)
Theorem diff_keeps_trailing_children (root : Dom) (parent : NodeRef) (index : nat)
  (newNode oldNode : Val) :
  is_NodeRep newNode = true ->
  is_NodeRep oldNode = true ->
  changed oldNode newNode = Some false ->
  List.length (children_of newNode) < List.length (children_of oldNode) ->
  lookup root (parent ++ [index]) = render oldNode ->
  exists root' log,
    diff parent newNode oldNode index (root, []) = Some (root', log)
    /\ (forall op, In op log -> is_remove op = false)
    /\ (forall j, List.length (children_of newNode) <= j ->
                  lookup root' ((parent ++ [index]) ++ [j])
                  = lookup root ((parent ++ [index]) ++ [j]))
    /\ (forall j, List.length (children_of newNode) <= j ->
                  j < List.length (children_of oldNode) ->
                  lookup root' ((parent ++ [index]) ++ [j])
                  = render (nth j (children_of oldNode) VUndefined)).
Proof.
  intros Nn No C Len L.
  destruct (render_NodeRep _ No) as [d R]. rewrite R in L.
  destruct (diff_NodeRep_local _ Nn oldNode root parent index [] d No R L)
    as (root' & d' & log & D & U & NR & K).
  assert (Frame : forall j, List.length (children_of newNode) <= j ->
                            lookup root' ((parent ++ [index]) ++ [j])
                            = lookup root ((parent ++ [index]) ++ [j])).
  { intros j Hj.
    rewrite !(lookup_app _ (parent ++ [index]) [j]), (lookup_replace_at _ _ _ _ U), L.
    cbn [bind]. now apply K. }
  exists root', log. repeat split; auto.
  - now apply Forall_forall.
  - intros j Hj Ho. rewrite Frame by auto.
    destruct oldNode as [| | |n| |s|ro so|bo|ro pso|ro eo]; try discriminate.
    + rewrite children_of_text in Ho by eauto. simpl in Ho. lia.
    + rewrite children_of_text in Ho by eauto. simpl in Ho. lia.
    + rewrite children_of_text in Ho by eauto. simpl in Ho. lia.
    + destruct (is_NodeRep_obj _ _ No)
        as (to & rao & attrso & rco & esO & Hto & Hao & Hco & Heo).
      rewrite (children_of_obj _ _ _ _ Hco) in Ho |- *.
      assert (exists cs0, mapM render esO = Some cs0) as [cs0 Hm].
      { apply mapM_total. rewrite forallb_forall in Heo. apply Forall_forall.
        intros x Hin. apply render_NodeRep; auto. }
      destruct (render_obj ro pso to rao attrso rco esO cs0 Hto Hao Hco Hm)
        as (ao & lo & R').
      rewrite R' in R. injection R as <-.
      rewrite (lookup_child _ _ _ _ _ _ _ L).
      destruct (mapM_nth _ _ _ Hm) as [_ Nth].
      destruct (nth_error esO j) as [x|] eqn:Ex.
      * destruct (Nth _ _ Ex) as (y & Ry & Ny).
        now rewrite (nth_error_nth _ _ _ Ex), Ry, Ny.
      * apply nth_error_None in Ex. lia.
Qed.

Lemma diff_keeps_trailing_children_witness :
  let newNode := vNode 1 (VStr "ul") VUndefined [vNode 4 (VStr "li") VUndefined [VStr "a"]] in
  let oldNode :=
    vNode 7 (VStr "ul") VUndefined
      [vNode 10 (VStr "li") VUndefined [VStr "a"];
       vNode 13 (VStr "li") VUndefined [VStr "b"]] in
  let root :=
    Element "body" [] []
      [Element "ul" [] [] [Element "li" [] [] [Text "a"]; Element "li" [] [] [Text "b"]]] in
  exists root' log,
    diff [] newNode oldNode 0 (root, []) = Some (root', log)
    /\ (forall op, In op log -> is_remove op = false)
    /\ (forall j, List.length (children_of newNode) <= j ->
                  lookup root' (([] ++ [0]) ++ [j]) = lookup root (([] ++ [0]) ++ [j]))
    /\ (forall j, List.length (children_of newNode) <= j ->
                  j < List.length (children_of oldNode) ->
                  lookup root' (([] ++ [0]) ++ [j])
                  = render (nth j (children_of oldNode) VUndefined)).
Proof.
  intros newNode oldNode root.
  apply (diff_keeps_trailing_children root [] 0 newNode oldNode);
    try reflexivity.
  simpl. lia.
Defined.

(** * Further properties *)

(** ** Objects and spreads *)

Lemma prop_assign (ps : Props) (k k' : string) (v : Val) :
  prop (assign ps k v) k' = if String.eqb k k' then v else prop ps k'.
Proof.
  unfold prop. induction ps as [|[k0 v0] ps IH]; simpl.
  - rewrite (String.eqb_sym k k'). now destruct (String.eqb k' k).
  - destruct (String.eqb k0 k) eqn:E; simpl.
    + apply String.eqb_eq in E as ->. now destruct (String.eqb k k').
    + rewrite IH. destruct (String.eqb k0 k') eqn:E'; auto.
      apply String.eqb_eq in E' as ->. now rewrite String.eqb_sym, E.
Qed.

Lemma keys_assign_old (ps : Props) (k k' : string) (v : Val) :
  In k' (map fst ps) -> In k' (map fst (assign ps k v)).
Proof.
  induction ps as [|[k0 v0] ps IH]; simpl; [tauto|].
  destruct (String.eqb k0 k); simpl; tauto.
Qed.

Lemma keys_assign_new (ps : Props) (k : string) (v : Val) :
  In k (map fst (assign ps k v)).
Proof.
  induction ps as [|[k0 v0] ps IH]; simpl; auto.
  destruct (String.eqb k0 k) eqn:E; simpl; auto.
  apply String.eqb_eq in E. auto.
Qed.

Lemma has_key_In (ps : Props) (k : string) :
  has_key ps k = true <-> In k (map fst ps).
Proof.
  unfold has_key. rewrite existsb_exists. split.
  - intros (x & Hx & E). apply String.eqb_eq in E. now subst.
  - intros H. exists k. split; auto. apply String.eqb_refl.
Qed.

Lemma prop_absent (ps : Props) (k : string) :
  has_key ps k = false -> prop ps k = VUndefined.
Proof.
  unfold has_key, prop. induction ps as [|[k0 v0] ps IH]; simpl; auto.
  rewrite (String.eqb_sym k k0). destruct (String.eqb k0 k); simpl; auto. discriminate.
Qed.

(** What reading a key gives after a run of assignments. *)
Lemma prop_fold_assign (src t : Props) (k : string) :
  NoDup (map fst src) ->
  prop (fold_left (fun acc kv => assign acc (fst kv) (snd kv)) src t) k
  = if has_key src k then prop src k else prop t k.
Proof.
  revert t. induction src as [|[k0 v0] src IH]; simpl; intros t N; auto.
  inversion N as [|? ? Hn N']; subst. rewrite IH by auto.
  unfold has_key at 2. simpl. fold (has_key src k).
  rewrite prop_assign. unfold prop at 3. simpl. fold (prop src k).
  rewrite (String.eqb_sym k k0).
  destruct (String.eqb k0 k) eqn:E; simpl.
  - apply String.eqb_eq in E as <-.
    destruct (has_key src k0) eqn:H; auto.
    apply has_key_In in H. contradiction.
  - reflexivity.
Qed.

Lemma keys_fold_assign (src t : Props) (k : string) :
  In k (map fst t) \/ In k (map fst src) ->
  In k (map fst (fold_left (fun acc kv => assign acc (fst kv) (snd kv)) src t)).
Proof.
  revert t. induction src as [|[k0 v0] src IH]; simpl; intros t H.
  - tauto.
  - apply IH. destruct H as [H|[H|H]]; auto.
    + left. now apply keys_assign_old.
    + left. subst. apply keys_assign_new.
Qed.

Lemma prop_spread (t : Props) (source : Val) (k : string) :
  unique_keys (own_props source) ->
  prop (spread t source) k
  = if has_key (own_props source) k then prop (own_props source) k else prop t k.
Proof. apply prop_fold_assign. Qed.

Lemma prop_copy (r : nat) (ps : Props) (k : string) :
  unique_keys ps -> prop (spread [] (VObj r ps)) k = prop ps k.
Proof.
  intros U. rewrite prop_spread by exact U. simpl.
  destruct (has_key ps k) eqn:H; auto. now rewrite prop_absent.
Qed.

Lemma keys_spread (t : Props) (source : Val) (k : string) :
  In k (map fst t) \/ In k (map fst (own_props source)) ->
  In k (map fst (spread t source)).
Proof. apply keys_fold_assign. Qed.

Lemma spread_single (t : Props) (r : nat) (k : string) (v : Val) :
  spread t (VObj r [(k, v)]) = assign t k v.
Proof. reflexivity. Qed.

Lemma fresh_set_state (o : ObservableObject.t) (source : Val) :
  ObservableObject.fresh o ->
  ObservableObject.get (fst (ObservableObject.notify (ObservableObject.merged o source) o))
  = ObservableObject.merged o source.
Proof.
  intros F. unfold ObservableObject.fresh in F.
  rewrite notify_unguarded; [reflexivity|]. simpl. lia.
Qed.

(** ** ObservableObject, further *)

(** [push(key, value)] stores the value under the key and leaves every
    other property as it reads in the old snapshot. *)
Theorem ObservableObject_push_lookup (o : ObservableObject.t) (key : string) (value : Val) :
  ObservableObject.fresh o ->
  unique_keys (props (ObservableObject.object o)) ->
  let after := props (ObservableObject.get (fst (ObservableObject.push key value o))) in
  prop after key = value
  /\ forall k, k <> key -> prop after k = prop (props (ObservableObject.object o)) k.
Proof.
  intros F U after. subst after. unfold ObservableObject.push.
  rewrite fresh_set_state by exact F. cbn [ObservableObject.merged props].
  rewrite spread_single. split.
  - now rewrite prop_assign, String.eqb_refl.
  - intros k Hk. rewrite prop_assign.
    replace (String.eqb key k) with false
      by (symmetry; apply String.eqb_neq; congruence).
    now apply prop_copy.
Qed.

Lemma ObservableObject_push_lookup_witness :
  let o := ObservableObject.mk (mkObject 0 [("value", VNum 1)]) [] [] 1 in
  let after := props (ObservableObject.get (fst (ObservableObject.push "text" (VStr "Puerro") o))) in
  prop after "text" = VStr "Puerro"
  /\ forall k, k <> "text" -> prop after k = prop (props (ObservableObject.object o)) k.
Proof.
  intros o.
  apply (ObservableObject_push_lookup o "text" (VStr "Puerro")).
  - unfold ObservableObject.fresh. simpl. lia.
  - unfold unique_keys. simpl. repeat constructor. simpl. tauto.
Defined.

(** [remove(key)] does not delete the key: afterwards the key is a key
    of the snapshot, it reads [undefined], and every key the snapshot had
    is still there. *)
Theorem ObservableObject_remove_keeps_key (o : ObservableObject.t) (key : string) :
  ObservableObject.fresh o ->
  let after := props (ObservableObject.get (fst (ObservableObject.remove key o))) in
  In key (map fst after)
  /\ prop after key = VUndefined
  /\ forall k, In k (map fst (props (ObservableObject.object o))) -> In k (map fst after).
Proof.
  intros F after. subst after. unfold ObservableObject.remove.
  rewrite fresh_set_state by exact F. cbn [ObservableObject.merged props].
  rewrite spread_single. repeat split.
  - apply keys_assign_new.
  - now rewrite prop_assign, String.eqb_refl.
  - intros k Hk. apply keys_assign_old.
    apply (keys_spread [] (VObj (ref (ObservableObject.object o))
                             (props (ObservableObject.object o)))).
    now right.
Qed.

Lemma ObservableObject_remove_keeps_key_witness :
  let o := ObservableObject.mk (mkObject 0 [("value", VNum 1)]) [] [] 1 in
  let after := props (ObservableObject.get (fst (ObservableObject.remove "value" o))) in
  In "value" (map fst after)
  /\ prop after "value" = VUndefined
  /\ forall k, In k (map fst (props (ObservableObject.object o))) -> In k (map fst after).
Proof.
  intros o. apply (ObservableObject_remove_keeps_key o "value").
  unfold ObservableObject.fresh. simpl. lia.
Defined.

(** [set(partial)] overlays: a key of [partial] reads as in [partial]
    afterwards, every other key as in the old snapshot. *)
Theorem ObservableObject_set_merges (o : ObservableObject.t) (r : nat) (partial : Props) :
  ObservableObject.fresh o ->
  unique_keys (props (ObservableObject.object o)) ->
  unique_keys partial ->
  let after := props (ObservableObject.get (fst (ObservableObject.set (VObj r partial) o))) in
  forall k,
    prop after k
    = if has_key partial k then prop partial k
      else prop (props (ObservableObject.object o)) k.
Proof.
  intros F U1 U2 after k. subst after. unfold ObservableObject.set.
  rewrite fresh_set_state by exact F. cbn [ObservableObject.merged props].
  rewrite prop_spread by exact U2. cbn [own_props].
  destruct (has_key partial k); auto. now apply prop_copy.
Qed.

Lemma ObservableObject_set_merges_witness :
  let o := ObservableObject.mk (mkObject 0 [("value", VNum 1); ("text", VStr "a")]) [] [] 1 in
  let after :=
    props (ObservableObject.get (fst (ObservableObject.set (VObj 9 [("value", VNum 2)]) o))) in
  ObservableObject.fresh o
  /\ forall k,
       prop after k
       = if has_key [("value", VNum 2)] k then prop [("value", VNum 2)] k
         else prop (props (ObservableObject.object o)) k.
Proof.
  intros o.
  split; [unfold ObservableObject.fresh; simpl; lia|].
  apply (ObservableObject_set_merges o 9 [("value", VNum 2)]).
  - unfold ObservableObject.fresh. simpl. lia.
  - unfold unique_keys. simpl. repeat constructor; simpl; intuition discriminate.
  - unfold unique_keys. simpl. repeat constructor. simpl. tauto.
Defined.

Lemma assign_fresh (ps : Props) (k : string) (v : Val) :
  ~ In k (map fst ps) -> assign ps k v = ps ++ [(k, v)].
Proof.
  induction ps as [|[k0 v0] ps IH]; simpl; intros H; auto.
  destruct (String.eqb k0 k) eqn:E.
  - apply String.eqb_eq in E. tauto.
  - rewrite IH; tauto.
Qed.

Lemma keys_assign_existing (ps : Props) (k : string) (v : Val) :
  In k (map fst ps) -> map fst (assign ps k v) = map fst ps.
Proof.
  induction ps as [|[k0 v0] ps IH]; simpl; [tauto|]. intros H.
  destruct (String.eqb k0 k) eqn:E; simpl; auto.
  f_equal. apply IH. destruct H as [H|H]; auto.
  subst. now rewrite String.eqb_refl in E.
Qed.

Lemma fold_assign_fresh (src t : Props) :
  NoDup (map fst t ++ map fst src) ->
  fold_left (fun acc kv => assign acc (fst kv) (snd kv)) src t = t ++ src.
Proof.
  revert t. induction src as [|[k0 v0] src IH]; simpl; intros t N.
  - now rewrite app_nil_r.
  - assert (H : ~ In k0 (map fst t)).
    { apply NoDup_remove_2 in N. rewrite in_app_iff in N. tauto. }
    rewrite (assign_fresh _ _ _ H), IH, <- app_assoc; auto.
    rewrite map_app, <- app_assoc. exact N.
Qed.

(** Copying an object with a spread gives its properties back. *)
Lemma spread_copy (r : nat) (ps : Props) :
  unique_keys ps -> spread [] (VObj r ps) = ps.
Proof. intros U. unfold spread. simpl. now rewrite fold_assign_fresh. Qed.

Lemma unique_keys_assign (ps : Props) (k : string) (v : Val) :
  unique_keys ps -> unique_keys (assign ps k v).
Proof.
  unfold unique_keys. intros U.
  destruct (in_dec string_dec k (map fst ps)) as [H|H].
  - now rewrite keys_assign_existing.
  - rewrite (assign_fresh _ _ _ H), map_app. simpl.
    apply NoDup_app; auto.
    + repeat constructor. simpl. tauto.
    + intros x Hx [<-|[]]. contradiction.
Qed.

Lemma insert_index_Permutation (n : N) (k : string) (ks : list string) :
  Permutation (insert_index n k ks) (k :: ks).
Proof.
  induction ks as [|k' ks IH]; simpl; auto.
  destruct (array_index k') as [n'|]; [destruct (N.leb n n')|]; auto.
  rewrite IH. apply perm_swap.
Qed.

(** [Object.keys] lists each key of the object, once. *)
Lemma key_order_Permutation (ks : list string) : Permutation (key_order ks) ks.
Proof.
  unfold key_order, is_array_index. induction ks as [|k ks IH]; simpl; auto.
  destruct (array_index k) as [n|] eqn:E; simpl.
  - rewrite insert_index_Permutation. simpl. now constructor.
  - rewrite <- Permutation_middle. now constructor.
Qed.

Lemma key_order_NoDup (ks : list string) : NoDup ks -> NoDup (key_order ks).
Proof.
  intros N. eapply Permutation_NoDup; [|exact N].
  symmetry. apply key_order_Permutation.
Qed.

Lemma key_order_length (ks : list string) :
  List.length (key_order ks) = List.length ks.
Proof. apply Permutation_length, key_order_Permutation. Qed.

Lemma index_keys_none (ks : list string) :
  forallb (fun k => negb (is_array_index k)) ks = true ->
  fold_right (fun k acc => match array_index k with
                           | Some n => insert_index n k acc
                           | None => acc
                           end) [] ks = [].
Proof.
  unfold is_array_index. induction ks as [|k ks IH]; simpl; auto.
  intros H. apply andb_true_iff in H as [H1 H2].
  destruct (array_index k); [discriminate|]. auto.
Qed.

(** Keys none of which is an array index are listed as they were
    added. *)
Lemma key_order_plain (ks : list string) :
  forallb (fun k => negb (is_array_index k)) ks = true -> key_order ks = ks.
Proof.
  intros H. unfold key_order. rewrite (index_keys_none _ H). simpl.
  induction ks as [|k ks IH]; simpl; auto.
  simpl in H. apply andb_true_iff in H as [H1 H2].
  rewrite H1. f_equal. auto.
Qed.

(** A [forEach] in which one step only does something does what that
    step does. *)
Lemma forEach_trace_single {A : Type} (f : A -> Trace) (x : A) (xs : list A) :
  NoDup xs -> In x xs -> (forall y, In y xs -> y <> x -> f y = []) ->
  forEach_trace f xs = f x.
Proof.
  induction xs as [|y xs IH]; simpl; intros N I H; [tauto|].
  inversion N as [|? ? Hn N']; subst. destruct I as [->|I].
  - rewrite forEach_trace_nil.
    + rewrite app_nil_r. now destruct (throws (f x)).
    + intros z Hz. apply H; auto. congruence.
  - assert (E : f y = []) by (apply H; auto; congruence).
    rewrite E. simpl. apply IH; auto.
Qed.

Lemma read_assign (ps : Props) (k k' : string) (v : Val) :
  read (assign ps k v) k' = if String.eqb k k' then v else read ps k'.
Proof.
  unfold read. induction ps as [|[k0 v0] ps IH]; simpl.
  - rewrite (String.eqb_sym k k'). now destruct (String.eqb k' k).
  - destruct (String.eqb k0 k) eqn:E; simpl.
    + apply String.eqb_eq in E as ->. now destruct (String.eqb k k').
    + rewrite IH. destruct (String.eqb k0 k') eqn:E'; auto.
      apply String.eqb_eq in E' as ->. now rewrite String.eqb_sym, E.
Qed.

Lemma keys_assign (ps : Props) (k k' : string) (v : Val) :
  In k' (map fst (assign ps k v)) -> k' = k \/ In k' (map fst ps).
Proof.
  induction ps as [|[k0 v0] ps IH]; simpl.
  - intros [<-|[]]. auto.
  - destruct (String.eqb k0 k); simpl; tauto.
Qed.

Lemma In_prop (ps : Props) (k : string) :
  In k (map fst ps) -> In (k, prop ps k) ps.
Proof.
  unfold prop. induction ps as [|[k0 v0] ps IH]; simpl; [tauto|].
  destruct (String.eqb k0 k) eqn:E.
  - apply String.eqb_eq in E as ->. auto.
  - intros [H|H]; auto. subst. now rewrite String.eqb_refl in E.
Qed.

(** What [push] calls, for a snapshot none of whose other properties
    holds [NaN]. *)
Lemma push_trace (o : ObservableObject.t) (key : string) (value : Val) :
  ObservableObject.fresh o ->
  unique_keys (props (ObservableObject.object o)) ->
  forallb (fun kv => String.eqb (fst kv) key || strict_eq (snd kv) (snd kv))
          (props (ObservableObject.object o)) = true ->
  let old := ObservableObject.object o in
  let new := ObservableObject.get (fst (ObservableObject.push key value o)) in
  let listener_calls :=
    map (fun listener => Invoke listener [object_val new; object_val old])
        (ObservableObject.listeners o) in
  snd (ObservableObject.push key value o)
  = if strict_eq (read (props old) key) value then listener_calls
    else
      match ObservableObject.subscribers_or_empty (ObservableObject.subscribers o) key with
      | Some subscribers =>
          map (fun subscriber => Invoke subscriber [value; read (props old) key])
              subscribers
          ++ listener_calls
      | None => [Throw]
      end.
Proof.
  intros F U V old new listener_calls. subst listener_calls new.
  unfold ObservableObject.push.
  rewrite fresh_set_state by exact F.
  unfold ObservableObject.fresh in F.
  rewrite notify_unguarded by (simpl; lia).
  assert (M : props (ObservableObject.merged o
                       (VObj (S (ObservableObject.next_ref o)) [(key, value)]))
              = assign (props old) key value).
  { cbn [ObservableObject.merged props]. rewrite spread_single.
    unfold object_val. now rewrite (spread_copy _ _ U). }
  cbn [snd]. cbv zeta. fold old. rewrite M.
  rewrite (forEach_trace_single _ key).
  - unfold ObservableObject.notify_key. rewrite M, read_assign, String.eqb_refl.
    fold old. destruct (strict_eq (read (props old) key) value); [reflexivity|].
    destruct (ObservableObject.subscribers_or_empty _ key) as [cbs|]; [|reflexivity].
    now rewrite (throws_notify_all cbs [value; read (props old) key]).
  - apply key_order_NoDup. now apply unique_keys_assign.
  - apply In_key_order, keys_assign_new.
  - intros k Hk Nk. unfold ObservableObject.notify_key. rewrite M, read_assign.
    replace (String.eqb key k) with false
      by (symmetry; apply String.eqb_neq; congruence).
    apply (proj1 (In_key_order _ _)) in Hk. apply keys_assign in Hk as [Hk|Hk];
      [contradiction|].
    fold old. rewrite (has_key_read _ _ (In_has_key _ _ Hk)).
    rewrite forallb_forall in V. specialize (V _ (In_prop _ _ Hk)). cbn [fst snd] in V.
    replace (String.eqb k key) with false in V
      by (symmetry; now apply String.eqb_neq).
    simpl in V. fold old in V. now rewrite V.
Qed.

(** For a snapshot none of whose other properties holds [NaN]:
    [push(key, value)] with a value that is [===] to the one the key
    reads calls the whole-object listeners only.  When the value
    changes, it calls the subscribers of that key with [(value, old)],
    and no other subscriber, and then the whole-object listeners; but
    when the key is a name of [Object.prototype] without subscribers of
    its own it throws, and calls nobody. *)
Theorem ObservableObject_push_notifies (o : ObservableObject.t) (key : string) (value : Val) :
  ObservableObject.fresh o ->
  unique_keys (props (ObservableObject.object o)) ->
  forallb (fun kv => String.eqb (fst kv) key || strict_eq (snd kv) (snd kv))
          (props (ObservableObject.object o)) = true ->
  let old := ObservableObject.object o in
  let new := ObservableObject.get (fst (ObservableObject.push key value o)) in
  let listener_calls :=
    map (fun listener => Invoke listener [object_val new; object_val old])
        (ObservableObject.listeners o) in
  snd (ObservableObject.push key value o)
  = if strict_eq (read (props old) key) value then listener_calls
    else
      match ObservableObject.subscribers_or_empty (ObservableObject.subscribers o) key with
      | Some subscribers =>
          map (fun subscriber => Invoke subscriber [value; read (props old) key])
              subscribers
          ++ listener_calls
      | None => [Throw]
      end.
Proof. intros F U V. exact (push_trace o key value F U V). Qed.

Lemma ObservableObject_push_notifies_witness :
  let o := ObservableObject.mk (mkObject 0 [("value", VNum 1)]) [7] [("value", [3])] 1 in
  snd (ObservableObject.push "value" (VNum 2) o)
  = [ Invoke 3 [VNum 2; VNum 1];
      Invoke 7 [VObj 1 [("value", VNum 2)]; VObj 0 [("value", VNum 1)]] ]
  /\ snd (ObservableObject.push "toString" (VNum 2) o) = [Throw].
Proof.
  intros o. split.
  - apply (ObservableObject_push_notifies o "value" (VNum 2)).
    + unfold ObservableObject.fresh. simpl. lia.
    + unfold unique_keys. simpl. repeat constructor. simpl. tauto.
    + reflexivity.
  - apply (ObservableObject_push_notifies o "toString" (VNum 2)).
    + unfold ObservableObject.fresh. simpl. lia.
    + unfold unique_keys. simpl. repeat constructor. simpl. tauto.
    + reflexivity.
Defined.

(** Without the condition on the other properties it fails: a property
    that holds [NaN] counts as changed by every [push], and its
    subscribers are called with [(NaN, NaN)]. *)
Example ObservableObject_push_NaN :
  snd (ObservableObject.push "b" (VNum 1)
         (ObservableObject.mk (mkObject 0 [("a", VNaN)]) [] [("a", [3]); ("b", [4])] 1))
  = [Invoke 3 [VNaN; VNaN]; Invoke 4 [VNum 1; VUndefined]].
Proof. reflexivity. Qed.

(** What a [forEach] does, one of its steps does. *)
Lemma In_forEach_trace {A : Type} (f : A -> Trace) (xs : list A) (c : Call) :
  In c (forEach_trace f xs) -> exists x, In x xs /\ In c (f x).
Proof.
  induction xs as [|x xs IH]; simpl; [tauto|].
  destruct (throws (f x)); intros I; [eauto|].
  apply in_app_or in I as [I|I]; eauto.
  destruct (IH I) as (y & ? & ?); eauto.
Qed.

(** [replace(newObject)] with the object that is the snapshot already
    does nothing.  With another object it makes that object the
    snapshot, and a subscriber is called only for a key of the new object
    whose value differs: the subscribers of a key the new object lacks
    are not told that it is gone. *)
Theorem ObservableObject_replace_spec (o : ObservableObject.t) (newObject : JSObject) :
  (ref newObject = ref (ObservableObject.object o) ->
     ObservableObject.replace newObject o = (o, []))
  /\ (ref newObject <> ref (ObservableObject.object o) ->
      ObservableObject.get (fst (ObservableObject.replace newObject o)) = newObject
      /\ forall cb args,
           In (Invoke cb args) (snd (ObservableObject.replace newObject o)) ->
           (In cb (ObservableObject.listeners o)
            /\ args = [object_val newObject; object_val (ObservableObject.object o)])
           \/ exists k,
                In k (map fst (props newObject))
                /\ In cb (ObservableObject.subscribers_of (ObservableObject.subscribers o) k)
                /\ args = [read (props newObject) k;
                           read (props (ObservableObject.object o)) k]
                /\ read (props newObject) k = prop (props newObject) k
                /\ strict_eq (read (props (ObservableObject.object o)) k)
                     (read (props newObject) k) = false).
Proof.
  unfold ObservableObject.replace. split.
  - intros E. unfold ObservableObject.notify. now rewrite E, Nat.eqb_refl.
  - intros E. rewrite notify_unguarded by congruence. split; [reflexivity|].
    cbn [snd]. cbv zeta. intros cb args H.
    assert (Sub : In (Invoke cb args)
                     (forEach_trace
                        (ObservableObject.notify_key (ObservableObject.subscribers o)
                           newObject (ObservableObject.object o))
                        (key_order (map fst (props newObject)))) ->
                  exists k,
                    In k (map fst (props newObject))
                    /\ In cb (ObservableObject.subscribers_of
                                (ObservableObject.subscribers o) k)
                    /\ args = [read (props newObject) k;
                               read (props (ObservableObject.object o)) k]
                    /\ read (props newObject) k = prop (props newObject) k
                    /\ strict_eq (read (props (ObservableObject.object o)) k)
                         (read (props newObject) k) = false).
    { intros I. apply In_forEach_trace in I as (k & Hk & I).
      apply (proj1 (In_key_order _ _)) in Hk. exists k. split; auto.
      unfold ObservableObject.notify_key in I.
      destruct (strict_eq _ _) eqn:S; [contradiction|].
      unfold ObservableObject.subscribers_or_empty in I.
      destruct (ObservableObject.registered _ k).
      - unfold notify_all in I. apply in_map_iff in I as (x & [= <- <-] & Hx).
        repeat split; auto using has_key_read, In_has_key.
      - destruct (inherited k); simpl in I;
          [destruct I as [I|[]]; discriminate I | destruct I]. }
    destruct (throws _); [right; auto|].
    apply in_app_or in H as [H|H]; [right; auto|].
    left. unfold notify_all in H.
    apply in_map_iff in H as (x & [= <- <-] & Hx). auto.
Qed.

Lemma ObservableObject_replace_spec_witness :
  let o := ObservableObject.mk (mkObject 0 [("value", VNum 1)]) [7] [("value", [3])] 1 in
  ObservableObject.replace (mkObject 0 [("value", VNum 1)]) o = (o, [])
  /\ ObservableObject.get (fst (ObservableObject.replace (mkObject 5 []) o)) = mkObject 5 [].
Proof.
  intros o. split.
  - apply (proj1 (ObservableObject_replace_spec o (mkObject 0 [("value", VNum 1)]))).
    reflexivity.
  - apply (proj2 (ObservableObject_replace_spec o (mkObject 5 []))).
    simpl. lia.
Defined.

Lemma prop_reset (ks : list string) (acc : Props) (k : string) :
  prop (fold_left (fun acc key => assign acc key VUndefined) ks acc) k
  = if existsb (String.eqb k) ks then VUndefined else prop acc k.
Proof.
  revert acc. induction ks as [|k0 ks IH]; simpl; intros acc; auto.
  rewrite IH, prop_assign, (String.eqb_sym k k0).
  destruct (existsb (String.eqb k) ks); [now rewrite orb_true_r|].
  rewrite orb_false_r. reflexivity.
Qed.

Lemma keys_reset (ks : list string) (acc : Props) :
  incl ks (map fst acc) ->
  map fst (fold_left (fun acc key => assign acc key VUndefined) ks acc) = map fst acc.
Proof.
  revert acc. induction ks as [|k0 ks IH]; simpl; intros acc H; auto.
  assert (H0 : In k0 (map fst acc)) by (apply H; simpl; auto).
  rewrite IH; rewrite keys_assign_existing; auto.
  intros x Hx. apply H. simpl. auto.
Qed.

Lemma put_assign (ps : Props) (k : string) (v : Val) :
  String.eqb k "__proto__" = false \/ has_key ps k = true ->
  put ps k v = assign ps k v.
Proof.
  unfold put. intros [-> | ->]; auto. now rewrite andb_false_r.
Qed.

Lemma has_key_app (ps qs : Props) (k : string) :
  has_key (ps ++ qs) k = has_key ps k || has_key qs k.
Proof. unfold has_key. now rewrite map_app, existsb_app. Qed.

(** [Object.assign({}, object)] copies the properties of the object,
    except one named [__proto__]. *)
Lemma fold_put_fresh (src t : Props) :
  has_key t "__proto__" = false ->
  NoDup (map fst t ++ map fst src) ->
  fold_left (fun acc kv => put acc (fst kv) (snd kv)) src t
  = t ++ filter (fun kv => negb (String.eqb (fst kv) "__proto__")) src.
Proof.
  revert t. induction src as [|[k0 v0] src IH]; simpl; intros t P N.
  - now rewrite app_nil_r.
  - assert (H : ~ In k0 (map fst t)).
    { apply NoDup_remove_2 in N. rewrite in_app_iff in N. tauto. }
    assert (N' : NoDup (map fst t ++ map fst src)) by now apply NoDup_remove_1 in N.
    assert (N2 : NoDup (map fst (t ++ [(k0, v0)]) ++ map fst src)).
    { rewrite map_app, <- app_assoc. exact N. }
    unfold put at 2. cbn [fst snd].
    destruct (String.eqb k0 "__proto__") eqn:E; simpl.
    + apply String.eqb_eq in E as ->. rewrite P. simpl. now apply IH.
    + rewrite (assign_fresh _ _ _ H), IH, <- app_assoc; auto.
      rewrite has_key_app, P. unfold has_key. cbn [map fst existsb orb].
      now rewrite String.eqb_sym, E.
Qed.

Lemma Object_assign_copy (r : nat) (ps : Props) :
  unique_keys ps ->
  Bundled.Object_assign (VObj r ps)
  = filter (fun kv => negb (String.eqb (fst kv) "__proto__")) ps.
Proof.
  intros U. unfold Bundled.Object_assign. simpl.
  now rewrite fold_put_fresh.
Qed.

Lemma reset_put (ks : list string) (acc : Props) :
  incl ks (map fst acc) ->
  fold_left (fun acc key => put acc key VUndefined) ks acc
  = fold_left (fun acc key => assign acc key VUndefined) ks acc.
Proof.
  revert acc. induction ks as [|k0 ks IH]; simpl; intros acc H; auto.
  assert (H0 : In k0 (map fst acc)) by (apply H; simpl; auto).
  rewrite put_assign by (right; now apply In_has_key).
  apply IH. rewrite keys_assign_existing by auto.
  intros x Hx. apply H. simpl. auto.
Qed.

Lemma keys_filter_NoDup (f : string * Val -> bool) (ps : Props) :
  NoDup (map fst ps) -> NoDup (map fst (filter f ps)).
Proof.
  induction ps as [|kv ps IH]; simpl; intros N; auto.
  inversion N as [|? ? Hn N']; subst.
  destruct (f kv); simpl; auto. constructor; auto.
  intros H. apply Hn. apply in_map_iff in H as (x & <- & Hx).
  apply filter_In in Hx as [Hx _]. now apply in_map.
Qed.

(** The [replace] of the test bundle clears what the new object does
    not name: afterwards a key of the new object reads as in the new
    object, every other key reads [undefined], and every key of the old
    snapshot is still a key, except [__proto__], which
    [Object.assign] does not copy. *)
Theorem Bundled_replace_clears (o : ObservableObject.t) (newObject : Val) :
  ObservableObject.fresh o ->
  unique_keys (props (ObservableObject.object o)) ->
  unique_keys (own_props newObject) ->
  let after := props (ObservableObject.get (fst (Bundled.replace newObject o))) in
  (forall k, prop after k
             = if has_key (own_props newObject) k then prop (own_props newObject) k
               else VUndefined)
  /\ (forall k, k <> "__proto__" ->
                In k (map fst (props (ObservableObject.object o))) ->
                In k (map fst after)).
Proof.
  intros F U1 U2 after. subst after. unfold Bundled.replace.
  unfold ObservableObject.fresh in F.
  rewrite notify_unguarded by (simpl; lia). cbn [fst ObservableObject.get ObservableObject.object props].
  set (copy := filter (fun kv => negb (String.eqb (fst kv) "__proto__"))
                 (props (ObservableObject.object o))).
  assert (E : Bundled.emptyObject o
              = fold_left (fun acc key => assign acc key VUndefined)
                  (key_order (map fst copy)) copy).
  { unfold Bundled.emptyObject, object_val. rewrite (Object_assign_copy _ _ U1).
    fold copy. apply reset_put. intros x Hx. now apply In_key_order. }
  assert (K : map fst (Bundled.emptyObject o) = map fst copy).
  { rewrite E. apply keys_reset. intros x Hx. now apply In_key_order. }
  assert (U : unique_keys (Bundled.emptyObject o)).
  { unfold unique_keys. rewrite K. now apply keys_filter_NoDup. }
  split.
  - intros k. rewrite prop_spread by exact U2.
    destruct (has_key (own_props newObject) k); auto.
    rewrite (prop_copy _ _ _ U), E, prop_reset.
    destruct (existsb (String.eqb k) (key_order (map fst copy))) eqn:H; auto.
    apply prop_absent. apply not_true_is_false. intros X.
    apply has_key_In, In_key_order in X.
    assert (Y : existsb (String.eqb k) (key_order (map fst copy)) = true).
    { apply existsb_exists. exists k. split; auto using String.eqb_refl. }
    congruence.
  - intros k P Hk. apply keys_spread. left. rewrite (spread_copy _ _ U), K.
    apply in_map_iff in Hk as ([k' v] & <- & Hin). apply in_map_iff.
    exists (k', v). split; auto. apply filter_In. split; auto.
    simpl in P |- *. apply negb_true_iff. now apply String.eqb_neq.
Qed.

Lemma Bundled_replace_clears_witness :
  let o := ObservableObject.mk
             (mkObject 0 [("value", VNum 1); ("text", VStr "Puerro")]) [] [] 1 in
  let newObject := VObj 9 [("text", VStr "Huerto")] in
  let after := props (ObservableObject.get (fst (Bundled.replace newObject o))) in
  (forall k, prop after k
             = if has_key (own_props newObject) k then prop (own_props newObject) k
               else VUndefined)
  /\ (forall k, k <> "__proto__" ->
                In k (map fst (props (ObservableObject.object o))) ->
                In k (map fst after)).
Proof.
  intros o newObject. apply (Bundled_replace_clears o newObject).
  - unfold ObservableObject.fresh. simpl. lia.
  - unfold unique_keys. simpl. repeat constructor; simpl; intuition discriminate.
  - unfold unique_keys. simpl. repeat constructor. simpl. tauto.
Defined.

(** A key [__proto__] of the snapshot, which a [push] can make, is gone
    after the [replace] of the test bundle. *)
Example Bundled_replace_drops_proto :
  props (ObservableObject.get
           (fst (Bundled.replace (VObj 9 [])
                   (ObservableObject.mk (mkObject 0 [("__proto__", VNum 1)]) [] [] 1))))
  = [].
Proof. reflexivity. Qed.

(** The [model] of a controller reads a key from its own state when the
    state has the key, and from the shared store otherwise. *)
Theorem Controller_model_state_first (store state : ObservableObject.t) (k : string) :
  unique_keys (props (ObservableObject.get store)) ->
  unique_keys (props (ObservableObject.get state)) ->
  prop (Controller.model store state) k
  = if has_key (props (ObservableObject.get state)) k
    then prop (props (ObservableObject.get state)) k
    else prop (props (ObservableObject.get store)) k.
Proof.
  intros U1 U2. unfold Controller.model.
  rewrite prop_spread by exact U2. cbn [object_val own_props].
  destruct (has_key _ k); auto. now apply prop_copy.
Qed.

Lemma Controller_model_state_first_witness :
  let store := ObservableObject.ObservableObject (mkObject 0 [("user", VStr "a")]) in
  let state := ObservableObject.ObservableObject (mkObject 1 [("counter", VNum 0)]) in
  prop (Controller.model store state) "user" = VStr "a".
Proof.
  intros store state.
  apply (Controller_model_state_first store state "user");
    unfold unique_keys; simpl; repeat constructor; simpl; tauto.
Defined.

(** ** ObservableList, further *)

Lemma index_of_first (xs : list Val) (item : Val) (i : nat) :
  ObservableList.index_of xs item = Some i ->
  strict_eq (nth i xs VUndefined) item = true
  /\ forall j, j < i -> strict_eq (nth j xs VUndefined) item = false.
Proof.
  revert i. induction xs as [|x xs IH]; simpl; intros i H; [discriminate|].
  destruct (strict_eq x item) eqn:E.
  - injection H as <-. split; auto. intros j Hj. lia.
  - destruct (ObservableList.index_of xs item) as [i'|]; [|discriminate].
    injection H as <-. destruct (IH _ eq_refl) as [H1 H2]. split; auto.
    intros [|j] Hj; auto. apply H2. lia.
Qed.

Lemma index_of_none (xs : list Val) (item : Val) :
  ObservableList.index_of xs item = None <->
  forall x, In x xs -> strict_eq x item = false.
Proof.
  induction xs as [|x xs IH]; simpl.
  - split; auto. intros _ x [].
  - destruct (strict_eq x item) eqn:E.
    + split; [discriminate|]. intros H. rewrite (H x) in E; auto. discriminate.
    + destruct (ObservableList.index_of xs item).
      * split; [discriminate|]. intros H.
        assert (N : Some n = None) by (apply IH; intros y Hy; apply H; auto).
        discriminate N.
      * split; auto. intros _ y [<-|Hy]; auto. apply (proj1 IH); auto.
Qed.

(** [indexOf(item)] answers the first position holding a value [===] to
    the item, a position inside the list at which [get] returns such a
    value; it answers "none" exactly when no element is [===] to the
    item. *)
Theorem ObservableList_indexOf_get (o : ObservableList.t) (item : Val) :
  (forall i, ObservableList.indexOf item o = Some i ->
             i < ObservableList.count o
             /\ strict_eq (ObservableList.get i o) item = true
             /\ forall j, j < i -> strict_eq (ObservableList.get j o) item = false)
  /\ (ObservableList.indexOf item o = None <->
      forall x, In x (ObservableList.getAll o) -> strict_eq x item = false).
Proof.
  unfold ObservableList.indexOf, ObservableList.count, ObservableList.get,
    ObservableList.getAll.
  split.
  - intros i H. split; [eapply index_of_bound; eauto|]. now apply index_of_first.
  - apply index_of_none.
Qed.

Lemma ObservableList_indexOf_get_witness :
  let o := ObservableList.ObservableList [VStr "a"; VStr "b"; VStr "b"] in
  1 < ObservableList.count o
  /\ strict_eq (ObservableList.get 1 o) (VStr "b") = true
  /\ forall j, j < 1 -> strict_eq (ObservableList.get j o) (VStr "b") = false.
Proof.
  intros o.
  apply (proj1 (ObservableList_indexOf_get o (VStr "b")) 1). reflexivity.
Defined.

(** [remove(item)] takes out one element, the first that is [===] to
    the item, when there is one, and leaves the list alone when there is
    none; the [onRemove] listeners are called with the item in both
    cases. *)
Theorem ObservableList_remove_spec (o : ObservableList.t) (item : Val) :
  snd (ObservableList.remove item o)
  = map (fun listener => Invoke listener [item]) (ObservableList.removeListeners o)
  /\ (ObservableList.indexOf item o = None ->
      ObservableList.getAll (fst (ObservableList.remove item o)) = ObservableList.getAll o)
  /\ (forall i, ObservableList.indexOf item o = Some i ->
        ObservableList.getAll (fst (ObservableList.remove item o))
        = remove_nth i (ObservableList.getAll o)
        /\ S (ObservableList.count (fst (ObservableList.remove item o)))
           = ObservableList.count o).
Proof.
  unfold ObservableList.remove, ObservableList.indexOf, ObservableList.getAll,
    ObservableList.count. simpl.
  repeat split.
  - now intros ->.
  - now rewrite H.
  - rewrite H. apply index_of_bound in H.
    rewrite length_remove_nth by auto. lia.
Qed.

Lemma ObservableList_remove_spec_witness :
  let o := ObservableList.mk [VNum 1] [] [4] [] in
  ObservableList.getAll (fst (ObservableList.remove (VNum 2) o)) = ObservableList.getAll o.
Proof.
  intros o.
  apply (proj1 (proj2 (ObservableList_remove_spec o (VNum 2)))). reflexivity.
Defined.

Lemma nth_set_nth {A : Type} (i j : nat) (x d : A) (xs : list A) :
  nth j (set_nth i x xs) d
  = if Nat.eqb i j && Nat.ltb j (List.length xs) then x else nth j xs d.
Proof.
  revert i j. induction xs as [|y xs IH]; intros [|i] [|j]; simpl; auto.
  now rewrite andb_false_r.
Qed.

(** [replace(item, newItem)] puts [newItem] at the first position
    holding the item and changes no other position and not the length;
    without such a position the list stays as it is.  The [onReplace]
    listeners are called with [(newItem, item)] in both cases. *)
Theorem ObservableList_replace_spec (o : ObservableList.t) (item newItem : Val) :
  let o' := fst (ObservableList.replace item newItem o) in
  ObservableList.count o' = ObservableList.count o
  /\ snd (ObservableList.replace item newItem o)
     = map (fun listener => Invoke listener [newItem; item])
           (ObservableList.replaceListeners o)
  /\ (ObservableList.indexOf item o = None ->
      ObservableList.getAll o' = ObservableList.getAll o)
  /\ (forall i, ObservableList.indexOf item o = Some i ->
        ObservableList.get i o' = newItem
        /\ forall j, j <> i -> ObservableList.get j o' = ObservableList.get j o).
Proof.
  unfold ObservableList.replace, ObservableList.indexOf, ObservableList.getAll,
    ObservableList.count, ObservableList.get. simpl.
  repeat split.
  - destruct (ObservableList.index_of _ item); auto using length_set_nth.
  - now intros ->.
  - rewrite H. apply index_of_bound in H.
    rewrite nth_set_nth, Nat.eqb_refl.
    now apply Nat.ltb_lt in H as ->.
  - intros j Hj. rewrite H, nth_set_nth.
    replace (Nat.eqb i j) with false by (symmetry; apply Nat.eqb_neq; congruence).
    reflexivity.
Qed.

Lemma ObservableList_replace_spec_witness :
  let o := ObservableList.ObservableList [VStr "a"; VStr "b"] in
  let o' := fst (ObservableList.replace (VStr "b") (VStr "c") o) in
  ObservableList.get 1 o' = VStr "c"
  /\ forall j, j <> 1 -> ObservableList.get j o' = ObservableList.get j o.
Proof.
  intros o.
  apply (proj2 (proj2 (proj2 (ObservableList_replace_spec o (VStr "b") (VStr "c")))) 1).
  reflexivity.
Defined.

Lemma countIf_from (pred : Val -> bool) (xs : list Val) (sum : nat) :
  fold_left (fun sum item => if pred item then sum + 1 else sum) xs sum
  = sum + List.length (filter pred xs).
Proof.
  revert sum. induction xs as [|x xs IH]; simpl; intros sum; [lia|].
  rewrite IH. destruct (pred x); simpl; lia.
Qed.

(** [countIf(pred)] is the number of elements that satisfy [pred]: at
    most [count()], and [count()] exactly when all of them do. *)
Theorem ObservableList_countIf_spec (o : ObservableList.t) (pred : Val -> bool) :
  ObservableList.countIf pred o = List.length (filter pred (ObservableList.getAll o))
  /\ ObservableList.countIf pred o <= ObservableList.count o
  /\ (ObservableList.countIf pred o = ObservableList.count o <->
      forall x, In x (ObservableList.getAll o) -> pred x = true).
Proof.
  unfold ObservableList.countIf, ObservableList.count, ObservableList.getAll.
  rewrite countIf_from. simpl. repeat split.
  - apply filter_length_le.
  - intros H x Hx.
    induction (ObservableList.list o) as [|y ys IH]; simpl in *; [tauto|].
    destruct (pred y) eqn:P; simpl in H.
    + destruct Hx as [<-|Hx]; auto.
    + pose proof (filter_length_le pred ys). lia.
  - intros H. induction (ObservableList.list o) as [|y ys IH]; simpl in *; auto.
    rewrite (H y) by auto. simpl. f_equal. apply IH. auto.
Qed.

(** [add(item)] puts the item last: the list grows by one, [get] finds
    the item at the old [count()], and the elements before keep their
    positions.  Afterwards [indexOf(item)] answers a position, not
    beyond the old [count()], for an item that is [===] to itself; for
    [NaN] it still answers "none". *)
Theorem ObservableList_add_appends (o : ObservableList.t) (item : Val) :
  let o' := fst (ObservableList.add item o) in
  ObservableList.count o' = S (ObservableList.count o)
  /\ ObservableList.get (ObservableList.count o) o' = item
  /\ (forall j, j < ObservableList.count o ->
                ObservableList.get j o' = ObservableList.get j o)
  /\ (if strict_eq item item
      then exists i, ObservableList.indexOf item o' = Some i
                     /\ i <= ObservableList.count o
      else ObservableList.indexOf item o' = None).
Proof.
  unfold ObservableList.add, ObservableList.count, ObservableList.get,
    ObservableList.indexOf. simpl.
  split; [|split; [|split]].
  - rewrite length_app. simpl. lia.
  - now rewrite nth_middle.
  - intros j Hj. now apply app_nth1.
  - destruct (strict_eq item item) eqn:S; [|now apply index_of_NaN].
    destruct (ObservableList.index_of (ObservableList.list o) item) as [i|] eqn:E.
    + exists i. split; [now apply index_of_app_found|].
      apply index_of_bound in E. lia.
    + exists (List.length (ObservableList.list o)). split; auto.
      now apply index_of_pushed.
Qed.

(** ** EventManager *)

Lemma subscribers_of_set (subs : list (string * list nat)) (name name' : string)
  (cbs : list nat) :
  ObservableObject.subscribers_of (EventManager.set_subscribers subs name cbs) name'
  = if String.eqb name name' then cbs else ObservableObject.subscribers_of subs name'.
Proof.
  induction subs as [|[k c] subs IH]; simpl.
  - now rewrite String.eqb_sym.
  - destruct (String.eqb k name) eqn:E; simpl.
    + apply String.eqb_eq in E as ->. now destruct (String.eqb name name').
    + rewrite IH. destruct (String.eqb k name') eqn:E'; auto.
      apply String.eqb_eq in E' as ->. now rewrite String.eqb_sym, E.
Qed.

Lemma subscribers_of_add (subs : list (string * list nat)) (name name' : string)
  (cb : nat) :
  ObservableObject.subscribers_of (ObservableObject.add_subscriber subs name cb) name'
  = if String.eqb name name' then ObservableObject.subscribers_of subs name ++ [cb]
    else ObservableObject.subscribers_of subs name'.
Proof.
  induction subs as [|[k c] subs IH]; simpl.
  - now rewrite String.eqb_sym.
  - destruct (String.eqb k name) eqn:E; simpl.
    + apply String.eqb_eq in E as ->. now destruct (String.eqb name name').
    + rewrite IH. destruct (String.eqb k name') eqn:E'; auto.
      apply String.eqb_eq in E' as ->. now rewrite String.eqb_sym, E.
Qed.

Lemma registered_set (subs : list (string * list nat)) (name name' : string)
  (cbs : list nat) :
  ObservableObject.registered (EventManager.set_subscribers subs name cbs) name'
  = String.eqb name name' || ObservableObject.registered subs name'.
Proof.
  unfold ObservableObject.registered.
  induction subs as [|[k c] subs IH]; simpl.
  - now rewrite orb_false_r.
  - destruct (String.eqb k name) eqn:E; simpl.
    + apply String.eqb_eq in E as ->. now destruct (String.eqb name name').
    + rewrite IH. destruct (String.eqb k name'); simpl; auto.
      now rewrite orb_true_r.
Qed.

Lemma registered_add (subs : list (string * list nat)) (name name' : string)
  (cb : nat) :
  ObservableObject.registered (ObservableObject.add_subscriber subs name cb) name'
  = String.eqb name name' || ObservableObject.registered subs name'.
Proof.
  unfold ObservableObject.registered.
  induction subs as [|[k c] subs IH]; simpl.
  - now rewrite orb_false_r.
  - destruct (String.eqb k name) eqn:E; simpl.
    + apply String.eqb_eq in E as ->. now destruct (String.eqb name name').
    + rewrite IH. destruct (String.eqb k name'); simpl; auto.
      now rewrite orb_true_r.
Qed.

Lemma subscribers_of_unregistered (subs : list (string * list nat)) (name : string) :
  ObservableObject.registered subs name = false ->
  ObservableObject.subscribers_of subs name = [].
Proof.
  unfold ObservableObject.registered.
  induction subs as [|[k c] subs IH]; simpl; auto.
  destruct (String.eqb k name); simpl; [discriminate|auto].
Qed.

(** Under a name that is not one of [Object.prototype] the lookup
    answers the callbacks registered. *)
Lemma subscribers_or_empty_plain (subs : list (string * list nat)) (name : string) :
  inherited name = false ->
  ObservableObject.subscribers_or_empty subs name
  = Some (ObservableObject.subscribers_of subs name).
Proof.
  intros I. unfold ObservableObject.subscribers_or_empty. rewrite I.
  destruct (ObservableObject.registered subs name) eqn:R; auto.
  now rewrite subscribers_of_unregistered.
Qed.

Lemma subscribers_or_empty_set (subs : list (string * list nat)) (name name' : string)
  (cbs : list nat) :
  ObservableObject.subscribers_or_empty (EventManager.set_subscribers subs name cbs) name'
  = if String.eqb name name' then Some cbs
    else ObservableObject.subscribers_or_empty subs name'.
Proof.
  unfold ObservableObject.subscribers_or_empty.
  rewrite registered_set, subscribers_of_set.
  now destruct (String.eqb name name').
Qed.

Lemma subscribers_or_empty_add (subs : list (string * list nat)) (name name' : string)
  (cb : nat) :
  ObservableObject.subscribers_or_empty (ObservableObject.add_subscriber subs name cb) name'
  = if String.eqb name name'
    then Some (ObservableObject.subscribers_of subs name ++ [cb])
    else ObservableObject.subscribers_or_empty subs name'.
Proof.
  unfold ObservableObject.subscribers_or_empty.
  rewrite registered_add, subscribers_of_add.
  now destruct (String.eqb name name').
Qed.

(** After [unsubscribe(name, s)] a [publish] under that name no longer
    calls [s], however often it was subscribed, and does what else it
    did before, in the same order; a [publish] under another name is not
    affected. *)
Theorem EventManager_unsubscribe_spec (m : EventManager.t) (name : string) (s : nat)
  (data : Val) :
  let m' := fst (EventManager.unsubscribe name s m) in
  EventManager.publish name data m'
  = filter (fun c => match c with
                     | Invoke cb _ => negb (Nat.eqb cb s)
                     | Throw => true
                     end)
      (EventManager.publish name data m)
  /\ (forall args, ~ In (Invoke s args) (EventManager.publish name data m'))
  /\ (forall name', name' <> name ->
        EventManager.publish name' data m' = EventManager.publish name' data m).
Proof.
  unfold EventManager.unsubscribe, EventManager.publish.
  destruct (ObservableObject.subscribers_or_empty (EventManager.subscribers m) name)
    as [cbs|] eqn:E; cbn [fst EventManager.subscribers].
  - rewrite subscribers_or_empty_set, String.eqb_refl. split; [|split].
    + unfold notify_all. clear E.
      induction cbs as [|c cs IH]; simpl; auto.
      destruct (Nat.eqb c s); simpl; congruence.
    + intros args H. unfold notify_all in H.
      apply in_map_iff in H as (x & [= -> <-] & Hx).
      apply filter_In in Hx as [_ Hx]. now rewrite Nat.eqb_refl in Hx.
    + intros name' Hn. rewrite subscribers_or_empty_set.
      replace (String.eqb name name') with false
        by (symmetry; apply String.eqb_neq; congruence).
      reflexivity.
  - rewrite E. split; [reflexivity|]. split; [|reflexivity].
    intros args [H|[]]. discriminate H.
Qed.

(** [subscribe(name, s)] under a name that is not one of
    [Object.prototype] makes a [publish] under that name call [s] once
    more, after the subscribers there were.  Under a name of
    [Object.prototype] it throws and registers nothing, and so does every
    [publish] under that name.  A [publish] under another name is not
    affected. *)
Theorem EventManager_subscribe_spec (m : EventManager.t) (name : string) (s : nat)
  (data : Val) :
  let m' := fst (EventManager.subscribe name s m) in
  (inherited name = false ->
   snd (EventManager.subscribe name s m) = []
   /\ EventManager.publish name data m'
      = EventManager.publish name data m ++ [Invoke s [data]])
  /\ (inherited name = true ->
      ObservableObject.registered (EventManager.subscribers m) name = false ->
      EventManager.subscribe name s m = (m, [Throw])
      /\ EventManager.publish name data m' = [Throw])
  /\ (forall name', name' <> name ->
        EventManager.publish name' data m' = EventManager.publish name' data m)
  /\ EventManager.publish name data EventManager.EventManager
     = if inherited name then [Throw] else [].
Proof.
  unfold EventManager.subscribe, EventManager.publish. split; [|split; [|split]].
  - intros I. rewrite (subscribers_or_empty_plain _ _ I).
    cbn [fst snd EventManager.subscribers]. split; [reflexivity|].
    rewrite subscribers_or_empty_add, String.eqb_refl.
    unfold notify_all. now rewrite map_app.
  - intros I R. unfold ObservableObject.subscribers_or_empty. rewrite I, R.
    cbn [fst]. now rewrite R.
  - intros name' Hn.
    destruct (ObservableObject.subscribers_or_empty (EventManager.subscribers m) name);
      cbn [fst EventManager.subscribers]; [|reflexivity].
    rewrite subscribers_or_empty_add.
    replace (String.eqb name name') with false
      by (symmetry; apply String.eqb_neq; congruence).
    reflexivity.
  - unfold ObservableObject.subscribers_or_empty. simpl.
    now destruct (inherited name).
Qed.

Lemma EventManager_subscribe_spec_witness :
  EventManager.publish "saved" (VNum 1)
    (fst (EventManager.subscribe "saved" 2 (EventManager.mk [("saved", [1])])))
  = [Invoke 1 [VNum 1]; Invoke 2 [VNum 1]]
  /\ EventManager.subscribe "constructor" 2 EventManager.EventManager
     = (EventManager.EventManager, [Throw]).
Proof.
  split.
  - apply (proj1 (EventManager_subscribe_spec (EventManager.mk [("saved", [1])])
                    "saved" 2 (VNum 1))).
    reflexivity.
  - apply (proj1 (proj2 (EventManager_subscribe_spec EventManager.EventManager
                           "constructor" 2 VUndefined))); reflexivity.
Defined.

(** A subscriber registered with [subscribe(key, cb)], for a key that
    is not a name of [Object.prototype], is called by a later
    [push(key, value)] that changes the value, last among the
    subscribers of the key, with [(value, old)]; no other property of
    the snapshot holding [NaN], the subscribers of the key and the
    whole-object listeners are all that is called. *)
Theorem ObservableObject_subscribe_then_push (o : ObservableObject.t) (key : string)
  (cb : nat) (value : Val) :
  ObservableObject.fresh o ->
  unique_keys (props (ObservableObject.object o)) ->
  forallb (fun kv => String.eqb (fst kv) key || strict_eq (snd kv) (snd kv))
          (props (ObservableObject.object o)) = true ->
  inherited key = false ->
  strict_eq (prop (props (ObservableObject.object o)) key) value = false ->
  let o1 := fst (ObservableObject.subscribe key cb o) in
  exists new,
    snd (ObservableObject.push key value o1)
    = map (fun subscriber =>
             Invoke subscriber [value; prop (props (ObservableObject.object o)) key])
          (ObservableObject.subscribers_of (ObservableObject.subscribers o) key)
      ++ [Invoke cb [value; prop (props (ObservableObject.object o)) key]]
      ++ map (fun listener => Invoke listener [new; object_val (ObservableObject.object o)])
             (ObservableObject.listeners o).
Proof.
  intros F U V I S o1.
  exists (object_val (ObservableObject.get (fst (ObservableObject.push key value o1)))).
  assert (E : o1 = ObservableObject.mk (ObservableObject.object o)
                     (ObservableObject.listeners o)
                     (ObservableObject.add_subscriber (ObservableObject.subscribers o)
                        key cb)
                     (ObservableObject.next_ref o)).
  { unfold o1, ObservableObject.subscribe.
    now rewrite (subscribers_or_empty_plain _ _ I). }
  rewrite (push_trace o1 key value); rewrite E;
    cbn [ObservableObject.object ObservableObject.subscribers
         ObservableObject.listeners]; auto.
  rewrite (inherited_read _ _ I), S, subscribers_or_empty_add, String.eqb_refl,
    map_app, <- app_assoc.
  reflexivity.
Qed.

Lemma ObservableObject_subscribe_then_push_witness :
  let o := ObservableObject.mk (mkObject 0 [("value", VNum 1)]) [7] [("value", [3])] 1 in
  exists new,
    snd (ObservableObject.push "value" (VNum 2)
           (fst (ObservableObject.subscribe "value" 5 o)))
    = map (fun subscriber =>
             Invoke subscriber [VNum 2; prop (props (ObservableObject.object o)) "value"])
          (ObservableObject.subscribers_of (ObservableObject.subscribers o) "value")
      ++ [Invoke 5 [VNum 2; prop (props (ObservableObject.object o)) "value"]]
      ++ map (fun listener => Invoke listener [new; object_val (ObservableObject.object o)])
             (ObservableObject.listeners o).
Proof.
  intros o. apply (ObservableObject_subscribe_then_push o "value" 5 (VNum 2)).
  - unfold ObservableObject.fresh. simpl. lia.
  - unfold unique_keys. simpl. repeat constructor. simpl. tauto.
  - reflexivity.
  - reflexivity.
  - reflexivity.
Defined.

(** ** createDomElement and render *)

Lemma prop_In (ps : Props) (k : string) (v : Val) :
  unique_keys ps -> In (k, v) ps -> prop ps k = v.
Proof.
  unfold unique_keys, prop. induction ps as [|[k0 v0] ps IH]; simpl; intros U H; [tauto|].
  inversion U as [|? ? Hn U']; subst. destruct H as [[= -> ->]|H].
  - now rewrite String.eqb_refl.
  - destruct (String.eqb k0 k) eqn:E; auto.
    apply String.eqb_eq in E as ->. exfalso. apply Hn.
    apply in_map_iff. now exists (k, v).
Qed.

Lemma setAttribute_fresh (attrs : list (string * string)) (key text : string) :
  ~ In key (map fst attrs) -> setAttribute attrs key text = attrs ++ [(key, text)].
Proof.
  induction attrs as [|[k t] attrs IH]; simpl; intros H; auto.
  destruct (String.eqb k key) eqn:E.
  - apply String.eqb_eq in E. tauto.
  - rewrite IH; tauto.
Qed.

Lemma keys_own_entries (ps : Props) : map fst (own_entries ps) = key_order (map fst ps).
Proof. unfold own_entries. rewrite map_map. simpl. apply map_id. Qed.

Lemma keys_rendered_attributes (attrs : Props) (k : string) :
  In k (map fst (rendered_attributes attrs)) -> In k (map fst attrs).
Proof.
  unfold rendered_attributes. rewrite map_map. simpl.
  intros H. apply in_map_iff in H as (kv & <- & H).
  apply filter_In in H as [H _]. apply In_key_order.
  rewrite <- keys_own_entries. now apply in_map.
Qed.

Lemma apply_attributes_spec (r : nat) (attrs rest : Props) (t : string)
  (cs : list Dom) :
  (forall k v, In (k, v) rest -> read attrs k = v) ->
  NoDup (map fst rest) ->
  forall (a : list (string * string)) (l : list (string * Val)),
    (forall k, In k (map fst rest) -> ~ In k (map fst a)) ->
    apply_attributes (VObj r attrs) (Element t a l cs)
      (filter (fun key => match get_prop (VObj r attrs) key with
                          | Some v => negb (nullish v)
                          | None => false
                          end) (map fst rest))
    = Some (Element t
              (a ++ map (fun kv => (fst kv, String_of (snd kv)))
                      (filter (fun kv => negb (nullish (snd kv))
                                         && negb (is_function (snd kv))) rest))
              (l ++ filter (fun kv => is_function (snd kv)) rest) cs).
Proof.
  induction rest as [|[k v] rest IH]; intros P N a l D.
  - simpl. now rewrite !app_nil_r.
  - inversion N as [|? ? Hn N']; subst.
    assert (Pk : read attrs k = v) by (apply P; simpl; auto).
    assert (IH' := IH (fun k' v' H => P k' v' (or_intror H)) N').
    assert (G : get_prop (VObj r attrs) k = Some v) by (rewrite <- Pk; reflexivity).
    cbn [map fst filter]. rewrite G. cbn [filter snd].
    destruct (nullish v) eqn:Nv.
    + assert (Fv : is_function v = false) by (destruct v; try discriminate; reflexivity).
      rewrite Fv. cbn [negb andb]. apply IH'.
      intros k' Hk'. apply D. simpl. auto.
    + cbn [negb andb apply_attributes]. unfold apply_attribute.
      rewrite G. cbn [bind].
      fold (is_function v).
      destruct (is_function v) eqn:Fv; cbn [negb map fst snd bind].
      * rewrite IH'.
        -- now rewrite <- app_assoc.
        -- intros k' Hk'. apply D. simpl. auto.
      * rewrite setAttribute_fresh by (apply D; simpl; auto).
        rewrite IH'.
        -- now rewrite <- app_assoc.
        -- intros k' Hk'. rewrite map_app, in_app_iff. simpl.
           intros [H|[<-|[]]]; [|contradiction].
           revert H. apply D. simpl. auto.
Qed.

Lemma read_own_entries (ps : Props) (k : string) (v : Val) :
  In (k, v) (own_entries ps) -> read ps k = v.
Proof.
  unfold own_entries. intros H. apply in_map_iff in H as (k' & [= -> <-] & Hk).
  apply (proj1 (In_key_order _ _)) in Hk. now apply has_key_read, In_has_key.
Qed.

(** [createDomElement(tagName, attributes)] makes an element without
    children.  Of an attribute object it keeps, in the order of
    [Object.keys], the function properties as event listeners and the
    others as attributes with the value as text; a property that is
    [null] or [undefined] leaves nothing.  Omitted attributes give a bare
    element; [null] for the attributes makes it throw. *)
Theorem createDomElement_spec (tagName : Val) (r : nat) (attrs : Props) :
  (unique_keys attrs ->
   createDomElement tagName (VObj r attrs)
   = Some (Element (String_of tagName) (rendered_attributes attrs)
             (rendered_listeners attrs) []))
  /\ createDomElement tagName VUndefined = Some (Element (String_of tagName) [] [] [])
  /\ createDomElement tagName VNull = None.
Proof.
  repeat split. intros U. unfold createDomElement. cbn [keys bind].
  rewrite <- keys_own_entries.
  apply (apply_attributes_spec r attrs (own_entries attrs) (String_of tagName) []
           (read_own_entries attrs)).
  - rewrite keys_own_entries. now apply key_order_NoDup.
  - intros k _ [].
Qed.

Lemma createDomElement_spec_witness :
  createDomElement (VStr "button")
    (VObj 1 [("type", VStr "button"); ("title", VNull); ("click", VFun 2 "_ => go()");
             ("tabindex", VNum 3)])
  = Some (Element "button" [("type", "button"); ("tabindex", "3")]
            [("click", VFun 2 "_ => go()")] []).
Proof.
  apply (proj1 (createDomElement_spec (VStr "button") 1
                  [("type", VStr "button"); ("title", VNull); ("click", VFun 2 "_ => go()");
                   ("tabindex", VNum 3)])).
  unfold unique_keys. simpl. repeat constructor; simpl; intuition discriminate.
Defined.

Lemma apply_attributes_shape (A : Val) (ks : list string) (t : string)
  (a : list (string * string)) (l : list (string * Val)) (cs : list Dom) (e : Dom) :
  apply_attributes A (Element t a l cs) ks = Some e ->
  exists a' l', e = Element t a' l' cs.
Proof.
  revert a l. induction ks as [|k ks IH]; simpl; intros a l H.
  - injection H as <-. eauto.
  - unfold apply_attribute in H. destruct (get_prop A k) as [v|]; [|discriminate].
    cbn [bind] in H. destruct (String.eqb (typeof v) "function"); cbn [bind] in H; eauto.
Qed.

Lemma createDomElement_shape (tagName attributes : Val) (e : Dom) :
  createDomElement tagName attributes = Some e ->
  exists a l, e = Element (String_of tagName) a l [].
Proof.
  unfold createDomElement. intros H.
  destruct (keys _) as [ks|]; [|discriminate]. cbn [bind] in H.
  eapply apply_attributes_shape; eauto.
Qed.

Lemma render_object_inv (node : Val) (d : Dom) :
  nullish node = false -> is_text node = false ->
  render node = Some d ->
  exists tagName a l rc elems cs,
    get_prop node "tagName" = Some tagName
    /\ get_prop node "children" = Some (VArr rc elems)
    /\ mapM render elems = Some cs
    /\ d = Element (String_of tagName) a l cs.
Proof.
  intros N T R.
  destruct node as [| |b|n| |s|r src|[|nm]|r ps|r es]; try discriminate.
  2:{ exfalso. cbn [render nullish typeof String.eqb Ascii.eqb Bool.eqb orb] in R.
      destruct (get_prop (VArr r es) "tagName"); [|discriminate]. cbn [bind] in R.
      destruct (get_prop (VArr r es) "attributes"); [|discriminate]. cbn [bind] in R.
      destruct (createDomElement _ _); discriminate. }
  cbn [render nullish typeof String.eqb Ascii.eqb Bool.eqb orb] in R.
  destruct (get_prop (VObj r ps) "tagName") as [tg|] eqn:Gt; [|discriminate].
  cbn [bind] in R.
  destruct (get_prop (VObj r ps) "attributes") as [at'|] eqn:Ga; [|discriminate].
  cbn [bind] in R.
  destruct (createDomElement tg at') as [e|] eqn:C; [|discriminate].
  cbn [bind] in R. rewrite lookup_with_find in R.
  destruct (find_prop "children" ps) as [[| | | | | | | | |rc elems]|] eqn:Gc;
    try discriminate.
  destruct (mapM render elems) as [cs|] eqn:M; [|discriminate].
  cbn [bind] in R.
  destruct (createDomElement_shape _ _ _ C) as (a & l & ->).
  cbn [appendChildren] in R. injection R as <-.
  exists tg, a, l, rc, elems, cs. repeat split; auto.
  now apply get_prop_obj.
Qed.

(** What [render] returns when it returns: an empty text node for
    [null] and [undefined], a text node with the value as text for a
    string or a number, and otherwise an element named by [tagName] with
    one child node for each entry of [children], in order, each the
    rendering of that entry. *)
Theorem render_shape (node : Val) (d : Dom) :
  render node = Some d ->
  if nullish node then d = Text ""
  else if is_text node then d = Text (String_of node)
  else exists tagName a l cs,
         get_prop node "tagName" = Some tagName
         /\ d = Element (String_of tagName) a l cs
         /\ mapM render (children_of node) = Some cs
         /\ List.length cs = List.length (children_of node).
Proof.
  intros R. destruct (nullish node) eqn:N.
  - destruct node; try discriminate; simpl in R; congruence.
  - destruct (is_text node) eqn:T.
    + destruct node as [| |b|n| |s|r src|[|nm]|r ps|r es]; try discriminate;
        simpl in R; injection R as <-; reflexivity.
    + destruct (render_object_inv node d N T R)
        as (tg & a & l & rc & elems & cs & Gt & Gc & M & ->).
      exists tg, a, l, cs. unfold children_of. rewrite Gc.
      repeat split; auto. now apply (mapM_nth _ _ _ M).
Qed.

Lemma render_shape_witness :
  if nullish (VNum 42) then Text "42" = Text ""
  else if is_text (VNum 42) then Text "42" = Text (String_of (VNum 42))
  else exists tagName a l cs,
         get_prop (VNum 42) "tagName" = Some tagName
         /\ Text "42" = Element (String_of tagName) a l cs
         /\ mapM render (children_of (VNum 42)) = Some cs
         /\ List.length cs = List.length (children_of (VNum 42)).
Proof. apply (render_shape (VNum 42) (Text "42")). reflexivity. Defined.

(** [render] throws on a value that is not [null], [undefined], a
    string or a number and has no array under [children]: a boolean, a
    function, an array, an object such as [{tagName: 'p'}]. *)
Theorem render_needs_children (node : Val) :
  nullish node = false -> is_text node = false ->
  (forall rc elems, get_prop node "children" <> Some (VArr rc elems)) ->
  render node = None.
Proof.
  intros N T C. destruct (render node) as [d|] eqn:R; auto.
  destruct (render_object_inv node d N T R)
    as (tg & a & l & rc & elems & cs & _ & Gc & _). now apply C in Gc.
Qed.

Lemma render_needs_children_witness :
  render (VObj 1 [("tagName", VStr "p")]) = None.
Proof.
  apply (render_needs_children (VObj 1 [("tagName", VStr "p")])); try reflexivity.
  intros rc elems. discriminate.
Defined.

(** ** changed, further *)

(** [changed] throws when its first argument is [null] or
    [undefined]. *)
Theorem changed_first_absent (node1 node2 : Val) :
  nullish node1 = true -> changed node1 node2 = None.
Proof.
  intros N. unfold changed.
  destruct node1; try discriminate; cbn [typeof get_prop bind];
    destruct (negb _); cbn [bind]; try reflexivity;
    destruct (_ && _); reflexivity.
Qed.

Lemma changed_first_absent_witness :
  changed VNull (vNode 1 (VStr "p") VUndefined []) = None.
Proof. apply changed_first_absent. reflexivity. Defined.

(** Two values of different [typeof] are [changed]; in particular the
    text ['1'] and the number [1], or a text and an element. *)
Theorem changed_typeof_differs (node1 node2 : Val) :
  nullish node1 = false -> nullish node2 = false ->
  typeof node1 <> typeof node2 ->
  changed node1 node2 = Some true.
Proof.
  intros N1 N2 T. destruct (changed_total node1 node2 N1 N2) as [[|] C]; auto.
  apply changed_typeof in C; auto. contradiction.
Qed.

Lemma changed_typeof_differs_witness :
  changed (VStr "1") (VNum 1) = Some true.
Proof. apply changed_typeof_differs; try reflexivity. discriminate. Defined.

Lemma get_attributes_text (v : Val) :
  is_text v = true -> get_prop v "attributes" = Some VUndefined.
Proof.
  intros T. apply get_prop_text; try reflexivity.
  destruct v as [| |b|n| |s|r src|[|nm]|r ps|r es]; try discriminate; eauto.
Qed.

Lemma get_type_text (v : Val) :
  is_text v = true -> get_prop v "type" = Some VUndefined.
Proof.
  intros T. apply get_prop_text; try reflexivity.
  destruct v as [| |b|n| |s|r src|[|nm]|r ps|r es]; try discriminate; eauto.
Qed.

Lemma changed_text_eq (node1 node2 : Val) :
  is_text node1 = true -> is_text node2 = true ->
  changed node1 node2 = Some (negb (strict_eq node1 node2)).
Proof.
  intros T1 T2. unfold changed.
  rewrite (get_attributes_text _ T1), (get_type_text _ T1), (get_type_text _ T2).
  fold (is_text node1). rewrite T1. cbn [andb bind truthy negb].
  destruct (String.eqb (typeof node1) (typeof node2)) eqn:E; cbn [negb].
  - unfold strict_neq. destruct (strict_eq node1 node2); reflexivity.
  - replace (strict_eq node1 node2) with false; [reflexivity|].
    destruct node1 as [| | | | | | |[|?]| |], node2 as [| | | | | | |[|?]| |];
      try discriminate; reflexivity.
Qed.

(** Two text nodes (strings or numbers) are [changed] exactly when they
    are not [===]. *)
Theorem changed_text (node1 node2 : Val) :
  is_text node1 = true -> is_text node2 = true ->
  changed node1 node2 = Some (negb (strict_eq node1 node2)).
Proof. apply changed_text_eq. Qed.

Lemma changed_text_witness :
  changed (VStr "a") (VStr "b") = Some (negb (strict_eq (VStr "a") (VStr "b"))).
Proof. apply changed_text; reflexivity. Defined.

(** Two elements whose attribute objects have different numbers of
    keys are [changed]. *)
Theorem changed_attribute_count (r1 r2 ra1 ra2 : nat) (ps1 ps2 attrs1 attrs2 : Props) :
  find_prop "attributes" ps1 = Some (VObj ra1 attrs1) ->
  find_prop "attributes" ps2 = Some (VObj ra2 attrs2) ->
  List.length attrs1 <> List.length attrs2 ->
  changed (VObj r1 ps1) (VObj r2 ps2) = Some true.
Proof.
  intros A1 A2 L. unfold changed.
  rewrite (get_prop_obj _ _ _ _ A1), (get_prop_obj _ _ _ _ A2).
  cbn [typeof String.eqb Ascii.eqb Bool.eqb negb orb andb get_prop bind truthy keys].
  rewrite !key_order_length, !length_map.
  replace (Nat.eqb (List.length attrs1) (List.length attrs2)) with false
    by (symmetry; now apply Nat.eqb_neq).
  cbn [negb orb]. now rewrite orb_true_r.
Qed.

Lemma changed_attribute_count_witness :
  changed (VObj 1 [("attributes", VObj 2 [("test", VNum 1)])])
          (VObj 3 [("attributes", VObj 4 [])])
  = Some true.
Proof.
  apply (changed_attribute_count 1 3 2 4 _ _ [("test", VNum 1)] []);
    try reflexivity.
  simpl. lia.
Defined.









(** ** diff, further *)

Lemma update_undefined (root : Dom) (p : NodeRef) (f : Dom -> option Dom) :
  lookup root p = None -> update root p f = None.
Proof.
  revert root. induction p as [|i p IH]; simpl; intros root H; [discriminate|].
  destruct root as [|t a l cs]; auto.
  destruct (nth_error cs i) as [c|]; auto. simpl in *. now rewrite IH.
Qed.

Lemma nth_error_remove_nth {A : Type} (i j : nat) (xs : list A) :
  nth_error (remove_nth i xs) j = nth_error xs (if Nat.ltb j i then j else S j).
Proof.
  revert i j. induction xs as [|x xs IH]; intros [|i] [|j]; cbn [remove_nth nth_error]; auto.
  - now destruct (Nat.ltb (S j) (S i)).
  - rewrite IH. change (Nat.ltb (S j) (S i)) with (Nat.ltb j i).
    now destruct (Nat.ltb j i).
Qed.

Lemma removeChild_missing (root : Dom) (p : NodeRef) (k : nat) :
  lookup root (p ++ [k]) = None -> removeChild root p k = None.
Proof.
  intros H. unfold removeChild.
  destruct (lookup root p) as [n|] eqn:L; [|now apply update_undefined].
  rewrite (update_as_replace _ _ _ _ L).
  destruct n as [|t a l cs]; auto.
  rewrite (lookup_child _ _ _ _ _ _ _ L) in H. now rewrite H.
Qed.

Lemma replaceChild_missing (root : Dom) (p : NodeRef) (k : nat) (child : Dom) :
  lookup root (p ++ [k]) = None -> replaceChild root p child k = None.
Proof.
  intros H. unfold replaceChild.
  destruct (lookup root p) as [n|] eqn:L; [|now apply update_undefined].
  rewrite (update_as_replace _ _ _ _ L).
  destruct n as [|t a l cs]; auto.
  rewrite (lookup_child _ _ _ _ _ _ _ L) in H. now rewrite H.
Qed.

(** When the new node is absent and the old one is not, [diff] removes
    the live child at [index]: the children before it stay, those after
    it move up by one, and nothing else changes. *)
Theorem diff_absent_new_removes (root : Dom) (parent : NodeRef) (newNode oldNode : Val)
  (index : nat) (t : string) (a : list (string * string)) (l : list (string * Val))
  (cs : list Dom) :
  nullish oldNode = false ->
  nullish newNode = true ->
  lookup root parent = Some (Element t a l cs) ->
  index < List.length cs ->
  exists root',
    diff parent newNode oldNode index (root, []) = Some (root', [OpRemove parent index])
    /\ replace_at root parent (Element t a l (remove_nth index cs)) = Some root'
    /\ forall j, lookup root' (parent ++ [j])
                 = lookup root (parent ++ [if Nat.ltb j index then j else S j]).
Proof.
  intros O N L I.
  destruct (replace_at_defined root parent _ (Element t a l (remove_nth index cs)) L)
    as [root' U].
  exists root'. assert (L' := lookup_replace_at _ _ _ _ U).
  repeat split; auto.
  - rewrite diff_unfold, O, N. unfold removeChild.
    rewrite (update_as_replace _ _ _ _ L).
    destruct (nth_error cs index) eqn:E; [|apply nth_error_None in E; lia].
    cbn [bind]. fold (replace_at root parent (Element t a l (remove_nth index cs))).
    now rewrite U.
  - intros j. rewrite (lookup_child _ _ _ _ _ _ _ L'), (lookup_child _ _ _ _ _ _ _ L).
    apply nth_error_remove_nth.
Qed.

Lemma diff_absent_new_removes_witness :
  exists root',
    diff [] VUndefined (VStr "a") 0 (Element "ul" [] [] [Text "a"; Text "b"], [])
    = Some (root', [OpRemove [] 0])
    /\ replace_at (Element "ul" [] [] [Text "a"; Text "b"]) []
         (Element "ul" [] [] (remove_nth 0 [Text "a"; Text "b"])) = Some root'
    /\ forall j, lookup root' ([] ++ [j])
                 = lookup (Element "ul" [] [] [Text "a"; Text "b"])
                     ([] ++ [if Nat.ltb j 0 then j else S j]).
Proof.
  apply (diff_absent_new_removes (Element "ul" [] [] [Text "a"; Text "b"]) []
           VUndefined (VStr "a") 0 "ul" [] [] [Text "a"; Text "b"]);
    try reflexivity.
  simpl. lia.
Defined.

(** When the two nodes are [changed], [diff] puts the rendering of the
    new node in the place of the live child at [index]; its siblings and
    the rest of the live tree stay as they are. *)
Theorem diff_changed_replaces (root : Dom) (parent : NodeRef) (newNode oldNode : Val)
  (index : nat) (d : Dom) :
  is_NodeRep newNode = true ->
  nullish oldNode = false ->
  changed oldNode newNode = Some true ->
  lookup root (parent ++ [index]) = Some d ->
  exists child root',
    render newNode = Some child
    /\ diff parent newNode oldNode index (root, [])
       = Some (root', [OpReplace parent child index])
    /\ replace_at root (parent ++ [index]) child = Some root'
    /\ lookup root' (parent ++ [index]) = Some child
    /\ forall j, j <> index -> lookup root' (parent ++ [j]) = lookup root (parent ++ [j]).
Proof.
  intros N O C L.
  destruct (render_NodeRep _ N) as [child R].
  destruct (replace_at_defined _ _ _ child L) as [root' U].
  exists child, root'. repeat split; auto.
  - rewrite diff_unfold, O, (is_NodeRep_not_nullish _ N), C. cbn [bind].
    rewrite R. cbn [bind].
    now rewrite (replaceChild_as_replace _ _ _ _ _ L), U.
  - eapply lookup_replace_at; eauto.
  - intros j Hj.
    destruct (lookup_child_inv _ _ _ _ L) as (t & a & l & cs & Lp & Lk).
    rewrite (replace_at_child root root parent index d child t a l cs) in U;
      auto using replace_at_same.
    rewrite (lookup_child _ _ _ _ _ _ _ (lookup_replace_at _ _ _ _ U)).
    rewrite (lookup_child _ _ _ _ _ _ _ Lp), nth_error_set_nth.
    now replace (Nat.eqb index j) with false
      by (symmetry; apply Nat.eqb_neq; congruence).
Qed.

Lemma diff_changed_replaces_witness :
  exists child root',
    render (VStr "b") = Some child
    /\ diff [] (VStr "b") (VStr "a") 0 (Element "p" [] [] [Text "a"], [])
       = Some (root', [OpReplace [] child 0])
    /\ replace_at (Element "p" [] [] [Text "a"]) ([] ++ [0]) child = Some root'
    /\ lookup root' ([] ++ [0]) = Some child
    /\ forall j, j <> 0 ->
                 lookup root' ([] ++ [j]) = lookup (Element "p" [] [] [Text "a"]) ([] ++ [j]).
Proof.
  apply (diff_changed_replaces (Element "p" [] [] [Text "a"]) [] (VStr "b") (VStr "a") 0
           (Text "a")); reflexivity.
Defined.

(** [diff] throws when it has to remove or to replace the live child at
    [index] and the parent has no such child. *)
Theorem diff_missing_child_throws (root : Dom) (parent : NodeRef) (newNode oldNode : Val)
  (index : nat) (ops : list DomOp) :
  nullish oldNode = false ->
  lookup root (parent ++ [index]) = None ->
  nullish newNode = true \/ changed oldNode newNode = Some true ->
  diff parent newNode oldNode index (root, ops) = None.
Proof.
  intros O L H. rewrite diff_unfold, O.
  destruct (nullish newNode) eqn:N.
  - now rewrite removeChild_missing.
  - destruct H as [H|H]; [discriminate|]. rewrite H. cbn [bind].
    destruct (render newNode); auto. cbn [bind].
    now rewrite replaceChild_missing.
Qed.

Lemma diff_missing_child_throws_witness :
  diff [] VNull (VStr "a") 3 (Element "ul" [] [] [Text "a"], []) = None.
Proof.
  apply diff_missing_child_throws; try reflexivity. now left.
Defined.

(** *** Updates that [diff] carries out in place *)

Lemma patchable_unfold (newNode oldNode : Val) :
  patchable newNode oldNode
  = match changed oldNode newNode with
    | Some true => true
    | Some false =>
        is_text newNode
        || match newNode, oldNode with
           | VObj _ ps, VObj _ ps' =>
               match find_prop "tagName" ps, find_prop "tagName" ps',
                     find_prop "attributes" ps, find_prop "attributes" ps' with
               | Some (VStr t), Some (VStr t'), Some (VObj _ attrs), Some (VObj _ attrs') =>
                   String.eqb t t' && negb (String.eqb t "") && props_eqb attrs attrs'
                   && lookup_with
                        (fun children =>
                           match children with
                           | VArr _ elems =>
                               Nat.leb (List.length (children_of oldNode))
                                 (List.length elems)
                               && all_pairs patchable elems (children_of oldNode)
                           | _ => false
                           end)
                        false "children" ps
               | _, _, _, _ => false
               end
           | _, _ => false
           end
    | None => false
    end.
Proof. destruct newNode; reflexivity. Qed.

Lemma list_eqb_eq {A : Type} (eqb : A -> A -> bool) (xs ys : list A) :
  (forall x y, In x xs -> eqb x y = true -> x = y) ->
  list_eqb eqb xs ys = true -> xs = ys.
Proof.
  revert ys. induction xs as [|x xs IH]; intros [|y ys] H E; simpl in E;
    try discriminate; auto.
  apply andb_true_iff in E as [E1 E2]. f_equal.
  - apply H; simpl; auto.
  - apply IH; auto. intros x' y' Hx. apply H. simpl. auto.
Qed.

Lemma Val_eqb_eq (a b : Val) : Val_eqb a b = true -> a = b.
Proof.
  revert b. induction a using Val_nested_ind; intros [] E; simpl in E;
    try discriminate; auto.
  - apply Bool.eqb_prop in E. congruence.
  - apply Z.eqb_eq in E. congruence.
  - apply String.eqb_eq in E. congruence.
  - apply andb_true_iff in E as [E1 E2].
    apply Nat.eqb_eq in E1. apply String.eqb_eq in E2. congruence.
  - f_equal. destruct b as [|x], b0 as [|y]; simpl in E; try discriminate; auto.
    apply String.eqb_eq in E. congruence.
  - apply andb_true_iff in E as [E1 E2]. apply Nat.eqb_eq in E1. f_equal; auto.
    apply (list_eqb_eq _ _ _) in E2; auto.
    intros [k v] [k' v'] Hin Ekv. simpl in Ekv.
    apply andb_true_iff in Ekv as [Ek Ev]. apply String.eqb_eq in Ek.
    rewrite Forall_forall in H. apply (H _ Hin) in Ev. simpl in Ev. congruence.
  - apply andb_true_iff in E as [E1 E2]. apply Nat.eqb_eq in E1. f_equal; auto.
    apply (list_eqb_eq _ _ _) in E2; auto.
    intros x y Hin Exy. rewrite Forall_forall in H. now apply (H _ Hin).
Qed.

Lemma props_eqb_eq (ps ps' : Props) : props_eqb ps ps' = true -> ps = ps'.
Proof.
  unfold props_eqb. apply list_eqb_eq.
  intros [k v] [k' v'] _ E. simpl in E. apply andb_true_iff in E as [Ek Ev].
  apply String.eqb_eq in Ek. apply Val_eqb_eq in Ev. congruence.
Qed.

Lemma apply_attributes_identity (r r' : nat) (ps : Props) (e : Dom) (ks : list string) :
  apply_attributes (VObj r ps) e ks = apply_attributes (VObj r' ps) e ks.
Proof.
  revert e. induction ks as [|k ks IH]; simpl; intros e; auto.
  change (apply_attribute (VObj r ps) e k) with (apply_attribute (VObj r' ps) e k).
  destruct (apply_attribute (VObj r' ps) e k); simpl; auto.
Qed.

(** The identity of the attribute object does not matter to the
    element made from it. *)
Lemma createDomElement_identity (tagName : Val) (r r' : nat) (ps : Props) :
  createDomElement tagName (VObj r ps) = createDomElement tagName (VObj r' ps).
Proof. unfold createDomElement. simpl. apply apply_attributes_identity. Qed.

Lemma render_obj_exact (r : nat) (ps : Props) (tagName attributes : Val) (e : Dom)
  (rc : nat) (elems : list Val) (cs : list Dom) :
  find_prop "tagName" ps = Some tagName ->
  find_prop "attributes" ps = Some attributes ->
  createDomElement tagName attributes = Some e ->
  find_prop "children" ps = Some (VArr rc elems) ->
  mapM render elems = Some cs ->
  render (VObj r ps) = appendChildren e cs.
Proof.
  intros Ht Ha Hd Hc Hm. simpl.
  rewrite (read_find _ _ _ Ht), (read_find _ _ _ Ha), Hd. simpl.
  rewrite lookup_with_find, Hc, Hm. reflexivity.
Qed.

Lemma all_pairs_nth {A B : Type} (f : A -> B -> bool) (xs : list A) (ys : list B)
  (k : nat) (x : A) (y : B) :
  all_pairs f xs ys = true ->
  nth_error xs k = Some x -> nth_error ys k = Some y -> f x y = true.
Proof.
  revert ys k. induction xs as [|x0 xs IH]; intros [|y0 ys] [|k] H Hx Hy;
    simpl in *; try discriminate.
  - apply andb_true_iff in H as [H _]. congruence.
  - apply andb_true_iff in H as [_ H]. eapply IH; eauto.
Qed.

Lemma NodeReps_render (elems : list Val) :
  forallb is_NodeRep elems = true -> exists cs, mapM render elems = Some cs.
Proof.
  intros H. apply mapM_total. rewrite forallb_forall in H. apply Forall_forall.
  intros x Hx. apply render_NodeRep; auto.
Qed.

Section PatchLoop.
Variables (old : Val) (q : NodeRef) (i : nat) (root0 : Dom).
Variables (t : string) (a : list (string * string)) (l : list (string * Val)).
Variables (esO esN : list Val) (cs0 csN : list Dom).
Hypothesis old_children : forall k, old_child old k = Some (nth k esO VUndefined).
Hypothesis old_rendered : mapM render esO = Some cs0.
Hypothesis new_rendered : mapM render esN = Some csN.
Hypothesis step :
  forall k e o, nth_error esN k = Some e -> nth_error esO k = Some o -> patches e o.

Lemma patch_loop (es : list Val) :
  forall (k : nat),
    (forall j e, nth_error es j = Some e -> nth_error esN (k + j) = Some e) ->
    forall (cs_k : list Dom) (root_k : Dom) (ops : list DomOp),
      replace_at root0 (q ++ [i]) (Element t a l cs_k) = Some root_k ->
      List.length cs_k = Nat.max (List.length cs0) k ->
      (forall j, j < k -> nth_error cs_k j = nth_error csN j) ->
      (forall j, k <= j -> nth_error cs_k j = nth_error cs0 j) ->
      exists root' cs' log,
        forEach_from
          (fun newNode k s =>
             child <- childNodes_at (fst s) q i ;;
             oldChild <- old_child old k ;;
             diff child newNode oldChild k s)
          k es (root_k, ops) = Some (root', ops ++ log)
        /\ replace_at root0 (q ++ [i]) (Element t a l cs') = Some root'
        /\ List.length cs' = Nat.max (List.length cs0) (k + List.length es)
        /\ (forall j, j < k + List.length es -> nth_error cs' j = nth_error csN j)
        /\ (forall j, k + List.length es <= j -> nth_error cs' j = nth_error cs0 j).
Proof.
  destruct (mapM_nth _ _ _ old_rendered) as [LenO NthO].
  destruct (mapM_nth _ _ _ new_rendered) as [LenN NthN].
  induction es as [|e es IH]; intros k Hes cs_k root_k ops R L Lt Ge.
  - exists root_k, cs_k, []. simpl. rewrite app_nil_r, Nat.add_0_r. auto.
  - assert (Ek : nth_error esN k = Some e).
    { rewrite <- (Nat.add_0_r k). apply Hes. reflexivity. }
    destruct (NthN _ _ Ek) as (c & Rc & Nc).
    assert (Lk : lookup root_k (q ++ [i]) = Some (Element t a l cs_k))
      by (eapply lookup_replace_at; eauto).
    assert (Hes' : forall j e', nth_error es j = Some e' ->
                                nth_error esN (S k + j) = Some e').
    { intros j e' Hj. replace (S k + j) with (k + S j) by lia. now apply Hes. }
    cbn [forEach_from fst].
    rewrite (childNodes_at_defined _ _ _ _ Lk), old_children. cbn [bind].
    destruct (nth_error esO k) as [o|] eqn:Eo.
    + rewrite (nth_error_nth _ _ _ Eo).
      destruct (NthO _ _ Eo) as (y & Ry & Ny).
      assert (Ck : nth_error cs_k k = Some y) by (rewrite Ge; auto).
      destruct (step k e o Ek Eo root_k (q ++ [i]) k ops y Ry)
        as (r1 & child & log1 & Rch & D & U).
      { now rewrite (lookup_child _ _ _ _ _ _ _ Lk). }
      rewrite Rc in Rch. injection Rch as <-.
      rewrite D. cbn [bind].
      rewrite (replace_at_child _ _ _ _ _ _ _ _ _ _ R Ck) in U.
      assert (k < List.length esO) by (apply nth_error_Some; congruence).
      destruct (IH (S k) Hes' (set_nth k c cs_k) r1 (ops ++ log1) U)
        as (root' & cs' & log2 & D2 & U2 & L2 & Lt2 & Ge2).
      { rewrite length_set_nth, L. lia. }
      { intros j Hj. rewrite nth_error_set_nth.
        destruct (Nat.eqb k j) eqn:Ekj.
        - apply Nat.eqb_eq in Ekj as <-. now rewrite Ck.
        - apply Nat.eqb_neq in Ekj. apply Lt. lia. }
      { intros j Hj. rewrite nth_error_set_nth.
        replace (Nat.eqb k j) with false by (symmetry; apply Nat.eqb_neq; lia).
        apply Ge. lia. }
      exists root', cs', (log1 ++ log2). rewrite app_assoc.
      repeat split; auto.
      * rewrite L2. simpl. f_equal. lia.
      * intros j Hj. apply Lt2. simpl in Hj. lia.
      * intros j Hj. apply Ge2. simpl in Hj. lia.
    + apply nth_error_None in Eo.
      rewrite (nth_overflow _ _ Eo), diff_unfold. cbn [nullish].
      rewrite Rc. cbn [bind].
      rewrite (appendChild_as_replace _ _ _ _ _ _ _ Lk).
      rewrite (replace_at_twice _ _ _ _ _ R).
      destruct (replace_at_defined root_k (q ++ [i]) _ (Element t a l (cs_k ++ [c])) Lk)
        as [r1 U].
      rewrite (replace_at_twice _ _ _ _ _ R) in U. rewrite U. cbn [bind].
      assert (Lck : List.length cs_k = k) by (rewrite L; lia).
      destruct (IH (S k) Hes' (cs_k ++ [c]) r1 (ops ++ [OpAppend (q ++ [i]) c]) U)
        as (root' & cs' & log2 & D2 & U2 & L2 & Lt2 & Ge2).
      { rewrite length_app, L. simpl. lia. }
      { intros j Hj. destruct (Nat.eq_dec j k) as [->|Hjk].
        - rewrite nth_error_app2 by lia. rewrite Lck, Nat.sub_diag. now simpl.
        - rewrite nth_error_app1 by lia. apply Lt. lia. }
      { intros j Hj.
        assert (E1 : nth_error (cs_k ++ [c]) j = None).
        { apply nth_error_None. rewrite length_app. simpl. lia. }
        assert (E2 : nth_error cs0 j = None) by (apply nth_error_None; lia).
        congruence. }
      exists root', cs', ([OpAppend (q ++ [i]) c] ++ log2). rewrite app_assoc.
      repeat split; auto.
      * rewrite L2. simpl. f_equal. lia.
      * intros j Hj. apply Lt2. simpl in Hj. lia.
      * intros j Hj. apply Ge2. simpl in Hj. lia.
Qed.
End PatchLoop.

Lemma text_equal (a b : Val) :
  is_text a = true -> is_text b = true -> strict_eq a b = true -> a = b.
Proof.
  destruct a as [| | | | | | |[|?]| |], b as [| | | | | | |[|?]| |];
    try discriminate; simpl; intros _ _ E.
  - apply Z.eqb_eq in E. congruence.
  - apply String.eqb_eq in E. congruence.
Qed.

Lemma is_text_typeof (a b : Val) :
  is_text a = true -> typeof b = typeof a -> is_text b = true.
Proof. unfold is_text. now intros H ->. Qed.

Lemma patches_replace (newNode oldNode : Val) :
  is_NodeRep newNode = true -> nullish oldNode = false ->
  changed oldNode newNode = Some true -> patches newNode oldNode.
Proof.
  intros N O C root q i ops d Ro L.
  destruct (render_NodeRep _ N) as [child R].
  destruct (replace_at_defined _ _ _ child L) as [root' U].
  exists root', child, [OpReplace q child i]. repeat split; auto.
  rewrite diff_unfold, O, (is_NodeRep_not_nullish _ N), C. cbn [bind].
  rewrite R. cbn [bind].
  now rewrite (replaceChild_as_replace _ _ _ _ _ L), U.
Qed.

Lemma patches_text (newNode oldNode : Val) :
  is_text newNode = true -> is_NodeRep oldNode = true ->
  changed oldNode newNode = Some false -> patches newNode oldNode.
Proof.
  intros T No C root q i ops d Ro L.
  assert (Nn : nullish newNode = false) by (destruct newNode; try discriminate; auto).
  assert (Tx : (exists x, newNode = VStr x) \/ (exists n, newNode = VNum n)
               \/ newNode = VNaN).
  { destruct newNode as [| | | | | | |[|?]| |]; try discriminate; eauto. }
  assert (Ty := changed_typeof _ _ (is_NodeRep_not_nullish _ No) Nn C).
  assert (To : is_text oldNode = true) by (unfold is_text in *; now rewrite Ty).
  assert (E : oldNode = newNode).
  { apply text_equal; auto.
    rewrite (changed_text_eq _ _ To T) in C. injection C as C.
    now apply negb_false_iff in C. }
  subst oldNode.
  exists root, d, []. rewrite app_nil_r. repeat split; auto.
  - rewrite (diff_unchanged _ _ _ _ _ _ VUndefined); auto.
    now apply get_tagName_text.
  - now apply replace_at_same.
Qed.

(** [diff] carries out every patchable update of a node representation:
    the live child ends as the rendering of the new node. *)
Lemma diff_patches_gen (newNode : Val) :
  is_NodeRep newNode = true ->
  forall oldNode,
    is_NodeRep oldNode = true -> patchable newNode oldNode = true ->
    patches newNode oldNode.
Proof.
  intros N. pattern newNode. revert newNode N. apply NodeRep_ind.
  - intros s old No P. rewrite patchable_unfold in P.
    destruct (changed old (VStr s)) as [[|]|] eqn:C; try discriminate.
    + apply patches_replace; auto using is_NodeRep_not_nullish.
    + apply patches_text; auto.
  - intros n old No P. rewrite patchable_unfold in P.
    destruct (changed old (VNum n)) as [[|]|] eqn:C; try discriminate.
    + apply patches_replace; auto using is_NodeRep_not_nullish.
    + apply patches_text; auto.
  - intros old No P. rewrite patchable_unfold in P.
    destruct (changed old VNaN) as [[|]|] eqn:C; try discriminate.
    + apply patches_replace; auto using is_NodeRep_not_nullish.
    + apply patches_text; auto.
  - intros r ps t ra attrs rc elems Ht Ha Hc He IH old No P.
    assert (Nn : is_NodeRep (VObj r ps) = true).
    { simpl. now rewrite Ht, Ha, lookup_with_find, Hc. }
    rewrite patchable_unfold in P.
    destruct (changed old (VObj r ps)) as [[|]|] eqn:C; try discriminate.
    { apply patches_replace; auto using is_NodeRep_not_nullish. }
    cbn [is_text typeof String.eqb Ascii.eqb Bool.eqb orb] in P.
    destruct old as [| | | | | |ro so|bo|ro pso|ro eo]; try discriminate.
    rewrite Ht, Ha in P.
    destruct (is_NodeRep_obj _ _ No)
      as (to & rao & attrso & rco & esO & Hto & Hao & Hco & Heo).
    rewrite Hto, Hao, lookup_with_find, Hc, (children_of_obj _ _ _ _ Hco) in P.
    apply andb_true_iff in P as [P Pc]. apply andb_true_iff in P as [P Pa].
    apply andb_true_iff in P as [Pt Pe]. apply andb_true_iff in Pc as [Pl Pp].
    apply String.eqb_eq in Pt. subst to. apply props_eqb_eq in Pa. subst attrso.
    apply Nat.leb_le in Pl.
    destruct (NodeReps_render _ He) as [csN HmN].
    destruct (NodeReps_render _ Heo) as [cs0 HmO].
    destruct (createDomElement_element t ra attrs) as (a & l & Cd).
    assert (Rn : render (VObj r ps) = Some (Element t a l csN)).
    { now rewrite (render_obj_exact r ps _ _ _ rc elems csN Ht Ha Cd Hc HmN). }
    assert (Ro' : render (VObj ro pso) = Some (Element t a l cs0)).
    { rewrite (createDomElement_identity _ ra rao) in Cd.
      now rewrite (render_obj_exact ro pso _ _ _ rco esO cs0 Hto Hao Cd Hco HmO). }
    intros root q i ops d Ro L. rewrite Ro' in Ro. injection Ro as <-.
    destruct (mapM_nth _ _ _ HmN) as [LenN _].
    destruct (mapM_nth _ _ _ HmO) as [LenO _].
    destruct (patch_loop (VObj ro pso) q i root t a l esO elems cs0 csN
                (fun k => old_child_obj ro pso rco esO k Hco) HmO HmN) with
      (es := elems) (k := 0) (cs_k := cs0) (root_k := root) (ops := ops)
      as (root' & cs' & log & D & U & Lc & Lt & Ge).
    { intros k e o Ek Eo. rewrite Forall_forall in IH.
      apply (IH e (nth_error_In _ _ Ek)).
      - rewrite forallb_forall in Heo. apply Heo. eapply nth_error_In; eauto.
      - eapply all_pairs_nth; eauto. }
    { auto. }
    { now apply replace_at_same. }
    { now rewrite Nat.max_0_r. }
    { intros j Hj. lia. }
    { reflexivity. }
    assert (E : cs' = csN).
    { apply nth_error_ext. intros j. simpl in Lt, Ge, Lc.
      destruct (Nat.lt_ge_cases j (List.length elems)) as [Hj|Hj]; auto.
      transitivity (@None Dom).
      - apply nth_error_None. lia.
      - symmetry. apply nth_error_None. lia. }
    subst cs'.
    exists root', (Element t a l csN), log. repeat split; auto.
    rewrite (diff_unchanged _ _ _ _ _ _ (VStr t));
      auto using get_prop_obj.
    cbn [truthy]. apply negb_true_iff in Pe. rewrite Pe. cbn [negb].
    now rewrite (forEach_children_obj _ _ _ _ _ _ Hc).
Qed.

(** For a patchable update of a node representation whose old
    rendering is the live child at [index], [diff] succeeds and leaves
    the rendering of the new node in that place, and nothing else in the
    live tree is changed. *)
Theorem diff_patches (root : Dom) (parent : NodeRef) (index : nat) (newNode oldNode : Val) :
  is_NodeRep newNode = true ->
  is_NodeRep oldNode = true ->
  patchable newNode oldNode = true ->
  lookup root (parent ++ [index]) = render oldNode ->
  exists root' child log,
    render newNode = Some child
    /\ diff parent newNode oldNode index (root, []) = Some (root', log)
    /\ lookup root' (parent ++ [index]) = Some child
    /\ replace_at root (parent ++ [index]) child = Some root'.
Proof.
  intros Nn No P L.
  destruct (render_NodeRep _ No) as [d R]. rewrite R in L.
  destruct (diff_patches_gen _ Nn _ No P root parent index [] d R L)
    as (root' & child & log & Rn & D & U).
  exists root', child, log. repeat split; auto.
  eapply lookup_replace_at; eauto.
Qed.

Lemma diff_patches_witness :
  let oldNode :=
    vNode 1 (VStr "div") (VObj 2 [("id", VStr "x")])
      [vNode 4 (VStr "span") VUndefined [VStr " Input: "]] in
  let newNode :=
    vNode 7 (VStr "div") (VObj 8 [("id", VStr "x")])
      [vNode 10 (VStr "span") VUndefined [VStr " Input: a"]; VStr "!"] in
  let root :=
    Element "body" [] []
      [Element "div" [("id", "x")] [] [Element "span" [] [] [Text " Input: "]]] in
  exists root' child log,
    render newNode = Some child
    /\ diff [] newNode oldNode 0 (root, []) = Some (root', log)
    /\ lookup root' ([] ++ [0]) = Some child
    /\ replace_at root ([] ++ [0]) child = Some root'.
Proof.
  intros oldNode newNode root.
  apply (diff_patches root [] 0 newNode oldNode); reflexivity.
Defined.

(** ** toVNode *)

Lemma distinct_NoDup (ks : list string) : distinct ks = true -> NoDup ks.
Proof.
  induction ks as [|k ks IH]; simpl; intros H; constructor.
  - apply andb_true_iff in H as [H _]. apply negb_true_iff in H.
    intros Hin. assert (E : existsb (String.eqb k) ks = true).
    { apply existsb_exists. exists k. split; auto. apply String.eqb_refl. }
    congruence.
  - apply IH. now apply andb_true_iff in H as [_ H].
Qed.

Lemma attributes_object_from (attrs : list (string * string)) (acc : Props) :
  NoDup (map fst acc ++ map fst attrs) ->
  forallb plain_name (map fst attrs) = true ->
  fold_left (fun attributes attribute =>
               put attributes (fst attribute) (VStr (snd attribute))) attrs acc
  = acc ++ map (fun kv => (fst kv, VStr (snd kv))) attrs.
Proof.
  revert acc. induction attrs as [|[k v] attrs IH]; simpl; intros acc N P.
  - now rewrite app_nil_r.
  - apply andb_true_iff in P as [Pk P].
    assert (H : ~ In k (map fst acc)).
    { apply NoDup_remove_2 in N. rewrite in_app_iff in N. tauto. }
    rewrite put_assign.
    + rewrite (assign_fresh _ _ _ H), IH, <- app_assoc; auto.
      rewrite map_app, <- app_assoc. exact N.
    + left. unfold plain_name in Pk. apply andb_true_iff in Pk as [_ Pk].
      now apply negb_true_iff in Pk.
Qed.

Lemma attributes_object_distinct (attrs : list (string * string)) :
  NoDup (map fst attrs) ->
  forallb plain_name (map fst attrs) = true ->
  attributes_object attrs = map (fun kv => (fst kv, VStr (snd kv))) attrs.
Proof. intros N P. unfold attributes_object. now rewrite attributes_object_from. Qed.

Lemma plain_names_key_order (ks : list string) :
  forallb plain_name ks = true -> key_order ks = ks.
Proof.
  intros P. apply key_order_plain. rewrite forallb_forall in P |- *.
  intros k Hk. specialize (P k Hk). unfold plain_name in P.
  now apply andb_true_iff in P as [P _].
Qed.

(** An object whose keys are plain lists its properties as they were
    added. *)
Lemma own_entries_plain (ps : Props) :
  unique_keys ps -> forallb plain_name (map fst ps) = true -> own_entries ps = ps.
Proof.
  intros U P. unfold own_entries. rewrite (plain_names_key_order _ P).
  rewrite map_map.
  assert (E : forall qs, incl qs ps -> map (fun kv => (fst kv, prop ps (fst kv))) qs = qs).
  { induction qs as [|[k v] qs IH]; simpl; intros I; auto.
    rewrite (prop_In ps k v U) by (apply I; simpl; auto).
    f_equal. apply IH. intros x Hx. apply I. simpl. auto. }
  apply E, incl_refl.
Qed.

Lemma rendered_text_attributes (attrs : list (string * string)) :
  let ps := map (fun kv => (fst kv, VStr (snd kv))) attrs in
  map (fun kv => (fst kv, String_of (snd kv)))
    (filter (fun kv => negb (nullish (snd kv)) && negb (is_function (snd kv))) ps)
  = attrs
  /\ filter (fun kv => is_function (snd kv)) ps = [].
Proof.
  induction attrs as [|[k v] attrs [IH1 IH2]]; simpl; auto.
  split; auto. simpl in IH1. now rewrite IH1.
Qed.

Lemma createDomElement_attributes_object (t : string) (r : nat)
  (attrs : list (string * string)) :
  NoDup (map fst attrs) ->
  forallb plain_name (map fst attrs) = true ->
  createDomElement (VStr t) (VObj r (attributes_object attrs))
  = Some (Element t attrs [] []).
Proof.
  intros N P. rewrite (attributes_object_distinct _ N P).
  set (ps := map (fun kv => (fst kv, VStr (snd kv))) attrs).
  assert (K : map fst ps = map fst attrs).
  { unfold ps. rewrite map_map. reflexivity. }
  assert (U : unique_keys ps) by (unfold unique_keys; now rewrite K).
  assert (O : own_entries ps = ps) by (apply own_entries_plain; [|rewrite K]; auto).
  unfold createDomElement. cbn [keys bind String_of toString].
  rewrite <- keys_own_entries, O.
  rewrite (apply_attributes_spec r ps ps t []); auto.
  - cbn [app]. unfold ps.
    destruct (rendered_text_attributes attrs) as [-> ->]. reflexivity.
  - intros k v H. apply read_own_entries. now rewrite O.
Qed.

Lemma map_elements_round_trip (cs : list Dom) :
  Forall (fun c => simple c = true ->
                   forall r, exists v r', toVNode c r = Some (v, r') /\ render v = Some c) cs ->
  forallb simple cs = true ->
  forall r, exists vs r',
    map_elements toVNode cs r = Some (vs, r') /\ mapM render vs = Some cs.
Proof.
  induction 1 as [|c cs Hc _ IH]; intros S r; simpl in *.
  - eauto.
  - apply andb_true_iff in S as [Sc Scs].
    assert (E : is_element c = true) by (destruct c; auto; discriminate).
    rewrite E. destruct (Hc Sc r) as (v & r1 & T & R). rewrite T. cbn [bind snd fst].
    destruct (IH Scs r1) as (vs & r2 & M & Rs). rewrite M. cbn [bind snd fst].
    exists (v :: vs), r2. split; auto. simpl. now rewrite R, Rs.
Qed.

Lemma toVNode_round_trip_gen (d : Dom) :
  simple d = true ->
  forall r, exists v r', toVNode d r = Some (v, r') /\ render v = Some d.
Proof.
  induction d as [data|t a l cs IH] using Dom_nested_ind; [discriminate|].
  intros S r. cbn [simple] in S.
  apply andb_true_iff in S as [S Sc]. apply andb_true_iff in S as [S Sp].
  apply andb_true_iff in S as [Sl Sa].
  destruct l; [clear Sl|discriminate].
  apply distinct_NoDup in Sa.
  assert (Cd := createDomElement_attributes_object t r a Sa Sp).
  destruct cs as [|c cs]; [discriminate|].
  destruct c as [data|t1 a1 l1 cs1].
  - destruct cs; [|discriminate]. cbn [toVNode existsb is_element orb].
    eexists _, _. split; [reflexivity|].
    unfold vNode. cbn [nullish].
    rewrite (render_obj_exact _ _ (VStr t) (VObj r (attributes_object a))
               (Element t a [] []) (r + 1 + 2) [VStr data] [Text data]); auto.
  - remember (Element t1 a1 l1 cs1 :: cs) as cs' eqn:Ecs.
    assert (Sc' : forallb simple cs' = true).
    { subst cs'. destruct cs; exact Sc. }
    assert (Ex : existsb is_element cs' = true) by (subst cs'; reflexivity).
    cbn [toVNode]. rewrite Ex.
    destruct (map_elements_round_trip cs' IH Sc' (r + 3)) as (vs & r' & M & R).
    rewrite M. cbn [bind fst snd].
    eexists _, _. split; [reflexivity|].
    unfold vNode, concat_spread. cbn [nullish flat_map]. rewrite app_nil_r.
    rewrite (render_obj_exact _ _ (VStr t) (VObj r (attributes_object a))
               (Element t a [] []) (r' + 2) vs cs'); auto.
Qed.

(** Rendering what [toVNode] makes of a simple live tree gives the tree
    back: a tree of elements without listeners and with distinct
    attribute names, none of them [__proto__] or an array index, each
    element with one text node or with elements as its children. *)
Theorem toVNode_render_round_trip (d : Dom) (r : nat) :
  simple d = true ->
  exists v r', toVNode d r = Some (v, r') /\ render v = Some d.
Proof. intros S. now apply toVNode_round_trip_gen. Qed.

Lemma toVNode_render_round_trip_witness :
  exists v r',
    toVNode (Element "FORM" [("id", "f")] []
               [Element "LABEL" [] [] [Text "Name"];
                Element "INPUT" [("name", "name"); ("value", "Tomato")] [] [Text ""]]) 0
    = Some (v, r')
    /\ render v
       = Some (Element "FORM" [("id", "f")] []
                 [Element "LABEL" [] [] [Text "Name"];
                  Element "INPUT" [("name", "name"); ("value", "Tomato")] [] [Text ""]]).
Proof. apply toVNode_render_round_trip. reflexivity. Defined.

(** An element without element children comes back from [toVNode] with
    exactly one child, its text content: all its text nodes run
    together, and the empty string when it has no child at all, so that
    rendering the result gives a childless element an empty text
    node (with the attributes in their places when none of their names
    is [__proto__] or an array index). *)
Theorem toVNode_text_only (t : string) (a : list (string * string))
  (l : list (string * Val)) (cs : list Dom) (r : nat) :
  existsb is_element cs = false ->
  NoDup (map fst a) ->
  exists v r',
    toVNode (Element t a l cs) r = Some (v, r')
    /\ children_of v = [VStr (textContent (Element t a l cs))]
    /\ (forallb plain_name (map fst a) = true ->
        render v = Some (Element t a [] [Text (textContent (Element t a l cs))])).
Proof.
  intros E N. cbn [toVNode]. rewrite E.
  eexists _, _. split; [reflexivity|]. split; [reflexivity|]. intros P.
  unfold vNode. cbn [nullish].
  rewrite (render_obj_exact _ _ (VStr t) (VObj r (attributes_object a))
             (Element t a [] []) (r + 1 + 2)
             [VStr (textContent (Element t a l cs))]
             [Text (textContent (Element t a l cs))]); auto.
  now apply createDomElement_attributes_object.
Qed.

Lemma toVNode_text_only_witness :
  exists v r',
    toVNode (Element "BR" [] [] []) 0 = Some (v, r')
    /\ children_of v = [VStr (textContent (Element "BR" [] [] []))]
    /\ (forallb plain_name (map fst (@nil (string * string))) = true ->
        render v
        = Some (Element "BR" [] [] [Text (textContent (Element "BR" [] [] []))])).
Proof.
  apply toVNode_text_only; [reflexivity|constructor].
Defined.

(** An attribute named [__proto__] is lost on the way, and one named
    as an array index changes its place. *)
Example toVNode_attribute_names :
  (exists v r',
      toVNode (Element "P" [("__proto__", "x")] [] []) 0 = Some (v, r')
      /\ render v = Some (Element "P" [] [] [Text ""]))
  /\ (exists v r',
        toVNode (Element "P" [("id", "x"); ("0", "y")] [] []) 0 = Some (v, r')
        /\ render v = Some (Element "P" [("0", "y"); ("id", "x")] [] [Text ""])).
Proof. split; eexists _, _; split; reflexivity. Qed.

(** ** mountMVC *)

(** [mountMVC] leaves the rendering of the first view as the first
    child of the root.  From a state in which the first child is the
    rendering of [vDom], a [refresh] whose new view is a patchable update
    of [vDom] gives the same result with diffing as without: the first
    child is the rendering of the new view, which is the new [vDom]. *)
Theorem MountMVC_refresh_agrees (view : Val -> Val) (model : Val) (app : MountMVC.t) :
  (forall root model0 app0,
      MountMVC.mountMVC view root model0 = Some app0 ->
      lookup (MountMVC.root app0) [0] = render (MountMVC.vDom app0)
      /\ MountMVC.vDom app0 = view model0)
  /\ (lookup (MountMVC.root app) [0] = render (MountMVC.vDom app) ->
      is_NodeRep (MountMVC.vDom app) = true ->
      is_NodeRep (view model) = true ->
      patchable (view model) (MountMVC.vDom app) = true ->
      MountMVC.refresh view true model app = MountMVC.refresh view false model app
      /\ exists app',
           MountMVC.refresh view true model app = Some app'
           /\ MountMVC.vDom app' = view model
           /\ lookup (MountMVC.root app') [0] = render (MountMVC.vDom app')).
Proof.
  split.
  - intros root model0 app0. unfold MountMVC.mountMVC.
    destruct (render (view model0)) as [child|] eqn:R; [|discriminate]. cbn [bind].
    unfold prepend. cbn [update].
    destruct root as [|t a l cs]; [discriminate|]. cbn [bind].
    intros [= <-]. cbn [MountMVC.root MountMVC.vDom]. now rewrite R.
  - intros L No Nn P.
    destruct (render_NodeRep _ No) as [d R]. rewrite R in L.
    destruct (diff_patches_gen _ Nn _ No P (MountMVC.root app) [] 0 [] d R L)
      as (root' & child & log & Rn & D & U).
    unfold MountMVC.refresh. rewrite D, Rn. cbn [bind fst].
    rewrite (replaceChild_as_replace _ [] 0 child d L), U. cbn [bind].
    split; auto. eexists. split; [reflexivity|]. cbn [MountMVC.root MountMVC.vDom].
    split; auto. rewrite Rn. now apply (lookup_replace_at _ _ _ _ U).
Qed.

Lemma MountMVC_refresh_agrees_witness :
  let view := fun model =>
    vNode 1 (VStr "div") VUndefined [vNode 4 (VStr "span") VUndefined [model]] in
  let app := MountMVC.mk (view (VStr " Input: "))
               (Element "main" [] [] [Element "div" [] [] [Element "span" [] [] [Text " Input: "]]]) in
  MountMVC.refresh view true (VStr " Input: a") app
  = MountMVC.refresh view false (VStr " Input: a") app
  /\ exists app',
       MountMVC.refresh view true (VStr " Input: a") app = Some app'
       /\ MountMVC.vDom app' = view (VStr " Input: a")
       /\ lookup (MountMVC.root app') [0] = render (MountMVC.vDom app').
Proof.
  intros view app.
  apply (proj2 (MountMVC_refresh_agrees view (VStr " Input: a") app)); reflexivity.
Defined.
